(** * KV-cache management of BigDL-LLM: growth in the Falcon attention
    forward passes and eviction/truncation in the portable chat loops.

    Sources embedded here:
    - [python/llm/src/bigdl/llm/transformers/models/falcon.py]
      (the cache handling of [rw_attention_forward_7b],
      [rw_attention_forward_40b] and [falcon_attention_forward]);
    - [python/llm/portable-zip/chat.py]
      ([greedy_generate], the [*_stream_chat] loops and the ChatGLM3
      truncation).

    Python exceptions are values of [Error]; a computation that may raise
    returns a [Result]. *)

From stdpp Require Import base list strings.
From Stdlib Require Import ZArith Lia Ascii.

Inductive Error : Type :=
| InvalidArgument
| CapacityExceeded
| AllocationFailure
| ShapeMismatch
| IndexError
| UnboundLocalError
| EOFError.

Inductive Result (A : Type) : Type :=
| OK (a : A)
| Err (e : Error).
Arguments OK {A} a.
Arguments Err {A} e.

(** ** falcon.py: the cache part of the attention forward passes *)

Module Falcon.

Definition KV_CACHE_ALLOC_BLOCK_LENGTH : nat := 256.

Section Cache.

(** A [Row] is the slice of a key (or value) tensor at one sequence
    position, over all batches and heads: the cache code only ever moves
    whole sequence positions. *)
Variable Row : Type.
(** [self.head_dim], the size of the last dimension of every cache view. *)
Variable head_dim : nat.

(** A storage region as [torch.empty] allocates it: one slot per sequence
    position, [None] while nothing was written to it. Its number of slots is
    the capacity of the buffer. *)
Abbreviation Storage := (list (option Row)) (only parsing).

(** Device memory: the regions allocated so far (a region's index is its
    address) and the slots still free; an allocation beyond them raises. *)
Record Mem : Type := mkMem {
  regions : list Storage;
  free_slots : nat
}.

(** A strided view [batch, heads, size2, head_dim] into a region:
    [stride1] is [stride()[1]], the distance between two heads. *)
Record Tensor : Type := mkTensor {
  data_ptr : nat;
  size2 : nat;
  stride1 : nat
}.

(** Key and value layers are either freshly computed rows or cache views. *)
Inductive Layer : Type :=
| Fresh (rows : list Row)
| View (t : Tensor).

(** State-and-exception monad: the memory an exception leaves behind is
    kept, as a Python exception keeps the side effects made before it. *)
Definition M (A : Type) : Type := Mem -> Result A * Mem.

Definition ret {A : Type} (a : A) : M A := fun m => (OK a, m).

Definition raise {A : Type} (e : Error) : M A := fun m => (Err e, m).

Definition bind {A B : Type} (c : M A) (f : A -> M B) : M B :=
  fun m => match c m with
           | (OK a, m') => f a m'
           | (Err e, m') => (Err e, m')
           end.

(** [torch.empty] of [n] slots: a fresh region, or out of memory. *)
Definition torch_empty (n : nat) : M nat :=
  fun m =>
    if n <=? free_slots m
    then (OK (length (regions m)),
          mkMem (regions m ++ [replicate n None]) (free_slots m - n))
    else (Err AllocationFailure, m).

Definition get_region (p : nat) : M Storage :=
  fun m => match regions m !! p with
           | Some r => (OK r, m)
           | None => (Err IndexError, m)
           end.

Definition set_region (p : nat) (r : Storage) : M unit :=
  fun m => (OK tt, mkMem (<[p := r]> (regions m)) (free_slots m)).

(** Slots [off, off + |rows|) of a region overwritten by [rows]. *)
Definition write_slots (r : Storage) (off : nat) (rows : Storage) : Storage :=
  take off r ++ rows ++ drop (off + length rows) r.

(** What a view shows: its first [size2] slots. *)
Definition read (m : Mem) (t : Tensor) : option Storage :=
  take (size2 t) <$> regions m !! data_ptr t.

Definition capacity (m : Mem) (t : Tensor) : option nat :=
  length <$> regions m !! data_ptr t.

Notation "'let*' x ':=' c 'in' k" := (bind c (fun x => k))
  (at level 10, x pattern, c at level 100, k at level 200, only parsing).

(** Modelled from the spec: [init_kv_cache] of
    [bigdl.llm.transformers.models.utils], which is not among the sources.
    It is the spec's [CacheBuffer.create] for the key and the value buffer:
    storage of [max_length] slots each, fails with [InvalidArgument] when the
    capacity is below the initial length; the two views returned show
    [current_length] positions and carry the strides of the storage. The
    caller copies the rows in. *)
Definition init_kv_cache (current_length max_length : nat) : M (Tensor * Tensor) :=
  if max_length <? current_length then raise InvalidArgument
  else
    let* k := torch_empty max_length in
    let* v := torch_empty max_length in
    ret (mkTensor k current_length (max_length * head_dim),
         mkTensor v current_length (max_length * head_dim)).

(** Modelled from the spec: [extend_kv_cache] of the same missing module,
    the allocation half of the spec's [CacheBuffer.grow]: a new region of
    [max_length] slots for each of key and value. *)
Definition extend_kv_cache (current_length max_length : nat) : M (Tensor * Tensor) :=
  init_kv_cache current_length max_length.

(** Broadcasting along the sequence axis: a source of one row is repeated
    to the length of the destination. *)
Definition broadcast (rows : Storage) (n : nat) : Storage :=
  match rows with
  | [row] => replicate n row
  | _ => rows
  end.

(** [dst[:] = src] for rows that are at hand: after broadcasting the shapes
    must agree, and the view must lie inside its region. *)
Definition setitem_all (dst : Tensor) (rows : Storage) : M unit :=
  let rows := broadcast rows (size2 dst) in
  if negb (length rows =? size2 dst) then raise ShapeMismatch
  else
    let* r := get_region (data_ptr dst) in
    if length r <? size2 dst then raise IndexError
    else set_region (data_ptr dst) (write_slots r 0 rows).

(** [dst[:] = src] for a source that is itself a view. *)
Definition copy_view (dst src : Tensor) : M unit :=
  let* r := get_region (data_ptr src) in
  setitem_all dst (take (size2 src) r).

(** Modelled from the spec: the spec's [CacheBuffer.append], one buffer:
    requires [length + |new_rows| <= capacity], writes the rows into
    [length, length + |new_rows|) of the same storage and returns the view
    that shows them; [CapacityExceeded] otherwise. *)
Definition append (cache : Tensor) (new_rows : list Row) : M Tensor :=
  let* r := get_region (data_ptr cache) in
  if length r <? size2 cache + length new_rows then raise CapacityExceeded
  else
    let* _ := set_region (data_ptr cache) (write_slots r (size2 cache) (Some <$> new_rows)) in
    ret (mkTensor (data_ptr cache) (size2 cache + length new_rows) (stride1 cache)).

(** Modelled from the spec: [append_kv_cache] of the missing module, the
    append of the new key rows and of the new value rows. *)
Definition append_kv_cache (cache_k cache_v : Tensor) (key_states value_states : list Row)
  : M (Tensor * Tensor) :=
  let* new_cache_k := append cache_k key_states in
  let* new_cache_v := append cache_v value_states in
  ret (new_cache_k, new_cache_v).

(** [self._split_heads(fused_qkv)], keys and values only: one key row and
    one value row per new sequence position. *)
Definition split_heads (fused_qkv : list (Row * Row)) : list Row * list Row :=
  (fused_qkv.*1, fused_qkv.*2).

(** The probe of the source, [cache_k.stride()[1] <= cache_k.size(2) *
    cache_k.size(3)]; the views have [size(3) = head_dim]. *)
Definition cache_is_full (cache_k : Tensor) : bool :=
  stride1 cache_k <=? size2 cache_k * head_dim.

(** The cache handling shared, line for line, by the three forward passes
    (falcon.py 88-141, 267-320, 442-494): returns [key_layer],
    [value_layer] as the attention then uses them, and [present].
    [layer_past] is the pair as lines 98 and 99 have viewed it, [cache_k]
    and [cache_v]; what these views do to a [present] that comes back is
    [view_heads] below. *)
Definition attention_forward_kv (layer_past : option (Tensor * Tensor))
    (use_cache : bool) (fused_qkv : list (Row * Row))
  : M (Layer * Layer * option (Layer * Layer)) :=
  let '(key_layer, value_layer) := split_heads fused_qkv in
  let kv_length := length key_layer in
  let kv_length :=
    match layer_past with
    | Some (past_k, _) => kv_length + size2 past_k
    | None => kv_length
    end in
  let* (key_layer, value_layer) :=
    match layer_past with
    | Some (cache_k, cache_v) =>
        let* (cache_k, cache_v) :=
          (if cache_is_full cache_k then
             let* (new_cache_k, new_cache_v) :=
               extend_kv_cache (size2 cache_k)
                               (kv_length + KV_CACHE_ALLOC_BLOCK_LENGTH) in
             let* _ := copy_view new_cache_k cache_k in
             let* _ := copy_view new_cache_v cache_v in
             ret (new_cache_k, new_cache_v)
           else ret (cache_k, cache_v)) in
        let* (key_layer, value_layer) :=
          append_kv_cache cache_k cache_v key_layer value_layer in
        ret (View key_layer, View value_layer)
    | None =>
        if use_cache then
          let max_cache_length := kv_length + KV_CACHE_ALLOC_BLOCK_LENGTH in
          let* (new_key_states, new_value_states) :=
            init_kv_cache kv_length max_cache_length in
          let* _ := setitem_all new_key_states (Some <$> key_layer) in
          let* _ := setitem_all new_value_states (Some <$> value_layer) in
          ret (View new_key_states, View new_value_states)
        else ret (Fresh key_layer, Fresh value_layer)
    end in
  let present := if use_cache then Some (key_layer, value_layer) else None in
  ret (key_layer, value_layer, present).

Definition rw_attention_forward_7b := attention_forward_kv.
Definition rw_attention_forward_40b := attention_forward_kv.
Definition falcon_attention_forward := attention_forward_kv.

Inductive variant : Type := RW_7B | RW_40B | FALCON.

Definition attention_forward (which : variant) :=
  match which with
  | RW_7B => rw_attention_forward_7b
  | RW_40B => rw_attention_forward_40b
  | FALCON => falcon_attention_forward
  end.

(** The two views between one call and the next, falcon.py 135 and 98:
    [present] holds the cache flattened to
    [batch_size * num_kv, length, head_dim], and the next call views it as
    [batch_size, num_kv, length, head_dim] again before it probes it.
    [num_kv] is the head count of these views: [self.num_kv] in
    [rw_attention_forward_7b], [self.num_heads] in
    [rw_attention_forward_40b], [num_kv_heads] in
    [falcon_attention_forward]. With two heads or more the stride of the
    head dimension comes back as it was, the stride of the storage. With one
    head that dimension has size 1, and [view] gives a dimension of size 1
    the stride of the data it spans, [size(2) * size(3)], whatever storage
    lies behind it. *)
Definition view_heads (num_kv : nat) (t : Tensor) : Tensor :=
  if num_kv =? 1 then mkTensor (data_ptr t) (size2 t) (size2 t * head_dim) else t.

(** The cache views of a [present] as the next call sees them, lines 98
    and 99 applied to what line 139 returned. *)
Definition as_layer_past (num_kv : nat) (present : option (Layer * Layer))
  : option (Tensor * Tensor) :=
  match present with
  | Some (View k, View v) => Some (view_heads num_kv k, view_heads num_kv v)
  | _ => None
  end.

(** A decoding session on one layer of a model with [num_kv] heads in its
    cache: every step hands the previous [present] back as [layer_past],
    with [use_cache = True]. *)
Fixpoint decode_session (which : variant) (num_kv : nat) (steps : list (list (Row * Row)))
    (layer_past : option (Tensor * Tensor)) : M (option (Tensor * Tensor)) :=
  match steps with
  | [] => ret layer_past
  | fused_qkv :: rest =>
      let* (_, _, present) := attention_forward which layer_past true fused_qkv in
      decode_session which num_kv rest (as_layer_past num_kv present)
  end.

(** Allocations of a key/value pair made so far. *)
Definition allocations (m : Mem) : nat := length (regions m) / 2.

(** Rows handed to a session. *)
Definition total_rows (steps : list (list (Row * Row))) : nat :=
  length (concat steps).

(** The sequence length of [layer_past], [layer_past[0].shape[-2]]. *)
Definition past_length (layer_past : option (Tensor * Tensor)) : nat :=
  match layer_past with
  | Some (past_k, _) => size2 past_k
  | None => 0
  end.

(** The views [init_kv_cache] returns when memory ends at [regions m]. *)
Definition fresh_k (m : Mem) (len cap : nat) : Tensor :=
  mkTensor (length (regions m)) len (cap * head_dim).

Definition fresh_v (m : Mem) (len cap : nat) : Tensor :=
  mkTensor (S (length (regions m))) len (cap * head_dim).

Definition present_of (use_cache : bool) (k v : Tensor) : option (Layer * Layer) :=
  if use_cache then Some (View k, View v) else None.

(** Region [p] is the same in [m'] as in [m]. *)
Definition same_region (p : nat) (m m' : Mem) : Prop :=
  regions m' !! p = regions m !! p.

(** A cache as the forward pass leaves it: two distinct regions of [cap]
    slots, views with the strides of those regions and one length, which is
    within the capacity. *)
Definition sound_cache (m : Mem) (k v : Tensor) (cap : nat) : Prop :=
  (exists rk rv, regions m !! data_ptr k = Some rk /\ regions m !! data_ptr v = Some rv /\
                 length rk = cap /\ length rv = cap) /\
  data_ptr k <> data_ptr v /\
  stride1 k = cap * head_dim /\
  size2 v = size2 k /\
  size2 k <= cap.

(** A past pair that can be read: two distinct regions that hold the two
    views, which have one length. *)
Definition valid_cache (m : Mem) (k v : Tensor) : Prop :=
  (exists rk rv, regions m !! data_ptr k = Some rk /\ regions m !! data_ptr v = Some rv /\
                 size2 k <= length rk /\ size2 v <= length rv) /\
  data_ptr k <> data_ptr v /\
  size2 v = size2 k.

(** A past pair that the cache code can work on: readable, and with a
    stride that promises no more slots than its regions hold. *)
Definition backed_cache (m : Mem) (k v : Tensor) : Prop :=
  exists rk rv,
    regions m !! data_ptr k = Some rk /\ regions m !! data_ptr v = Some rv /\
    size2 k <= length rk /\ size2 k <= length rv /\
    stride1 k <= length rk * head_dim /\ stride1 k <= length rv * head_dim /\
    data_ptr k <> data_ptr v /\ size2 v = size2 k.

(** The view [t] shows exactly [rows], every one of them written. *)
Definition shows (m : Mem) (t : Tensor) (rows : list Row) : Prop :=
  read m t = Some (Some <$> rows).

End Cache.

Arguments valid_cache {Row} m k v.
Arguments backed_cache {Row} head_dim m k v.
Arguments shows {Row} m t rows.
Arguments mkMem {Row} regions free_slots.
Arguments regions {Row} m.
Arguments free_slots {Row} m.
Arguments Fresh {Row} rows.
Arguments View {Row} t.
Arguments ret {Row A} a m.
Arguments raise {Row A} e m.
Arguments bind {Row A B} c f m.
Arguments torch_empty {Row} n m.
Arguments get_region {Row} p m.
Arguments set_region {Row} p r m.
Arguments write_slots {Row} r off rows.
Arguments read {Row} m t.
Arguments capacity {Row} m t.
Arguments init_kv_cache {Row} head_dim current_length max_length m.
Arguments extend_kv_cache {Row} head_dim current_length max_length m.
Arguments broadcast {Row} rows n.
Arguments setitem_all {Row} dst rows m.
Arguments copy_view {Row} dst src m.
Arguments append {Row} cache new_rows m.
Arguments append_kv_cache {Row} cache_k cache_v key_states value_states m.
Arguments split_heads {Row} fused_qkv.
Arguments attention_forward_kv {Row} head_dim layer_past use_cache fused_qkv m.
Arguments rw_attention_forward_7b {Row} head_dim layer_past use_cache fused_qkv m.
Arguments rw_attention_forward_40b {Row} head_dim layer_past use_cache fused_qkv m.
Arguments falcon_attention_forward {Row} head_dim layer_past use_cache fused_qkv m.
Arguments attention_forward {Row} head_dim which layer_past use_cache fused_qkv m.
Arguments as_layer_past {Row} head_dim num_kv present.
Arguments decode_session {Row} head_dim which num_kv steps layer_past m.
Arguments allocations {Row} m.
Arguments total_rows {Row} steps.
Arguments fresh_k {Row} head_dim m len cap.
Arguments fresh_v {Row} head_dim m len cap.
Arguments present_of {Row} use_cache k v.
Arguments same_region {Row} p m m'.
Arguments sound_cache {Row} head_dim m k v cap.

End Falcon.

(** ** kv_cache.py: the start/recent eviction policy *)

Module KVCache.

Section Policy.

Variable Row : Type.

(** Modelled from the spec: [kv_cache.py] ([StartRecentKVCache], imported
    by chat.py) is not among the sources. The definitions of this module
    follow sections 3, 4.1 and 4.3 of the specification. A buffer holds its
    valid rows, [length] of them, in storage of [capacity] slots. *)
Record CacheBuffer : Type := mkBuffer {
  capacity : nat;
  rows : list Row
}.

(** Modelled from the spec: the [length] of a buffer, its number of valid
    rows. *)
Definition buf_length (b : CacheBuffer) : nat := length (rows b).

(** Modelled from the spec: [truncate_front_and_back] of section 4.1: the
    first [keep_front] rows, then the last [keep_back] rows, in a fresh
    region of [keep_front + keep_back] slots. *)
Definition truncate_front_and_back (keep_front keep_back : nat) (b : CacheBuffer)
  : CacheBuffer :=
  mkBuffer (keep_front + keep_back)
           (take keep_front (rows b) ++ drop (buf_length b - keep_back) (rows b)).

(** Modelled from the spec: the [CacheLayerSet] of section 3, one
    (key, value) pair of buffers per transformer layer. *)
Definition CacheLayerSet : Type := list (CacheBuffer * CacheBuffer).

(** Modelled from the spec: [current_length], the length the layers
    share, read off the first layer's key buffer. *)
Definition current_length (cache_set : CacheLayerSet) : nat :=
  match cache_set with
  | [] => 0
  | (k, _) :: _ => buf_length k
  end.

(** Modelled from the spec: the compaction of section 4.3, the same
    [truncate_front_and_back] on every buffer of every layer. *)
Definition compact_all (keep_front keep_back : nat) (cache_set : CacheLayerSet)
  : CacheLayerSet :=
  map (fun '(k, v) =>
         (truncate_front_and_back keep_front keep_back k,
          truncate_front_and_back keep_front keep_back v))
      cache_set.

(** Modelled from the spec: the construction parameters of the policy
    (section 6); chat.py builds it as [StartRecentKVCache(start_size=...)]. *)
Record StartRecentKVCache : Type := mkPolicy {
  start_size : nat;
  max_cache_len : nat
}.

(** Modelled from the spec: [evict_for_space] of section 4.3. A session not
    longer than the sink window is left alone whatever is asked; enough room
    means no eviction; a request above the ceiling is [InvalidArgument];
    otherwise every layer is compacted with the same pair. *)
Definition evict_for_space (self : StartRecentKVCache) (cache_set : CacheLayerSet)
    (space_needed : nat) : Result CacheLayerSet :=
  let length := current_length cache_set in
  if length <=? start_size self then OK cache_set
  else if length + space_needed <=? max_cache_len self + start_size self
  then OK cache_set
  else if max_cache_len self <? space_needed then Err InvalidArgument
  else
    let keep_back := max_cache_len self - space_needed in
    OK (compact_all (start_size self) keep_back cache_set).

(** Every key and value buffer of the set holds [n] rows. *)
Definition uniform_length (n : nat) (cache_set : CacheLayerSet) : Prop :=
  Forall (fun kv => buf_length kv.1 = n /\ buf_length kv.2 = n) cache_set.

End Policy.

Arguments mkBuffer {Row} capacity rows.
Arguments capacity {Row} _.
Arguments rows {Row} _.
Arguments buf_length {Row} b.
Arguments truncate_front_and_back {Row} keep_front keep_back b.
Arguments current_length {Row} cache_set.
Arguments compact_all {Row} keep_front keep_back cache_set.
Arguments uniform_length {Row} n cache_set.
Arguments evict_for_space {Row} self cache_set space_needed.

End KVCache.

(** ** chat.py: generation and the chat loops *)

Module Chat.

Definition nl : string := String (ascii_of_nat 10) EmptyString.

Definition HUMAN_ID : string := "<human>".
Definition BOT_ID : string := "<bot>".

(** [pat in s] on Python strings. *)
Fixpoint contains (pat s : string) : bool :=
  String.prefix pat s ||
  match s with
  | EmptyString => false
  | String _ s' => contains pat s'
  end.

(** [s[a:b]] for [0 <= a]. *)
Definition py_slice (s : string) (a b : Z) : string :=
  String.substring (Z.to_nat a) (Z.to_nat (b - a)) s.

(** [s[a:]] for [0 <= a]. *)
Definition py_from (s : string) (a : Z) : string :=
  String.substring (Z.to_nat a) (String.length s - Z.to_nat a) s.

(** [sep.join(s)] over the characters of [s]. *)
Fixpoint join_chars (sep s : string) : string :=
  match s with
  | EmptyString => EmptyString
  | String c rest =>
      match rest with
      | EmptyString => String c EmptyString
      | String _ _ => String c (sep +:+ join_chars sep rest)
      end
  end.

Fixpoint lstrip (chars : list ascii) (s : string) : string :=
  match s with
  | EmptyString => EmptyString
  | String c rest => if existsb (Ascii.eqb c) chars then lstrip chars rest else s
  end.

Definition string_rev (s : string) : string :=
  String.string_of_list_ascii (rev (String.list_ascii_of_string s)).

(** [s.strip(chars)]. *)
Definition strip (chars : list ascii) (s : string) : string :=
  string_rev (lstrip chars (string_rev (lstrip chars s))).

(** [l[-k:]]: the last [k] elements, all of [l] when it is shorter; [l[-0:]]
    is [l[0:]]. *)
Definition py_last {A : Type} (k : nat) (l : list A) : list A :=
  if k =? 0 then l else drop (length l - k) l.

(** What the loops do, in order, one list per user turn. *)
Inductive Event : Type :=
| EvEvict (space_needed : Z)
| EvGenerate (input_ids : list Z) (max_gen_len : Z).



Inductive Flow : Type := Continue | Break.

(** The attributes and the method of the tokenizer that
    [get_stop_words_ids] reads. *)
Record StopTokenizer : Type := mkStopTokenizer {
  im_end_id : Z;
  im_start_id : Z;
  eod_id : Z;
  encode : string -> list Z
}.

(** What a call of [get_stop_words_ids] ends in: the list it returns, or
    the [NotImplementedError] it raises, with the format it names. *)
Inductive StopWords : Type :=
| StopWordsIds (stop_words_ids : list (list Z))
| NotImplementedError (chat_format : string).

(** [get_stop_words_ids], chat.py 60-69. *)
Definition get_stop_words_ids (chat_format : string) (tokenizer : StopTokenizer)
  : StopWords :=
  if bool_decide (chat_format = "Qwen") then
    StopWordsIds [[im_end_id tokenizer]; [im_start_id tokenizer]; [eod_id tokenizer]]
  else if bool_decide (chat_format = "Yi") then
    StopWordsIds [encode tokenizer "<|im_end|>"]
  else NotImplementedError chat_format.

(** Responses as a streaming generator yields them: each one starts with
    the one before. *)
Fixpoint growing (responses : list string) : Prop :=
  match responses with
  | r :: rest =>
      match rest with
      | r' :: _ => String.prefix r r' = true /\ growing rest
      | [] => True
      end
  | [] => True
  end.

Section Generation.

(** The model's [past_key_values] object. *)
Variable PKV : Type.
(** [model(input_ids, past_key_values, use_cache=True)]: the arg-max of
    the logits at the last position, and [outputs.past_key_values]. *)
Variable model : list Z -> option PKV -> Z * PKV.
(** [tokenizer(prompt, return_tensors="pt").input_ids]. *)
Variable tokenizer : string -> list Z.
(** [tokenizer.decode(ids, skip_special_tokens=True, ...)]. *)
Variable decode : list Z -> string.
Variable eos_token_id : option Z.
(** The [kv_cache] object's [evict_for_space] method. *)
Definition KVCacheObj : Type := option PKV -> Z -> Result (option PKV).

(** The local variables of [greedy_generate]; [generated_text] is [None]
    until line 102 binds the name. *)
Record GenState : Type := mkGen {
  past_key_values : PKV;
  pred_token_idx : Z;
  generated_ids : list Z;
  pos : Z;
  generated_text : option string;
  printed : list string
}.

(** [generated_ids[-1 * len(stop_str):] == stop_str] for some stop word. *)
Definition hits_stop_word (stop_words : option (list (list Z))) (ids : list Z) : bool :=
  match stop_words with
  | Some ws => existsb (fun stop_str => bool_decide (py_last (length stop_str) ids = stop_str)) ws
  | None => false
  end.

(** One pass through the body of the [for] loop, chat.py 85-115. *)
Definition generate_step (stop_words : option (list (list Z))) (st : GenState)
  : GenState * Flow :=
  let '(tok, past) := model [pred_token_idx st] (Some (past_key_values st)) in
  let ids := generated_ids st ++ [tok] in
  if hits_stop_word stop_words ids
  then (mkGen past tok ids (pos st) (generated_text st) (printed st), Break)
  else
    let text := decode ids in
    let now := (Z.of_nat (String.length text) - 1)%Z in
    if (now >? pos st)%Z then
      if contains (nl +:+ "<") text
      then (mkGen past tok ids (pos st) (Some text) (printed st), Break)
      else
        let st' := mkGen past tok ids now (Some text)
                         (printed st ++ [py_slice text (pos st) now]) in
        (st', if bool_decide (Some tok = eos_token_id) then Break else Continue)
    else
      (mkGen past tok ids (pos st) (Some text) (printed st),
       if bool_decide (Some tok = eos_token_id) then Break else Continue).

(** [for _ in range(n)] with its [break]s. *)
Fixpoint generate_loop (stop_words : option (list (list Z))) (n : nat) (st : GenState)
  : GenState :=
  match n with
  | O => st
  | S n' =>
      match generate_step stop_words st with
      | (st', Break) => st'
      | (st', Continue) => generate_loop stop_words n' st'
      end
  end.

(** What the loop has streamed so far, against the text it decoded last:
    after the banner, the pieces printed add up to that text before [pos],
    and the text is the beginning of what the tokens decode to now. *)
Definition streamed (st : GenState) : Prop :=
  exists pieces,
    printed st = "BigDL-LLM: " :: pieces /\
    (0 <= pos st)%Z /\
    match generated_text st with
    | Some text =>
        String.concat "" pieces = py_slice text 0 (pos st) /\
        (pos st <= Z.of_nat (String.length text))%Z /\
        String.prefix text (decode (generated_ids st)) = true
    | None => pieces = [] /\ pos st = 0%Z
    end.

(** The tokens that [n] passes of the loop append when none of them
    breaks, chat.py 85-92: each pass feeds the last token and the cache
    back to the model. *)
Fixpoint greedy_stream (n : nat) (tok : Z) (past : PKV) : list Z :=
  match n with
  | O => []
  | S n' =>
      let '(tok', past') := model [tok] (Some past) in
      tok' :: greedy_stream n' tok' past'
  end.

(** [greedy_generate], chat.py 72-117: the locals when the call ends, and
    what it returns. Line 116 reads [generated_text], which is unbound when
    no pass of the loop reached line 102. What is printed is kept without
    the colour codes of colorama. *)
Definition greedy_generate (input_ids : list Z) (past : option PKV)
    (max_gen_len : Z) (stop_words : option (list (list Z)))
  : GenState * Result PKV :=
  let '(tok, past) := model input_ids past in
  let st := mkGen past tok [tok] 0%Z None ["BigDL-LLM: "] in
  let st := generate_loop stop_words (Z.to_nat (max_gen_len - 1)%Z) st in
  match generated_text st with
  | None => (st, Err UnboundLocalError)
  | Some text =>
      let line := strip (String.list_ascii_of_string (nl +:+ "<"))
                        (join_chars " " (py_from text (pos st))) in
      (mkGen (past_key_values st) (pred_token_idx st) (generated_ids st)
             (pos st) (generated_text st) (printed st ++ [line]),
       OK (past_key_values st))
  end.

Definition space_needed (seq_len : nat) (max_gen_len : Z) : Z :=
  (Z.of_nat seq_len + max_gen_len)%Z.

(** The cached sequence length of a [past_key_values] that may be [None],
    for a model whose cache length is [cache_len]. *)
Definition past_len (cache_len : PKV -> nat) (past : option PKV) : nat :=
  match past with
  | Some cache => cache_len cache
  | None => 0
  end.

(** One user turn of the four loops that take a [kv_cache], e.g. chat.py
    127-136: they differ in the prompt only. *)
Definition chat_turn (prompt_of : string -> string) (kv_cache : option KVCacheObj)
    (max_gen_len : Z) (stop_words : option (list (list Z)))
    (user_input : string) (past : option PKV) : list Event * Result PKV :=
  let prompt := prompt_of user_input in
  let input_ids := tokenizer prompt in
  let seq_len := length input_ids in
  let '(evicted, past) :=
    match kv_cache with
    | Some evict_for_space =>
        let needed := space_needed seq_len max_gen_len in
        ([EvEvict needed], evict_for_space past needed)
    | None => ([], OK past)
    end in
  match past with
  | Err e => (evicted, Err e)
  | OK past =>
      (evicted ++ [EvGenerate input_ids max_gen_len],
       snd (greedy_generate input_ids past max_gen_len stop_words))
  end.

(** The [while True] loop over the lines the user types; running out of
    lines is the [EOFError] of [input]. The prompt that [input] prints is
    left out. *)
Fixpoint chat_loop (prompt_of : string -> string) (kv_cache : option KVCacheObj)
    (max_gen_len : Z) (stop_words : option (list (list Z)))
    (inputs : list string) (past : option PKV) : list (list Event) * Result unit :=
  match inputs with
  | [] => ([], Err EOFError)
  | user_input :: rest =>
      if bool_decide (user_input = "stop") then ([], OK tt)
      else
        match chat_turn prompt_of kv_cache max_gen_len stop_words user_input past with
        | (events, Err e) => ([events], Err e)
        | (events, OK past) =>
            let '(turns, r) :=
              chat_loop prompt_of kv_cache max_gen_len stop_words rest (Some past) in
            (events :: turns, r)
        end
  end.

(** A line of a triple-quoted prompt, after its twelve blanks. *)
Definition prompt_line (s : string) : string :=
  "            " +:+ s +:+ nl.

Definition prompt_tail : string := "        ".

Definition stream_chat_prompt (user_input : string) : string :=
  HUMAN_ID +:+ " " +:+ user_input +:+ nl +:+ BOT_ID +:+ " ".

Definition qwen_prompt (user_input : string) : string :=
  nl +:+ prompt_line "<|im_start|>system"
     +:+ prompt_line "You are a helpful assistant."
     +:+ prompt_line "<|im_end|>"
     +:+ prompt_line "<|im_start|>user"
     +:+ prompt_line user_input
     +:+ prompt_line "<|im_end|>"
     +:+ prompt_line "<|im_start|>assistant"
     +:+ prompt_tail.

Definition llama_prompt (user_input : string) : string :=
  nl +:+ prompt_line "[INST] <<SYS>>"
     +:+ prompt_line "You are a helpful assistant."
     +:+ prompt_line "<</SYS>>"
     +:+ prompt_line (user_input +:+ "[/INST]")
     +:+ prompt_tail.

Definition yi_prompt (user_input : string) : string :=
  nl +:+ prompt_line "<|im_start|>system"
     +:+ prompt_line "You are a helpful assistant. If you don't understand what the user means, ask the user to provide more information."
     +:+ prompt_line "<|im_end|>"
     +:+ prompt_line "<|im_start|>user"
     +:+ prompt_line user_input
     +:+ prompt_line "<|im_end|>"
     +:+ prompt_line "<|im_start|>assistant"
     +:+ prompt_tail.

Definition stream_chat (kv_cache : option KVCacheObj) (max_gen_len : Z)
    (stop_words : option (list (list Z))) (inputs : list string) :=
  chat_loop stream_chat_prompt kv_cache max_gen_len stop_words inputs None.

Definition qwen_stream_chat (kv_cache : option KVCacheObj) (max_gen_len : Z)
    (stop_words : option (list (list Z))) (inputs : list string) :=
  chat_loop qwen_prompt kv_cache max_gen_len stop_words inputs None.

Definition llama_stream_chat (kv_cache : option KVCacheObj) (max_gen_len : Z)
    (stop_words : option (list (list Z))) (inputs : list string) :=
  chat_loop llama_prompt kv_cache max_gen_len stop_words inputs None.

Definition yi_stream_chat (kv_cache : option KVCacheObj) (max_gen_len : Z)
    (stop_words : option (list (list Z))) (inputs : list string) :=
  chat_loop yi_prompt kv_cache max_gen_len stop_words inputs None.

Inductive chat_variant : Type := Generic | Qwen | Llama | Yi.

Definition kv_stream_chat (which : chat_variant) :=
  match which with
  | Generic => stream_chat
  | Qwen => qwen_stream_chat
  | Llama => llama_stream_chat
  | Yi => yi_stream_chat
  end.


End Generation.

Arguments mkGen {PKV} _ _ _ _ _ _.
Arguments past_key_values {PKV} _.
Arguments pred_token_idx {PKV} _.
Arguments generated_ids {PKV} _.
Arguments pos {PKV} _.
Arguments generated_text {PKV} _.
Arguments printed {PKV} _.
Arguments generate_step {PKV} model decode eos_token_id stop_words st.
Arguments generate_loop {PKV} model decode eos_token_id stop_words n st.
Arguments greedy_stream {PKV} model n tok past.
Arguments streamed {PKV} decode st.
Arguments greedy_generate {PKV} model decode eos_token_id input_ids past max_gen_len stop_words.
Arguments past_len {PKV} cache_len past.
Arguments chat_turn {PKV} model tokenizer decode eos_token_id prompt_of kv_cache
  max_gen_len stop_words user_input past.
Arguments chat_loop {PKV} model tokenizer decode eos_token_id prompt_of kv_cache
  max_gen_len stop_words inputs past.
Arguments stream_chat {PKV} model tokenizer decode eos_token_id kv_cache
  max_gen_len stop_words inputs.
Arguments qwen_stream_chat {PKV} model tokenizer decode eos_token_id kv_cache
  max_gen_len stop_words inputs.
Arguments llama_stream_chat {PKV} model tokenizer decode eos_token_id kv_cache
  max_gen_len stop_words inputs.
Arguments yi_stream_chat {PKV} model tokenizer decode eos_token_id kv_cache
  max_gen_len stop_words inputs.
Arguments kv_stream_chat {PKV} model tokenizer decode eos_token_id which kv_cache
  max_gen_len stop_words inputs.

Section ChatGLM3.

(** A cached ChatGLM3 tensor is [seq, batch, heads, head_dim]; a [Row] is
    its slice at one index of dimension 0. *)
Variable Row : Type.
Variable History : Type.
Variable no_history : History.

Abbreviation GLMTensor := (list Row) (only parsing).
(** A tuple of layers, each a tuple of tensors. *)
Abbreviation GLMPast := (list (list (list Row))) (only parsing).

(** [model.stream_chat(tokenizer, prompt, history=..., past_key_values=...,
    return_past_key_values=True)]: the chunks the generator yields. *)
Variable model_stream_chat :
  string -> History -> option GLMPast -> list (string * History * GLMPast).

Definition max_past_length : nat := 2048.

Record GLMState : Type := mkGLM {
  chat_history : History;
  glm_past : option GLMPast;
  current_length : nat;
  glm_printed : list string
}.

(** chat.py 170-177: [val[-max_past_length:]] for every tensor of every
    layer. *)
Definition keep_recent (past_key_values : GLMPast) : GLMPast :=
  map (fun layer => map (fun val => py_last max_past_length val) layer)
      past_key_values.

(** Every tensor of every layer has [n] rows along dimension 0. *)
Definition uniform_rows (n : nat) (past_key_values : GLMPast) : Prop :=
  Forall (Forall (fun val : GLMTensor => length val = n)) past_key_values.

(** No tensor of any layer has more than [bound] rows. *)
Definition bounded_rows (bound : nat) (past_key_values : GLMPast) : Prop :=
  Forall (Forall (fun val : GLMTensor => length val <= bound)) past_key_values.

(** A chunk as the model yields it: a first layer with a first tensor, and
    one sequence length throughout. *)
Definition well_formed_chunk (chunk : string * History * GLMPast) : Prop :=
  exists n val0 layer0 layers,
    chunk.2 = (val0 :: layer0) :: layers /\ uniform_rows n chunk.2.

(** The body of the [for] loop over the chunks, chat.py 166-177. *)
Definition glm_chunk (st : GLMState) (chunk : string * History * GLMPast)
  : Result GLMState :=
  let '(response, chat_history, past_key_values) := chunk in
  let out := glm_printed st ++ [py_from response (Z.of_nat (current_length st))] in
  let current_length := String.length response in
  match past_key_values with
  | [] => Err IndexError
  | layer0 :: _ =>
      match layer0 with
      | [] => Err IndexError
      | val0 :: _ =>
          let past_key_values :=
            if max_past_length <? length val0
            then keep_recent past_key_values
            else past_key_values in
          OK (mkGLM chat_history (Some past_key_values) current_length out)
      end
  end.

(** The variables of the loop when the test of line 168 raises: the [for]
    statement has bound [response], [chat_history] and [past_key_values] to
    the chunk, and lines 166 and 167 have printed and set
    [current_length]. *)
Definition glm_chunk_raised (st : GLMState) (chunk : string * History * GLMPast)
  : GLMState :=
  let '(response, chat_history, past_key_values) := chunk in
  mkGLM chat_history (Some past_key_values) (String.length response)
        (glm_printed st ++ [py_from response (Z.of_nat (current_length st))]).

Fixpoint glm_chunks (st : GLMState) (chunks : list (string * History * GLMPast))
  : GLMState * Result unit :=
  match chunks with
  | [] => (st, OK tt)
  | chunk :: rest =>
      match glm_chunk st chunk with
      | OK st' => glm_chunks st' rest
      | Err e => (glm_chunk_raised st chunk, Err e)
      end
  end.

Definition chatglm3_prompt (user_input : string) : string :=
  nl +:+ prompt_line "<|system|>"
     +:+ prompt_line "You are an intelligent AI assistant, named ChatGLM3. Follow the user's instructions carefully."
     +:+ prompt_line "<|user|>"
     +:+ prompt_line user_input
     +:+ prompt_line "<|assistant|>"
     +:+ prompt_tail.

Fixpoint chatglm3_loop (inputs : list string) (st : GLMState) : GLMState * Result unit :=
  match inputs with
  | [] => (st, Err EOFError)
  | user_input :: rest =>
      if bool_decide (user_input = "stop") then (st, OK tt)
      else
        let st := mkGLM (chat_history st) (glm_past st) (current_length st)
                        (glm_printed st ++ ["BigDL-LLM: "]) in
        let chunks :=
          model_stream_chat (chatglm3_prompt user_input) (chat_history st) (glm_past st) in
        match glm_chunks st chunks with
        | (st', OK _) => chatglm3_loop rest st'
        | (st', Err e) => (st', Err e)
        end
  end.

Definition chatglm3_stream_chat (inputs : list string) : GLMState * Result unit :=
  chatglm3_loop inputs (mkGLM no_history None 0 []).

End ChatGLM3.

Arguments mkGLM {Row History} _ _ _ _.
Arguments chat_history {Row History} _.
Arguments glm_past {Row History} _.
Arguments current_length {Row History} _.
Arguments glm_printed {Row History} _.
Arguments keep_recent {Row} past_key_values.
Arguments uniform_rows {Row} n past_key_values.
Arguments bounded_rows {Row} bound past_key_values.
Arguments well_formed_chunk {Row History} chunk.
Arguments glm_chunk {Row History} st chunk.
Arguments glm_chunk_raised {Row History} st chunk.
Arguments glm_chunks {Row History} st chunks.
Arguments chatglm3_loop {Row History} model_stream_chat inputs st.
Arguments chatglm3_stream_chat {Row History} no_history model_stream_chat inputs.

End Chat.

(** ** Concrete inputs for the examples *)

Module Demo.

Import Falcon.

(** [n] new positions, key row [i] and value row [1000 + i]. *)
Definition demo_rows (n : nat) : list (nat * nat) :=
  (fun i => (i, 1000 + i)) <$> seq 0 n.

(** A cache that is full: two rows in two slots, for key and for value. *)
Definition full_mem (free : nat) : Mem nat :=
  mkMem [[Some 1; Some 2]; [Some 1001; Some 1002]] free.
Definition full_k : Tensor := mkTensor 0 2 2.
Definition full_v : Tensor := mkTensor 1 2 2.

(** A cache with room: two rows in four slots, for key and for value. *)
Definition roomy_mem (free : nat) : Mem nat :=
  mkMem [[Some 1; Some 2; None; None]; [Some 1001; Some 1002; None; None]] free.
Definition roomy_k : Tensor := mkTensor 0 2 4.
Definition roomy_v : Tensor := mkTensor 1 2 4.

(** A prompt of three positions, then three hundred single positions. *)
Definition demo_steps : list (list (nat * nat)) :=
  demo_rows 3 :: replicate 300 (demo_rows 1).

(** A model whose cache is just its length and whose next token is the
    number of positions it has seen. *)
Definition counting_model (input_ids : list Z) (past : option nat) : Z * nat :=
  let len := Chat.past_len id past + length input_ids in
  (Z.of_nat len, len).

(** One token per character. *)
Definition char_tokenizer (prompt : string) : list Z :=
  (fun c => Z.of_nat (nat_of_ascii c)) <$> String.list_ascii_of_string prompt.

(** One letter per token. *)
Definition letter_decode (ids : list Z) : string :=
  String.string_of_list_ascii ((fun _ => "a"%char) <$> ids).

(** A ChatGLM3 generator that yields two chunks, whatever it is asked. *)
Definition two_chunk_model (prompt : string) (history : unit)
    (past : option (list (list (list nat))))
  : list (string * unit * list (list (list nat))) :=
  [("he", tt, [[seq 0 3; seq 1 3]]); ("hello", tt, [[seq 0 4; seq 1 4]])].

(** An eviction that leaves the cache alone. *)
Definition no_eviction (past : option nat) (needed : Z) : Result (option nat) :=
  OK past.

(** A ChatGLM3 tensor of [1 + n] rows in which only the earliest row, the
    attention sink, is marked. *)
Definition marked_rows (n : nat) : list bool := true :: replicate n false.

(** A ChatGLM3 cache of two layers, key and value of [n] rows each. *)
Definition glm_past_of (n : nat) : list (list (list nat)) :=
  [[seq 0 n; seq 1 n]; [seq 2 n; seq 3 n]].

End Demo.
(** ** Proofs about the Falcon cache *)

Section FalconProofs.

Import Falcon.

Variable Row : Type.
Variable head_dim : nat.

Abbreviation Storage := (list (option Row)) (only parsing).

Implicit Types (m : Mem Row) (r : Storage) (t : Tensor).

(** *** Slots and regions *)

Lemma length_write_slots r off (rows : Storage) :
  off + length rows <= length r ->
  length (write_slots r off rows) = length r.
Proof.
  intros Hle. unfold write_slots.
  rewrite !length_app, length_take, length_drop. lia.
Qed.

Lemma take_write_slots r off (rows : Storage) n :
  n <= off -> off <= length r ->
  take n (write_slots r off rows) = take n r.
Proof.
  intros Hn Hoff. unfold write_slots.
  rewrite take_app_le by (rewrite length_take; lia).
  rewrite take_take. f_equal. lia.
Qed.

Lemma write_slots_middle r off (rows : Storage) :
  off <= length r ->
  take (length rows) (drop off (write_slots r off rows)) = rows.
Proof.
  intros Hoff. unfold write_slots.
  rewrite drop_app_length' by (rewrite length_take; lia).
  by rewrite take_app_length.
Qed.

Lemma write_slots_replicate_0 n (rows : Storage) :
  length rows <= n ->
  write_slots (replicate n None) 0 rows = rows ++ replicate (n - length rows) None.
Proof.
  intros Hle. unfold write_slots. simpl.
  by rewrite drop_replicate.
Qed.

(** The region an extension builds: the old rows copied in, then the new
    rows appended. *)
Lemma grown_region r (new : list Row) len n :
  len <= length r -> len + length new <= n ->
  let region := write_slots (write_slots (replicate n None) 0 (take len r)) len (Some <$> new) in
  length region = n /\ take len region = take len r.
Proof.
  intros Hold Hfit region.
  assert (length (write_slots (replicate n None) 0 (take len r)) = n) as Hin.
  { rewrite length_write_slots; rewrite ?length_take, ?length_replicate; lia. }
  split.
  - unfold region. rewrite length_write_slots; [done |].
    rewrite Hin, length_fmap. lia.
  - unfold region. rewrite take_write_slots by lia.
    rewrite write_slots_replicate_0 by (rewrite length_take; lia).
    rewrite take_app_le by (rewrite length_take; lia).
    rewrite take_take. f_equal. lia.
Qed.

(** *** The monad *)

Lemma bind_ok {A B : Type} (c : M Row A) (f : A -> M Row B) m a m1 :
  c m = (OK a, m1) -> bind c f m = f a m1.
Proof. intros Hc. unfold bind. by rewrite Hc. Qed.

Lemma bind_err {A B : Type} (c : M Row A) (f : A -> M Row B) m e m1 :
  c m = (Err e, m1) -> bind c f m = (Err e, m1).
Proof. intros Hc. unfold bind. by rewrite Hc. Qed.

Lemma bind_inv {A B : Type} (c : M Row A) (f : A -> M Row B) m res m2 :
  bind c f m = (res, m2) ->
  (exists a m1, c m = (OK a, m1) /\ f a m1 = (res, m2)) \/
  (exists e, c m = (Err e, m2) /\ res = Err e).
Proof.
  unfold bind. destruct (c m) as [[a|e] m1]; intros H.
  - left. eauto.
  - right. exists e. by inversion H.
Qed.

(** *** The operations, when they succeed *)

Lemma torch_empty_ok n m :
  n <= free_slots m ->
  torch_empty n m =
    (OK (length (regions m)),
     mkMem (regions m ++ [replicate n None]) (free_slots m - n)).
Proof.
  intros Hle. unfold torch_empty.
  by rewrite (proj2 (Nat.leb_le _ _) Hle).
Qed.

Lemma torch_empty_fail n m :
  free_slots m < n -> torch_empty n m = (Err AllocationFailure, m).
Proof.
  intros Hlt. unfold torch_empty.
  by rewrite (proj2 (Nat.leb_gt _ _) Hlt).
Qed.

Lemma init_kv_cache_ok cur max m :
  cur <= max -> 2 * max <= free_slots m ->
  init_kv_cache head_dim cur max m =
    (OK (mkTensor (length (regions m)) cur (max * head_dim),
         mkTensor (S (length (regions m))) cur (max * head_dim)),
     mkMem (regions m ++ [replicate max None; replicate max None])
           (free_slots m - 2 * max)).
Proof.
  intros Hle Hfree. unfold init_kv_cache.
  rewrite (proj2 (Nat.ltb_ge _ _) Hle).
  erewrite bind_ok by (apply torch_empty_ok; lia).
  erewrite bind_ok by (apply torch_empty_ok; simpl; lia).
  unfold ret. cbn [regions free_slots].
  rewrite length_app, <- app_assoc. cbn [length app].
  replace (free_slots m - max - max) with (free_slots m - 2 * max) by lia.
  replace (length (regions m) + 1) with (S (length (regions m))) by lia.
  reflexivity.
Qed.

Lemma get_region_ok p m r :
  regions m !! p = Some r -> get_region p m = (OK r, m).
Proof. intros H. unfold get_region. by rewrite H. Qed.

Lemma broadcast_same (rows : Storage) n :
  length rows = n -> broadcast rows n = rows.
Proof. destruct rows as [|row [|]]; intros <-; reflexivity. Qed.

Lemma setitem_all_ok dst (rows : Storage) m r :
  regions m !! data_ptr dst = Some r ->
  length rows = size2 dst -> size2 dst <= length r ->
  setitem_all dst rows m =
    (OK tt, mkMem (<[data_ptr dst := write_slots r 0 rows]> (regions m)) (free_slots m)).
Proof.
  intros Hr Hlen Hcap. unfold setitem_all.
  rewrite (broadcast_same rows (size2 dst) Hlen).
  rewrite (proj2 (Nat.eqb_eq _ _) Hlen). simpl.
  erewrite bind_ok by (by apply get_region_ok).
  by rewrite (proj2 (Nat.ltb_ge _ _) Hcap).
Qed.

Lemma copy_view_ok dst src m rs rd :
  regions m !! data_ptr src = Some rs ->
  regions m !! data_ptr dst = Some rd ->
  size2 src = size2 dst -> size2 src <= length rs -> size2 dst <= length rd ->
  copy_view dst src m =
    (OK tt, mkMem (<[data_ptr dst := write_slots rd 0 (take (size2 src) rs)]> (regions m))
                  (free_slots m)).
Proof.
  intros Hs Hd Heq Hls Hld. unfold copy_view.
  erewrite bind_ok by (by apply get_region_ok).
  apply setitem_all_ok; [done | rewrite length_take; lia | done].
Qed.

Lemma append_ok cache (new_rows : list Row) m r :
  regions m !! data_ptr cache = Some r ->
  size2 cache + length new_rows <= length r ->
  append cache new_rows m =
    (OK (mkTensor (data_ptr cache) (size2 cache + length new_rows) (stride1 cache)),
     mkMem (<[data_ptr cache := write_slots r (size2 cache) (Some <$> new_rows)]> (regions m))
           (free_slots m)).
Proof.
  intros Hr Hcap. unfold append.
  erewrite bind_ok by (by apply get_region_ok).
  by rewrite (proj2 (Nat.ltb_ge _ _) Hcap).
Qed.

Lemma append_full cache (new_rows : list Row) m r :
  regions m !! data_ptr cache = Some r ->
  length r < size2 cache + length new_rows ->
  append cache new_rows m = (Err CapacityExceeded, m).
Proof.
  intros Hr Hcap. unfold append.
  erewrite bind_ok by (by apply get_region_ok).
  by rewrite (proj2 (Nat.ltb_lt _ _) Hcap).
Qed.

(** *** Two regions allocated at the end of memory *)

Lemma lookup_fst_new {A : Type} (l : list A) a b : (l ++ [a; b]) !! length l = Some a.
Proof. by rewrite list_lookup_middle. Qed.

Lemma lookup_snd_new {A : Type} (l : list A) a b : (l ++ [a; b]) !! S (length l) = Some b.
Proof.
  rewrite lookup_app_r by lia.
  by replace (S (length l) - length l) with 1 by lia.
Qed.

Lemma insert_fst_new {A : Type} (l : list A) a b x :
  <[length l := x]> (l ++ [a; b]) = l ++ [x; b].
Proof.
  rewrite insert_app_r_alt by lia.
  by replace (length l - length l) with 0 by lia.
Qed.

Lemma insert_snd_new {A : Type} (l : list A) a b x :
  <[S (length l) := x]> (l ++ [a; b]) = l ++ [a; x].
Proof.
  rewrite insert_app_r_alt by lia.
  by replace (S (length l) - length l) with 1 by lia.
Qed.

Lemma lookup_old {A : Type} (l : list A) a b p x :
  l !! p = Some x -> (l ++ [a; b]) !! p = Some x.
Proof. intros H. rewrite lookup_app_l; [done | by eapply lookup_lt_Some]. Qed.

(** *** The three ways through the cache code *)

Lemma forward_first_step which m (fused_qkv : list (Row * Row)) :
  let q := length fused_qkv in
  let n := q + KV_CACHE_ALLOC_BLOCK_LENGTH in
  2 * n <= free_slots m ->
  attention_forward head_dim which None true fused_qkv m =
    (OK (View (fresh_k head_dim m q n), View (fresh_v head_dim m q n),
         Some (View (fresh_k head_dim m q n), View (fresh_v head_dim m q n))),
     mkMem (regions m ++ [write_slots (replicate n None) 0 (Some <$> fused_qkv.*1);
                          write_slots (replicate n None) 0 (Some <$> fused_qkv.*2)])
           (free_slots m - 2 * n)).
Proof.
  intros q n Hfree.
  assert (attention_forward head_dim which None true fused_qkv m =
          attention_forward_kv head_dim None true fused_qkv m) as ->
    by (by destruct which).
  unfold attention_forward_kv, split_heads.
  rewrite !length_fmap. fold q n.
  erewrite bind_ok.
  2:{ erewrite bind_ok by (apply init_kv_cache_ok; lia).
      cbv beta iota.
      erewrite bind_ok.
      2:{ eapply setitem_all_ok; cbn [regions data_ptr size2].
          - apply lookup_fst_new.
          - by rewrite !length_fmap.
          - rewrite length_replicate. lia. }
      cbn [regions free_slots data_ptr]. rewrite insert_fst_new.
      erewrite bind_ok.
      2:{ eapply setitem_all_ok; cbn [regions data_ptr size2].
          - apply lookup_snd_new.
          - by rewrite !length_fmap.
          - rewrite length_replicate. lia. }
      cbn [regions free_slots data_ptr]. rewrite insert_snd_new.
      reflexivity. }
  reflexivity.
Qed.

Lemma forward_grow which m cache_k cache_v use_cache (fused_qkv : list (Row * Row)) rk rv :
  let q := length fused_qkv in
  let len := size2 cache_k in
  let n := q + len + KV_CACHE_ALLOC_BLOCK_LENGTH in
  regions m !! data_ptr cache_k = Some rk ->
  regions m !! data_ptr cache_v = Some rv ->
  len <= length rk -> size2 cache_v = len -> len <= length rv ->
  cache_is_full head_dim cache_k = true ->
  2 * n <= free_slots m ->
  attention_forward head_dim which (Some (cache_k, cache_v)) use_cache fused_qkv m =
    (OK (View (fresh_k head_dim m (len + q) n), View (fresh_v head_dim m (len + q) n),
         present_of use_cache (fresh_k head_dim m (len + q) n) (fresh_v head_dim m (len + q) n)),
     mkMem (regions m ++
              [write_slots (write_slots (replicate n None) 0 (take len rk)) len
                           (Some <$> fused_qkv.*1);
               write_slots (write_slots (replicate n None) 0 (take len rv)) len
                           (Some <$> fused_qkv.*2)])
           (free_slots m - 2 * n)).
Proof.
  intros q len n Hk Hv Hlk Hsv Hlv Hfull Hfree.
  assert (attention_forward head_dim which (Some (cache_k, cache_v)) use_cache fused_qkv m =
          attention_forward_kv head_dim (Some (cache_k, cache_v)) use_cache fused_qkv m) as ->
    by (by destruct which).
  unfold attention_forward_kv, split_heads.
  rewrite !length_fmap, Hfull. fold q len n.
  erewrite bind_ok; cycle 1.
  erewrite bind_ok.
  2:{ erewrite bind_ok by (apply init_kv_cache_ok; lia).
      cbv beta iota.
      erewrite bind_ok.
      2:{ eapply copy_view_ok; cbn [regions data_ptr size2].
          - by apply lookup_old.
          - apply lookup_fst_new.
          - done.
          - done.
          - rewrite length_replicate. lia. }
      cbn [regions free_slots data_ptr]. rewrite insert_fst_new.
      erewrite bind_ok.
      2:{ eapply copy_view_ok; cbn [regions data_ptr size2].
          - by apply lookup_old.
          - apply lookup_snd_new.
          - done.
          - lia.
          - rewrite length_replicate. lia. }
      cbn [regions free_slots data_ptr]. rewrite insert_snd_new.
      reflexivity. }
  cbv beta iota. rewrite Hsv. fold len.
  erewrite bind_ok.
  2:{ unfold append_kv_cache.
      erewrite bind_ok.
      2:{ eapply append_ok; cbn [regions data_ptr size2].
          - apply lookup_fst_new.
          - rewrite length_write_slots; rewrite ?length_take, ?length_replicate, ?length_fmap;
              fold q; lia. }
      cbn [regions free_slots data_ptr size2 stride1]. rewrite insert_fst_new.
      erewrite bind_ok.
      2:{ eapply append_ok; cbn [regions data_ptr size2].
          - apply lookup_snd_new.
          - rewrite length_write_slots; rewrite ?length_take, ?length_replicate, ?length_fmap;
              fold q; lia. }
      cbn [regions free_slots data_ptr size2 stride1]. rewrite insert_snd_new.
      rewrite !length_fmap. fold q. reflexivity. }
  reflexivity.
  unfold ret, present_of, fresh_k, fresh_v. by destruct use_cache.
Qed.

Lemma forward_in_place which m cache_k cache_v use_cache (fused_qkv : list (Row * Row)) rk rv :
  let q := length fused_qkv in
  regions m !! data_ptr cache_k = Some rk ->
  regions m !! data_ptr cache_v = Some rv ->
  data_ptr cache_k <> data_ptr cache_v ->
  size2 cache_k + q <= length rk ->
  size2 cache_v + q <= length rv ->
  cache_is_full head_dim cache_k = false ->
  let k' := mkTensor (data_ptr cache_k) (size2 cache_k + q) (stride1 cache_k) in
  let v' := mkTensor (data_ptr cache_v) (size2 cache_v + q) (stride1 cache_v) in
  attention_forward head_dim which (Some (cache_k, cache_v)) use_cache fused_qkv m =
    (OK (View k', View v', present_of use_cache k' v'),
     mkMem (<[data_ptr cache_v := write_slots rv (size2 cache_v) (Some <$> fused_qkv.*2)]>
              (<[data_ptr cache_k := write_slots rk (size2 cache_k) (Some <$> fused_qkv.*1)]>
                 (regions m)))
           (free_slots m)).
Proof.
  intros q Hk Hv Hne Hlk Hlv Hfull k' v'.
  assert (attention_forward head_dim which (Some (cache_k, cache_v)) use_cache fused_qkv m =
          attention_forward_kv head_dim (Some (cache_k, cache_v)) use_cache fused_qkv m) as ->
    by (by destruct which).
  unfold attention_forward_kv, split_heads.
  rewrite Hfull.
  erewrite bind_ok; cycle 1.
  erewrite bind_ok by reflexivity.
  cbv beta iota.
  erewrite bind_ok.
  2:{ unfold append_kv_cache.
      erewrite bind_ok.
      2:{ eapply append_ok; [exact Hk | rewrite length_fmap; fold q; lia]. }
      erewrite bind_ok.
      2:{ eapply append_ok; cbn [regions].
          - rewrite list_lookup_insert_ne by done. exact Hv.
          - rewrite length_fmap. fold q. lia. }
      cbn [regions free_slots]. rewrite !length_fmap. fold q. reflexivity. }
  reflexivity.
  unfold ret, present_of. by destruct use_cache.
Qed.

(** *** What each operation leaves alone, whatever its outcome *)

Lemma same_region_read p m m' t :
  same_region p m m' -> data_ptr t = p -> read m' t = read m t.
Proof. unfold same_region, read. intros H <-. by rewrite H. Qed.

Lemma torch_empty_inv n m (res : Result nat) m' :
  torch_empty n m = (res, m') ->
  (forall p, p < length (regions m) -> same_region p m m') /\
  length (regions m) <= length (regions m') /\
  (forall a, res = OK a -> a = length (regions m) /\
                          length (regions m') = S (length (regions m))).
Proof.
  unfold torch_empty, same_region. destruct (n <=? free_slots m); intros [= <- <-].
  - cbn [regions]. rewrite length_app. cbn [length]. split_and!.
    + intros p Hp. by rewrite lookup_app_l.
    + lia.
    + intros a [= <-]. split; [done | lia].
  - split_and!; try done.
Qed.

Lemma init_kv_cache_inv cur max m res m' :
  init_kv_cache head_dim cur max m = (res, m') ->
  (forall p, p < length (regions m) -> same_region p m m') /\
  length (regions m) <= length (regions m') /\
  (forall k v, res = OK (k, v) ->
     data_ptr k = length (regions m) /\ data_ptr v = S (length (regions m)) /\
     size2 k = cur /\ size2 v = cur /\
     length (regions m') = length (regions m) + 2).
Proof.
  unfold init_kv_cache. destruct (max <? cur).
  { intros [= <- <-]. by split_and!. }
  intros H.
  apply bind_inv in H as [(a & m1 & Ha & H) | (e & Ha & ->)].
  2:{ apply torch_empty_inv in Ha as (Hf & Hl & _). by split_and!. }
  apply torch_empty_inv in Ha as (Hf1 & Hl1 & Ha1).
  destruct (Ha1 a eq_refl) as [-> Hlen1].
  assert (forall m2, (forall p, p < length (regions m1) -> same_region p m1 m2) ->
                     forall p, p < length (regions m) -> same_region p m m2) as Htrans.
  { intros m2 Hf2 p Hp. unfold same_region in *. rewrite Hf2 by lia. by apply Hf1. }
  apply bind_inv in H as [(b & m2 & Hb & H) | (e & Hb & ->)].
  - apply torch_empty_inv in Hb as (Hf2 & Hl2 & Hb2).
    destruct (Hb2 b eq_refl) as [-> Hlen2].
    injection H as <- <-. split_and!.
    + by apply Htrans.
    + lia.
    + intros k v [= <- <-]. cbn. split_and!; try done; lia.
  - apply torch_empty_inv in Hb as (Hf2 & Hl2 & _). split_and!.
    + by apply Htrans.
    + lia.
    + done.
Qed.

Lemma set_region_inv p r m (res : Result unit) m' :
  set_region p r m = (res, m') ->
  (forall p', p' <> p -> same_region p' m m') /\
  length (regions m') = length (regions m).
Proof.
  unfold set_region, same_region. intros [= <- <-]. cbn [regions]. split.
  - intros p' Hne. by rewrite list_lookup_insert_ne.
  - apply length_insert.
Qed.

Lemma get_region_inv p m res m' :
  get_region p m = (res, m') -> m' = m.
Proof. unfold get_region. by destruct (regions m !! p); intros [= <- <-]. Qed.

Lemma setitem_all_inv dst (rows : Storage) m res m' :
  setitem_all dst rows m = (res, m') ->
  (forall p, p <> data_ptr dst -> same_region p m m') /\
  length (regions m') = length (regions m).
Proof.
  unfold setitem_all. cbv zeta. destruct (negb _).
  { by intros [= <- <-]. }
  intros H. apply bind_inv in H as [(r & m1 & Hr & H) | (e & Hr & ->)].
  - apply get_region_inv in Hr as ->.
    destruct (length r <? size2 dst).
    + by injection H as <- <-.
    + by apply set_region_inv in H.
  - by apply get_region_inv in Hr as ->.
Qed.

Lemma copy_view_inv dst src m res m' :
  copy_view dst src m = (res, m') ->
  (forall p, p <> data_ptr dst -> same_region p m m') /\
  length (regions m') = length (regions m).
Proof.
  unfold copy_view. intros H.
  apply bind_inv in H as [(r & m1 & Hr & H) | (e & Hr & ->)].
  - apply get_region_inv in Hr as ->. by apply setitem_all_inv in H.
  - by apply get_region_inv in Hr as ->.
Qed.

Lemma append_inv cache (new_rows : list Row) m res m' :
  append cache new_rows m = (res, m') ->
  (forall p, p <> data_ptr cache -> same_region p m m') /\
  length (regions m') = length (regions m) /\
  (forall t, data_ptr t = data_ptr cache -> size2 t <= size2 cache ->
             read m' t = read m t) /\
  (forall t', res = OK t' ->
     data_ptr t' = data_ptr cache /\ size2 t' = size2 cache + length new_rows /\
     stride1 t' = stride1 cache).
Proof.
  unfold append. intros H.
  apply bind_inv in H as [(r & m1 & Hr & H) | (e & Hr & ->)].
  2:{ apply get_region_inv in Hr as ->. by split_and!. }
  pose proof Hr as Hm. apply get_region_inv in Hm as ->.
  unfold get_region in Hr. destruct (regions m !! data_ptr cache) as [r0|] eqn:Hlk; [|done].
  injection Hr as ->.
  destruct (length r <? size2 cache + length new_rows) eqn:Hcap.
  { injection H as <- <-. by split_and!. }
  apply Nat.ltb_ge in Hcap.
  apply bind_inv in H as [([] & m2 & Hs & H) | (e & Hs & ->)].
  2:{ unfold set_region in Hs. done. }
  injection H as <- <-.
  pose proof Hs as Hs'. apply set_region_inv in Hs' as [Hf Hl].
  split_and!; try done.
  - intros t Hp Hsz. unfold read. rewrite Hp.
    unfold set_region in Hs. injection Hs as <-. cbn [regions].
    rewrite list_lookup_insert_eq by (by eapply lookup_lt_Some).
    rewrite Hlk. cbn. f_equal. apply take_write_slots; lia.
  - by intros t' [= <-].
Qed.

Lemma append_kv_cache_inv cache_k cache_v (ks vs : list Row) m res m' :
  append_kv_cache cache_k cache_v ks vs m = (res, m') ->
  (forall p, p <> data_ptr cache_k -> p <> data_ptr cache_v -> same_region p m m') /\
  length (regions m') = length (regions m) /\
  (forall t, (data_ptr t = data_ptr cache_k \/ data_ptr t = data_ptr cache_v) ->
             size2 t <= size2 cache_k -> size2 t <= size2 cache_v ->
             read m' t = read m t) /\
  (forall k v, res = OK (k, v) ->
     data_ptr k = data_ptr cache_k /\ data_ptr v = data_ptr cache_v /\
     size2 k = size2 cache_k + length ks /\ size2 v = size2 cache_v + length vs /\
     stride1 k = stride1 cache_k).
Proof.
  unfold append_kv_cache. intros H.
  apply bind_inv in H as [(k1 & m1 & Hk & H) | (e & Hk & ->)].
  2:{ apply append_inv in Hk as (Hfk & Hlk & Hrk & _). split_and!; try done.
      - intros p Hnk _. by apply Hfk.
      - intros t Hp Hsk' Hsv'.
        destruct (decide (data_ptr t = data_ptr cache_k)) as [Hek|Hnk].
        + by apply Hrk.
        + eapply same_region_read; [by apply Hfk | done]. }
  apply append_inv in Hk as (Hfk & Hlk & Hrk & Hok).
  destruct (Hok k1 eq_refl) as (Hpk & Hsk & Hstk).
  assert (exists out m2, append cache_v vs m1 = (out, m2) /\ m' = m2 /\
            (forall k v, res = OK (k, v) -> out = OK v /\ k = k1)) as (out & m2 & Hv & -> & Hres).
  { apply bind_inv in H as [(v1 & m2 & Hv & H) | (e & Hv & ->)].
    - injection H as <- <-. exists (OK v1), m2. split_and!; try done.
      by intros k v [= <- <-].
    - exists (Err e), m'. by split_and!. }
  clear H. apply append_inv in Hv as (Hfv & Hlv & Hrv & Hov).
  split_and!.
  - intros p Hnk Hnv. unfold same_region in *. rewrite Hfv by done. by apply Hfk.
  - lia.
  - intros t Hp Hsk' Hsv'.
    destruct (decide (data_ptr t = data_ptr cache_v)) as [Hev|Hnv].
    + rewrite Hrv by done.
      destruct (decide (data_ptr t = data_ptr cache_k)) as [Hek|Hnk].
      * by apply Hrk.
      * eapply same_region_read; [by apply Hfk | done].
    + rewrite (same_region_read (data_ptr t) m1 m2) by (by try apply Hfv).
      destruct Hp as [Hek|?]; [by apply Hrk | done].
  - intros k v Hkv. destruct (Hres k v Hkv) as [-> ->].
    destruct (Hov v eq_refl) as (Hpv & Hsv & _). by split_and!.
Qed.

(** *** The forward pass, whatever its outcome *)

Lemma forward_unfold which layer_past use_cache (fused_qkv : list (Row * Row)) m :
  attention_forward head_dim which layer_past use_cache fused_qkv m =
  attention_forward_kv head_dim layer_past use_cache fused_qkv m.
Proof. by destruct which. Qed.

(** The extension of lines 100-114: allocate, copy the keys, copy the
    values. Nothing below the old end of memory is written. *)
Lemma extend_and_copy_inv cache_k cache_v n m (res : Result (Tensor * Tensor)) m' :
  bind (extend_kv_cache head_dim (size2 cache_k) n)
       (fun '(new_cache_k, new_cache_v) =>
          bind (copy_view new_cache_k cache_k)
               (fun _ => bind (copy_view new_cache_v cache_v)
                              (fun _ => ret (new_cache_k, new_cache_v)))) m = (res, m') ->
  (forall p, p < length (regions m) -> same_region p m m') /\
  length (regions m) <= length (regions m') /\
  (forall k v, res = OK (k, v) ->
     data_ptr k = length (regions m) /\ data_ptr v = S (length (regions m)) /\
     size2 k = size2 cache_k /\ size2 v = size2 cache_k).
Proof.
  intros H.
  apply bind_inv in H as [([nk nv] & m1 & Hi & H) | (e & Hi & ->)].
  2:{ apply init_kv_cache_inv in Hi as (Hf & Hl & _). by split_and!. }
  apply init_kv_cache_inv in Hi as (Hf1 & Hl1 & Hok).
  destruct (Hok nk nv eq_refl) as (Hpk & Hpv & Hsk & Hsv & Hlen).
  assert (forall ma mb, (forall p, p < length (regions m) -> same_region p m ma) ->
            (forall p, p <> data_ptr nk -> p <> data_ptr nv -> same_region p ma mb) ->
            forall p, p < length (regions m) -> same_region p m mb) as Htrans.
  { intros ma mb Ha Hb p Hp. unfold same_region in *.
    rewrite Hb by lia. by apply Ha. }
  apply bind_inv in H as [([] & m2 & Hc1 & H) | (e & Hc1 & ->)].
  2:{ apply copy_view_inv in Hc1 as (Hf2 & Hl2). split_and!; try done; [|lia].
      apply (Htrans m1); [done|]. intros p Hn _. by apply Hf2. }
  apply copy_view_inv in Hc1 as (Hf2 & Hl2).
  assert (forall p, p < length (regions m) -> same_region p m m2) as Hf12.
  { apply (Htrans m1); [done|]. intros p Hn _. by apply Hf2. }
  apply bind_inv in H as [([] & m3 & Hc2 & H) | (e & Hc2 & ->)].
  2:{ apply copy_view_inv in Hc2 as (Hf3 & Hl3). split_and!; try done; [|lia].
      apply (Htrans m2); [done|]. intros p _ Hn. by apply Hf3. }
  apply copy_view_inv in Hc2 as (Hf3 & Hl3).
  injection H as <- <-. split_and!.
  - apply (Htrans m2); [done|]. intros p _ Hn. by apply Hf3.
  - lia.
  - by intros k v [= <- <-].
Qed.

Lemma forward_cached_inv which cache_k cache_v use_cache (fused_qkv : list (Row * Row))
    m res m' :
  attention_forward head_dim which (Some (cache_k, cache_v)) use_cache fused_qkv m
    = (res, m') ->
  (cache_is_full head_dim cache_k = true ->
   forall p, p < length (regions m) -> same_region p m m') /\
  (data_ptr cache_k < length (regions m) -> data_ptr cache_v < length (regions m) ->
   forall t, (data_ptr t = data_ptr cache_k \/ data_ptr t = data_ptr cache_v) ->
             size2 t <= size2 cache_k -> size2 t <= size2 cache_v ->
             read m' t = read m t) /\
  (forall kl vl present, res = OK (kl, vl, present) ->
     exists k v, kl = View k /\ vl = View v /\ present = present_of use_cache k v /\
       size2 k = size2 cache_k + length fused_qkv /\
       size2 v = (if cache_is_full head_dim cache_k then size2 cache_k else size2 cache_v)
                 + length fused_qkv).
Proof.
  rewrite forward_unfold. unfold attention_forward_kv, split_heads. intros H.
  apply bind_inv in H as [([kl0 vl0] & m3 & H & Hret) | (e & H & ->)].
  - (* the cache code went through *)
    injection Hret as <- <-.
    apply bind_inv in H as [([k1 v1] & m1 & Hg & H) | (e & Hg & [=])].
    apply bind_inv in H as [([k2 v2] & m2 & Ha & H) | (e & Ha & [=])].
    injection H as <- <- <-.
    apply append_kv_cache_inv in Ha as (Hfa & Hla & Hra & Hoa).
    destruct (Hoa k2 v2 eq_refl) as (Hpk & Hpv & Hsk & Hsv & _).
    rewrite !length_fmap in *.
    destruct (cache_is_full head_dim cache_k) eqn:Hfull.
    + apply extend_and_copy_inv in Hg as (Hfg & Hlg & Hog).
      destruct (Hog k1 v1 eq_refl) as (Hp1 & Hp2 & Hs1 & Hs2).
      assert (forall p, p < length (regions m) -> same_region p m m2) as Hframe.
      { intros p Hp. unfold same_region in *. rewrite Hfa by lia. by apply Hfg. }
      split_and!.
      * done.
      * intros Hlk Hlv t Hp _ _. destruct Hp as [Hp|Hp];
          (apply (same_region_read (data_ptr t)); [apply Hframe; lia | done]).
      * intros kl vl present [= <- <- <-]. exists k2, v2.
        split_and!; first [done | lia | by destruct use_cache].
    + injection Hg as <- <- <-. split_and!.
      * done.
      * intros _ _ t Hp Hk Hv. by apply Hra.
      * intros kl vl present [= <- <- <-]. exists k2, v2.
        split_and!; first [done | lia | by destruct use_cache].
  - (* the cache code raised *)
    apply bind_inv in H as [([k1 v1] & m1 & Hg & H) | (e1 & Hg & [= ->])].
    + apply bind_inv in H as [([k2 v2] & m2 & Ha & [=]) | (e2 & Ha & [= ->])].
      apply append_kv_cache_inv in Ha as (Hfa & Hla & Hra & _).
      destruct (cache_is_full head_dim cache_k) eqn:Hfull.
      * apply extend_and_copy_inv in Hg as (Hfg & Hlg & Hog).
        destruct (Hog k1 v1 eq_refl) as (Hp1 & Hp2 & Hs1 & Hs2).
        assert (forall p, p < length (regions m) -> same_region p m m') as Hframe.
        { intros p Hp. unfold same_region in *. rewrite Hfa by lia. by apply Hfg. }
        split_and!; try done.
        all: intros Hlk Hlv t Hp _ _; destruct Hp as [Hp|Hp];
          (apply (same_region_read (data_ptr t)); [apply Hframe; lia | done]).
      * injection Hg as <- <- <-. split_and!; try done.
        all: intros _ _ t Hp Hk Hv; by apply Hra.
    + destruct (cache_is_full head_dim cache_k) eqn:Hfull; [|done].
      apply extend_and_copy_inv in Hg as (Hfg & Hlg & _).
      split_and!; try done.
      all: intros Hlk Hlv t Hp _ _; destruct Hp as [Hp|Hp];
        (apply (same_region_read (data_ptr t)); [apply Hfg; lia | done]).
Qed.

Lemma forward_first_inv which (fused_qkv : list (Row * Row)) m kl vl present m' :
  attention_forward head_dim which None true fused_qkv m = (OK (kl, vl, present), m') ->
  exists k v, kl = View k /\ vl = View v /\ present = Some (View k, View v) /\
    size2 k = length fused_qkv /\ size2 v = length fused_qkv.
Proof.
  rewrite forward_unfold. unfold attention_forward_kv, split_heads. intros H.
  apply bind_inv in H as [([kl0 vl0] & m3 & H & Hret) | (e & H & [=])].
  injection Hret as <- <- <- <-.
  apply bind_inv in H as [([k1 v1] & m1 & Hi & H) | (e & Hi & [=])].
  apply init_kv_cache_inv in Hi as (_ & _ & Hok).
  destruct (Hok k1 v1 eq_refl) as (_ & _ & Hsk & Hsv & _).
  apply bind_inv in H as [([] & m2 & _ & H) | (e & _ & [=])].
  apply bind_inv in H as [([] & m4 & _ & H) | (e & _ & [=])].
  injection H as <- <- <-.
  rewrite length_fmap in Hsk, Hsv. exists k1, v1. by split_and!.
Qed.

(** *** The claims about the forward pass *)

(** C5. Growth preserves data. When the probe sends a forward pass with a
    past cache through the extension, and memory for the two new regions is
    there, the pass succeeds, the first [L] rows that the new key view and
    the new value view show are the rows the old views showed, slot for
    slot, and each new region has exactly the requested capacity
    [kv_length + KV_CACHE_ALLOC_BLOCK_LENGTH]. *)
Theorem growth_preserves_data which m cache_k cache_v use_cache
    (fused_qkv : list (Row * Row)) rk rv :
  let len := size2 cache_k in
  let requested := length fused_qkv + len + KV_CACHE_ALLOC_BLOCK_LENGTH in
  regions m !! data_ptr cache_k = Some rk ->
  regions m !! data_ptr cache_v = Some rv ->
  len <= length rk -> size2 cache_v = len -> len <= length rv ->
  cache_is_full head_dim cache_k = true ->
  2 * requested <= free_slots m ->
  exists k' v' m',
    attention_forward head_dim which (Some (cache_k, cache_v)) use_cache fused_qkv m
      = (OK (View k', View v', if use_cache then Some (View k', View v') else None), m') /\
    take len <$> read m' k' = read m cache_k /\
    take len <$> read m' v' = read m cache_v /\
    capacity m' k' = Some requested /\
    capacity m' v' = Some requested /\
    size2 k' = len + length fused_qkv /\ size2 v' = len + length fused_qkv.
Proof.
  intros len requested Hk Hv Hlk Hsv Hlv Hfull Hfree.
  pose proof (forward_grow which m cache_k cache_v use_cache fused_qkv rk rv
                Hk Hv Hlk Hsv Hlv Hfull Hfree) as Hrun.
  fold len requested in Hrun.
  eexists _, _, _. split; [exact Hrun |].
  destruct (grown_region rk fused_qkv.*1 len requested) as [Hk2 Hk1];
    [done | rewrite length_fmap; unfold requested; lia |].
  destruct (grown_region rv fused_qkv.*2 len requested) as [Hv2 Hv1];
    [done | rewrite length_fmap; unfold requested; lia |].
  unfold read, capacity, fresh_k, fresh_v. cbn [regions data_ptr size2].
  rewrite lookup_fst_new, lookup_snd_new, Hk, Hv, Hsv. cbn [fmap option_fmap option_map].
  fold len. rewrite !take_take, !Nat.min_l by lia.
  rewrite Hk1, Hk2, Hv1, Hv2. by split_and!.
Qed.

(** C7. Extension is atomic. Whatever the outcome of a forward pass that
    goes through the extension (success, out of memory at either
    allocation, a copy that fails, a failing append), every region that was
    allocated before the call is exactly as it was: the new regions alone
    are written, and [layer_past] keeps its storage. On either path, when
    key and value of [layer_past] have one length, what the two views of
    [layer_past] show is unchanged too. *)
Theorem growth_is_atomic which m cache_k cache_v use_cache
    (fused_qkv : list (Row * Row)) res m' :
  data_ptr cache_k < length (regions m) ->
  data_ptr cache_v < length (regions m) ->
  attention_forward head_dim which (Some (cache_k, cache_v)) use_cache fused_qkv m
    = (res, m') ->
  (cache_is_full head_dim cache_k = true ->
     regions m' !! data_ptr cache_k = regions m !! data_ptr cache_k /\
     regions m' !! data_ptr cache_v = regions m !! data_ptr cache_v /\
     read m' cache_k = read m cache_k /\
     read m' cache_v = read m cache_v) /\
  (size2 cache_v = size2 cache_k ->
     read m' cache_k = read m cache_k /\ read m' cache_v = read m cache_v).
Proof.
  intros Hpk Hpv Hrun.
  apply forward_cached_inv in Hrun as (Hgrow & Hview & _).
  split.
  - intros Hfull. specialize (Hgrow Hfull).
    pose proof (Hgrow _ Hpk) as Hk. pose proof (Hgrow _ Hpv) as Hv.
    split_and!; try done.
    + by apply (same_region_read (data_ptr cache_k)).
    + by apply (same_region_read (data_ptr cache_v)).
  - intros Hsz. split.
    + apply Hview; [done | done | by left | lia | lia].
    + apply Hview; [done | done | by right | lia | lia].
Qed.

(** C10. Key and value stay in lockstep. With [use_cache] true, whenever
    a forward pass returns, its [present] is a pair of cache views of one
    length, the past length plus the number of new positions; the past pair
    is assumed in lockstep as well. *)
Theorem present_in_lockstep which layer_past (fused_qkv : list (Row * Row))
    m kl vl present m' :
  (forall cache_k cache_v, layer_past = Some (cache_k, cache_v) ->
                           size2 cache_v = size2 cache_k) ->
  attention_forward head_dim which layer_past true fused_qkv m
    = (OK (kl, vl, present), m') ->
  exists k v, present = Some (View k, View v) /\ kl = View k /\ vl = View v /\
    size2 k = past_length layer_past + length fused_qkv /\
    size2 v = past_length layer_past + length fused_qkv.
Proof.
  intros Hpast Hrun. destruct layer_past as [[cache_k cache_v]|].
  - apply forward_cached_inv in Hrun as (_ & _ & Hok).
    destruct (Hok kl vl present eq_refl) as (k & v & -> & -> & -> & Hk & Hv).
    exists k, v. rewrite (Hpast cache_k cache_v eq_refl) in Hv.
    cbn [past_length present_of]. split_and!; try done.
    by destruct (cache_is_full head_dim cache_k).
  - apply forward_first_inv in Hrun as (k & v & -> & -> & -> & Hk & Hv).
    exists k, v. by split_and!.
Qed.

(** *** The probe, read as a comparison of capacity and length *)

Lemma cache_is_full_iff t cap :
  0 < head_dim -> stride1 t = cap * head_dim ->
  cache_is_full head_dim t = true <-> cap <= size2 t.
Proof.
  intros Hd Hs. unfold cache_is_full. rewrite Hs, Nat.leb_le. nia.
Qed.

Lemma cache_is_full_single_token t cap :
  0 < head_dim -> stride1 t = cap * head_dim -> size2 t <= cap ->
  cache_is_full head_dim t = true <-> cap < size2 t + 1.
Proof. intros Hd Hs Hle. rewrite (cache_is_full_iff t cap) by done. lia. Qed.

(** *** The two ways a forward pass on a sound cache fails *)

Lemma init_kv_cache_oom cur max m :
  cur <= max -> free_slots m < 2 * max ->
  exists m', init_kv_cache (Row:=Row) head_dim cur max m = (Err AllocationFailure, m').
Proof.
  intros Hle Hfree. unfold init_kv_cache.
  rewrite (proj2 (Nat.ltb_ge _ _) Hle).
  destruct (le_lt_dec max (free_slots m)) as [Hfit|Hno].
  - erewrite bind_ok by (by apply torch_empty_ok).
    erewrite bind_err by (apply torch_empty_fail; simpl; lia). eauto.
  - erewrite bind_err by (by apply torch_empty_fail). eauto.
Qed.

Lemma forward_grow_oom which m cache_k cache_v use_cache (fused_qkv : list (Row * Row)) :
  let n := length fused_qkv + size2 cache_k + KV_CACHE_ALLOC_BLOCK_LENGTH in
  cache_is_full head_dim cache_k = true ->
  free_slots m < 2 * n ->
  exists m', attention_forward head_dim which (Some (cache_k, cache_v)) use_cache fused_qkv m
             = (Err AllocationFailure, m').
Proof.
  intros n Hfull Hfree.
  rewrite forward_unfold. unfold attention_forward_kv, split_heads.
  rewrite !length_fmap, Hfull. fold n.
  destruct (init_kv_cache_oom (size2 cache_k) n m) as [m' Hi]; [lia | done |].
  exists m'.
  erewrite bind_err; [done |].
  erewrite bind_err; [done |].
  unfold extend_kv_cache. by erewrite bind_err.
Qed.

Lemma forward_overflow which m cache_k cache_v use_cache (fused_qkv : list (Row * Row)) rk :
  regions m !! data_ptr cache_k = Some rk ->
  cache_is_full head_dim cache_k = false ->
  length rk < size2 cache_k + length fused_qkv ->
  attention_forward head_dim which (Some (cache_k, cache_v)) use_cache fused_qkv m
    = (Err CapacityExceeded, m).
Proof.
  intros Hk Hfull Hcap.
  rewrite forward_unfold. unfold attention_forward_kv, split_heads.
  rewrite Hfull.
  erewrite bind_err; [done |].
  erewrite bind_ok by reflexivity. cbv beta iota.
  erewrite bind_err; [done |].
  unfold append_kv_cache.
  erewrite bind_err; [done |].
  eapply append_full; [done | by rewrite length_fmap].
Qed.

(** *** Sessions: a cache that the forward pass itself built *)

Lemma first_step_sound m (fused_qkv : list (Row * Row)) :
  let q := length fused_qkv in
  let n := q + KV_CACHE_ALLOC_BLOCK_LENGTH in
  sound_cache head_dim
    (mkMem (regions m ++ [write_slots (replicate n None) 0 (Some <$> fused_qkv.*1);
                          write_slots (replicate n None) 0 (Some <$> fused_qkv.*2)])
           (free_slots m - 2 * n))
    (fresh_k head_dim m q n) (fresh_v head_dim m q n) n.
Proof.
  intros q n. unfold sound_cache, fresh_k, fresh_v. cbn [regions data_ptr size2 stride1].
  split_and!; try done; try lia.
  eexists _, _. rewrite lookup_fst_new, lookup_snd_new. split_and!; try done.
  all: rewrite length_write_slots; rewrite ?length_replicate, ?length_fmap; fold q; lia.
Qed.

Lemma step_sound which m k v cap (fused_qkv : list (Row * Row)) kl vl present m' :
  0 < head_dim ->
  sound_cache head_dim m k v cap ->
  attention_forward head_dim which (Some (k, v)) true fused_qkv m
    = (OK (kl, vl, present), m') ->
  exists k' v' cap',
    present = Some (View k', View v') /\
    sound_cache head_dim m' k' v' cap' /\
    size2 k' = size2 k + length fused_qkv /\
    ((cap' = cap /\ length (regions m') = length (regions m)) \/
     (cap = size2 k /\
      cap' = length fused_qkv + size2 k + KV_CACHE_ALLOC_BLOCK_LENGTH /\
      length (regions m') = length (regions m) + 2)).
Proof.
  intros Hd ((rk & rv & Hk & Hv & Hlk & Hlv) & Hne & Hst & Hsv & Hle) Hrun.
  set (q := length fused_qkv) in *.
  destruct (cache_is_full head_dim k) eqn:Hfull.
  - (* the probe fires: the cache is extended *)
    assert (cap = size2 k) as Hcap.
    { apply (cache_is_full_iff k cap Hd Hst) in Hfull. lia. }
    set (n := q + size2 k + KV_CACHE_ALLOC_BLOCK_LENGTH).
    destruct (le_lt_dec (2 * n) (free_slots m)) as [Hfree|Hno].
    2:{ destruct (forward_grow_oom which m k v true fused_qkv Hfull Hno) as [m'' Hoom].
        rewrite Hoom in Hrun. discriminate. }
    rewrite (forward_grow which m k v true fused_qkv rk rv) in Hrun
      by (done || lia).
    injection Hrun as <- <- <- <-.
    eexists _, _, n. split; [reflexivity |]. fold q n. split_and!.
    + unfold sound_cache, fresh_k, fresh_v. cbn [regions data_ptr size2 stride1].
      split_and!; try done; try (unfold n; lia).
      eexists _, _. rewrite lookup_fst_new, lookup_snd_new. split_and!; try done.
      * apply grown_region; [lia | rewrite length_fmap; fold q; unfold n; lia].
      * apply grown_region; [lia | rewrite length_fmap; fold q; unfold n; lia].
    + cbn. lia.
    + right. cbn [regions]. rewrite length_app. cbn [length]. unfold n. lia.
  - (* room is assumed: the rows are appended in place *)
    assert (size2 k < cap) as Hroom.
    { destruct (le_lt_dec cap (size2 k)) as [Hfullcap|]; [|done].
      apply (cache_is_full_iff k cap Hd Hst) in Hfullcap. congruence. }
    destruct (le_lt_dec (size2 k + q) cap) as [Hfit|Hover].
    2:{ rewrite (forward_overflow which m k v true fused_qkv rk) in Hrun
          by (done || lia). discriminate. }
    rewrite (forward_in_place which m k v true fused_qkv rk rv) in Hrun
      by (done || fold q; lia).
    injection Hrun as <- <- <- <-.
    eexists _, _, cap. split; [reflexivity |]. fold q. split_and!.
    + unfold sound_cache. cbn [regions data_ptr size2 stride1].
      split_and!; try done; try lia.
      eexists _, _. split_and!.
      * rewrite list_lookup_insert_ne by done.
        apply list_lookup_insert_eq. by eapply lookup_lt_Some.
      * apply list_lookup_insert_eq. rewrite length_insert. by eapply lookup_lt_Some.
      * rewrite length_write_slots; rewrite ?length_fmap; fold q; lia.
      * rewrite length_write_slots; rewrite ?length_fmap; fold q; lia.
    + done.
    + left. cbn [regions]. by rewrite !length_insert.
Qed.

(** What the two views between calls change: the stride, and with one
    head only. *)
Lemma view_heads_many num_kv t : num_kv <> 1 -> view_heads head_dim num_kv t = t.
Proof. intros Hn. unfold view_heads. by rewrite (proj2 (Nat.eqb_neq num_kv 1)). Qed.

Lemma view_heads_ptr num_kv t : data_ptr (view_heads head_dim num_kv t) = data_ptr t.
Proof. unfold view_heads. by destruct (num_kv =? 1). Qed.

Lemma view_heads_size num_kv t : size2 (view_heads head_dim num_kv t) = size2 t.
Proof. unfold view_heads. by destruct (num_kv =? 1). Qed.

Lemma view_heads_one_full t : cache_is_full head_dim (view_heads head_dim 1 t) = true.
Proof. unfold view_heads, cache_is_full. cbn [Nat.eqb stride1 size2]. by apply Nat.leb_le. Qed.

Lemma view_heads_valid num_kv m k v :
  valid_cache m k v ->
  valid_cache m (view_heads head_dim num_kv k) (view_heads head_dim num_kv v).
Proof. unfold valid_cache. by rewrite !view_heads_ptr, !view_heads_size. Qed.

Lemma view_heads_backed num_kv m k v :
  backed_cache head_dim m k v ->
  backed_cache head_dim m (view_heads head_dim num_kv k) (view_heads head_dim num_kv v).
Proof.
  intros (rk & rv & Hk & Hv & Hlk & Hlv & Hsk & Hsv & Hne & Hsz). exists rk, rv.
  rewrite !view_heads_ptr, !view_heads_size. split_and!; try done.
  all: unfold view_heads; destruct (num_kv =? 1); cbn [stride1 size2]; [|done].
  all: by apply Nat.mul_le_mono_r.
Qed.

Lemma sound_backed m k v cap : sound_cache head_dim m k v cap -> backed_cache head_dim m k v.
Proof.
  intros ((rk & rv & Hk & Hv & Hlk & Hlv) & Hne & Hst & Hsv & Hle). exists rk, rv.
  rewrite Hst, Hlk, Hlv. split_and!; (done || lia).
Qed.

Lemma session_sound which num_kv (steps : list (list (Row * Row))) :
  0 < head_dim -> num_kv <> 1 ->
  forall m k v cap k' v' m',
    sound_cache head_dim m k v cap ->
    KV_CACHE_ALLOC_BLOCK_LENGTH * allocations m <= cap ->
    cap <= size2 k + KV_CACHE_ALLOC_BLOCK_LENGTH ->
    decode_session head_dim which num_kv steps (Some (k, v)) m = (OK (Some (k', v')), m') ->
    size2 k' = size2 k + total_rows steps /\
    KV_CACHE_ALLOC_BLOCK_LENGTH * allocations m' <= size2 k' + KV_CACHE_ALLOC_BLOCK_LENGTH.
Proof.
  intros Hd Hheads. induction steps as [|fused_qkv rest IH];
    intros m k v cap k' v' m' Hsound Hcount Hcap Hrun.
  - injection Hrun as <- <- <-. split; [unfold total_rows; cbn; lia | lia].
  - cbn [decode_session] in Hrun.
    apply bind_inv in Hrun as [([[kl vl] present] & m1 & Hstep & Hrest) | (e & _ & [=])].
    destruct (step_sound which m k v cap fused_qkv kl vl present m1 Hd Hsound Hstep)
      as (k1 & v1 & cap1 & -> & Hsound1 & Hlen1 & Hcase).
    cbn [as_layer_past] in Hrest. rewrite !view_heads_many in Hrest by done.
    apply (IH m1 k1 v1 cap1 k' v' m' Hsound1) in Hrest as [Hlen Hbound].
    + split; [|done]. rewrite Hlen, Hlen1. unfold total_rows.
      cbn [concat]. rewrite length_app. lia.
    + unfold allocations in *. unfold KV_CACHE_ALLOC_BLOCK_LENGTH in *.
      destruct Hcase as [[-> ->] | (Hfull & -> & ->)]; [done |].
      replace ((length (regions m) + 2) / 2) with (length (regions m) / 2 + 1)
        by (rewrite <- (Nat.div_add _ 1 2) by lia; f_equal; lia).
      lia.
    + destruct Hcase as [[-> _] | (_ & -> & _)]; lia.
Qed.

(** With two heads or more, what a session hands back is a cache as the
    forward pass leaves it. *)
Lemma session_keeps_sound which num_kv (steps : list (list (Row * Row))) :
  0 < head_dim -> num_kv <> 1 ->
  forall m k v cap k' v' m',
    sound_cache head_dim m k v cap ->
    decode_session head_dim which num_kv steps (Some (k, v)) m = (OK (Some (k', v')), m') ->
    exists cap', sound_cache head_dim m' k' v' cap'.
Proof.
  intros Hd Hheads. induction steps as [|fused_qkv rest IH];
    intros m k v cap k' v' m' Hsound Hrun.
  - injection Hrun as <- <- <-. by exists cap.
  - cbn [decode_session] in Hrun.
    apply bind_inv in Hrun as [([[kl vl] present] & m1 & Hstep & Hrest) | (e & _ & [=])].
    destruct (step_sound which m k v cap fused_qkv kl vl present m1 Hd Hsound Hstep)
      as (k1 & v1 & cap1 & -> & Hsound1 & _).
    cbn [as_layer_past] in Hrest. rewrite !view_heads_many in Hrest by done.
    by apply (IH m1 k1 v1 cap1).
Qed.

(** One new row on a cache that is backed by its regions: the pass fails
    for lack of memory only, and what it returns is backed again. *)
Lemma step_backed which m k v (kv : Row * Row) :
  0 < head_dim ->
  backed_cache head_dim m k v ->
  (free_slots m < 2 * (1 + size2 k + KV_CACHE_ALLOC_BLOCK_LENGTH) /\
   exists m', attention_forward head_dim which (Some (k, v)) true [kv] m
              = (Err AllocationFailure, m')) \/
  (exists k1 v1 m1,
     attention_forward head_dim which (Some (k, v)) true [kv] m
       = (OK (View k1, View v1, Some (View k1, View v1)), m1) /\
     backed_cache head_dim m1 k1 v1 /\
     size2 k1 = size2 k + 1 /\
     free_slots m - 2 * (1 + size2 k + KV_CACHE_ALLOC_BLOCK_LENGTH) <= free_slots m1).
Proof.
  intros Hd (rk & rv & Hk & Hv & Hlk & Hlv & Hsk & Hsv & Hne & Hsz).
  destruct (cache_is_full head_dim k) eqn:Hfull.
  - set (n := length [kv] + size2 k + KV_CACHE_ALLOC_BLOCK_LENGTH).
    destruct (le_lt_dec (2 * n) (free_slots m)) as [Hfree|Hno].
    + right. rewrite (forward_grow which m k v true [kv] rk rv) by (done || lia).
      eexists _, _, _. split; [reflexivity |].
      cbn [length] in *. fold n.
      destruct (grown_region rk [kv].*1 (size2 k) n) as [Hnk _];
        [lia | cbn [length fmap list_fmap]; unfold n; lia |].
      destruct (grown_region rv [kv].*2 (size2 k) n) as [Hnv _];
        [lia | cbn [length fmap list_fmap]; unfold n; lia |].
      split_and!.
      * eexists _, _. unfold fresh_k, fresh_v. cbn [regions data_ptr size2 stride1].
        rewrite lookup_fst_new, lookup_snd_new.
        split_and!; try done; rewrite ?Hnk, ?Hnv; unfold n; lia.
      * cbn [fresh_k size2]. lia.
      * cbn [free_slots]. unfold n. lia.
    + left. split; [unfold n in Hno; cbn [length] in Hno; lia |].
      by apply forward_grow_oom.
  - right.
    assert (size2 k * head_dim < stride1 k) as Hstride
      by (unfold cache_is_full in Hfull; by apply Nat.leb_gt in Hfull).
    assert (size2 k < length rk) as Hrk by nia.
    assert (size2 k < length rv) as Hrv by nia.
    assert (data_ptr k < length (regions m)) as Hpk by (by eapply lookup_lt_Some).
    assert (data_ptr v < length (regions m)) as Hpv by (by eapply lookup_lt_Some).
    rewrite (forward_in_place which m k v true [kv] rk rv)
      by (done || cbn [length]; lia).
    eexists _, _, _. split; [reflexivity |].
    cbn [length free_slots size2]. split_and!; [| done | lia].
    exists (write_slots rk (size2 k) (Some <$> [kv].*1)),
           (write_slots rv (size2 v) (Some <$> [kv].*2)).
    cbn [regions data_ptr size2 stride1].
    rewrite !length_write_slots by (cbn [length fmap list_fmap]; lia).
    split_and!; try done; try lia.
    + rewrite list_lookup_insert_ne by done. by apply list_lookup_insert_eq.
    + apply list_lookup_insert_eq. by rewrite length_insert.
Qed.

Lemma session_single_tokens which num_kv (steps : list (list (Row * Row))) :
  0 < head_dim ->
  Forall (fun fused_qkv => length fused_qkv = 1) steps ->
  forall m k v res m',
    backed_cache head_dim m k v ->
    decode_session head_dim which num_kv steps (Some (k, v)) m = (res, m') ->
    res = Err AllocationFailure \/ exists k' v', res = OK (Some (k', v')).
Proof.
  intros Hd Hone. induction Hone as [|fused_qkv rest Hlen _ IH];
    intros m k v res m' Hbacked Hrun.
  - injection Hrun as <- <-. eauto.
  - destruct fused_qkv as [|kv [|]]; try discriminate.
    cbn [decode_session] in Hrun.
    destruct (step_backed which m k v kv Hd Hbacked)
      as [(_ & m1 & Hstep) | (k1 & v1 & m1 & Hstep & Hbacked1 & _)].
    + rewrite (bind_err _ _ _ _ _ Hstep) in Hrun. injection Hrun as <- <-. by left.
    + rewrite (bind_ok _ _ _ _ _ Hstep) in Hrun. cbn [as_layer_past] in Hrun.
      eapply IH; [|exact Hrun]. by apply view_heads_backed.
Qed.

Lemma forward_first_oom which m (fused_qkv : list (Row * Row)) :
  free_slots m < 2 * (length fused_qkv + KV_CACHE_ALLOC_BLOCK_LENGTH) ->
  exists m', attention_forward head_dim which None true fused_qkv m
             = (Err AllocationFailure, m').
Proof.
  intros Hfree.
  rewrite forward_unfold. unfold attention_forward_kv, split_heads.
  rewrite !length_fmap.
  destruct (init_kv_cache_oom (length fused_qkv)
              (length fused_qkv + KV_CACHE_ALLOC_BLOCK_LENGTH) m) as [m' Hi]; [lia | done |].
  exists m'.
  erewrite bind_err; [done |].
  by erewrite bind_err.
Qed.

(** X21. Capacity grows by blocks. On the first cached step, and on
    every extension, each of the two regions allocated has
    [kv_length + KV_CACHE_ALLOC_BLOCK_LENGTH] slots, [kv_length] being the
    length after the new rows are appended. With two heads or more in the
    cache, a session that starts with no cache in empty memory and hands
    each [present] back as [layer_past] therefore makes at most one more
    allocation than the final length divided by the block length. *)
Theorem cache_grows_by_blocks which :
  (forall m (fused_qkv : list (Row * Row)),
     let kv_length := length fused_qkv in
     2 * (kv_length + KV_CACHE_ALLOC_BLOCK_LENGTH) <= free_slots m ->
     exists k v m',
       attention_forward head_dim which None true fused_qkv m
         = (OK (View k, View v, Some (View k, View v)), m') /\
       size2 k = kv_length /\ size2 v = kv_length /\
       capacity m' k = Some (kv_length + KV_CACHE_ALLOC_BLOCK_LENGTH) /\
       capacity m' v = Some (kv_length + KV_CACHE_ALLOC_BLOCK_LENGTH)) /\
  (forall m cache_k cache_v use_cache (fused_qkv : list (Row * Row)) rk rv,
     let kv_length := length fused_qkv + size2 cache_k in
     regions m !! data_ptr cache_k = Some rk ->
     regions m !! data_ptr cache_v = Some rv ->
     size2 cache_k <= length rk -> size2 cache_v = size2 cache_k ->
     size2 cache_k <= length rv ->
     cache_is_full head_dim cache_k = true ->
     2 * (kv_length + KV_CACHE_ALLOC_BLOCK_LENGTH) <= free_slots m ->
     exists k v m',
       attention_forward head_dim which (Some (cache_k, cache_v)) use_cache fused_qkv m
         = (OK (View k, View v, if use_cache then Some (View k, View v) else None), m') /\
       size2 k = kv_length /\ size2 v = kv_length /\
       capacity m' k = Some (kv_length + KV_CACHE_ALLOC_BLOCK_LENGTH) /\
       capacity m' v = Some (kv_length + KV_CACHE_ALLOC_BLOCK_LENGTH)) /\
  (0 < head_dim ->
   forall num_kv (steps : list (list (Row * Row))) free k v m',
     1 < num_kv ->
     decode_session head_dim which num_kv steps None (mkMem [] free)
       = (OK (Some (k, v)), m') ->
     size2 k = total_rows steps /\
     KV_CACHE_ALLOC_BLOCK_LENGTH * allocations m'
       <= size2 k + KV_CACHE_ALLOC_BLOCK_LENGTH).
Proof.
  split_and!.
  - intros m fused_qkv kv_length Hfree.
    eexists _, _, _. split; [by apply forward_first_step |].
    unfold capacity, fresh_k, fresh_v. cbn [regions data_ptr size2].
    rewrite lookup_fst_new, lookup_snd_new. cbn [fmap option_fmap option_map].
    rewrite !length_write_slots
      by (rewrite ?length_replicate, ?length_fmap; fold kv_length; lia).
    rewrite length_replicate. by split_and!.
  - intros m cache_k cache_v use_cache fused_qkv rk rv kv_length Hk Hv Hlk Hsv Hlv Hfull Hfree.
    eexists _, _, _. split; [by eapply forward_grow |].
    unfold capacity, fresh_k, fresh_v. cbn [regions data_ptr size2].
    rewrite lookup_fst_new, lookup_snd_new. cbn [fmap option_fmap option_map].
    unfold kv_length.
    destruct (grown_region rk fused_qkv.*1 (size2 cache_k)
                (length fused_qkv + size2 cache_k + KV_CACHE_ALLOC_BLOCK_LENGTH)) as [-> _];
      [done | rewrite length_fmap; lia |].
    destruct (grown_region rv fused_qkv.*2 (size2 cache_k)
                (length fused_qkv + size2 cache_k + KV_CACHE_ALLOC_BLOCK_LENGTH)) as [-> _];
      [done | rewrite length_fmap; lia |].
    split_and!; try done; lia.
  - intros Hd num_kv steps free k v m' Hheads Hrun.
    destruct steps as [|fused_qkv rest]; [discriminate |].
    cbn [decode_session] in Hrun.
    apply bind_inv in Hrun as [([[kl vl] present] & m1 & Hstep & Hrest) | (e & _ & [=])].
    set (m0 := mkMem (Row:=Row) [] free) in *.
    set (n := length fused_qkv + KV_CACHE_ALLOC_BLOCK_LENGTH).
    destruct (le_lt_dec (2 * n) (free_slots m0)) as [Hfree|Hno].
    2:{ destruct (forward_first_oom which m0 fused_qkv Hno) as [m'' Hoom].
        rewrite Hoom in Hstep. discriminate. }
    rewrite (forward_first_step which m0 fused_qkv Hfree) in Hstep.
    injection Hstep as <- <- <- <-.
    cbn [as_layer_past] in Hrest. rewrite !view_heads_many in Hrest by lia.
    eapply (session_sound which num_kv rest Hd ltac:(lia)) in Hrest as [Hlen Hbound];
      [| apply first_step_sound | |].
    + split; [|done]. rewrite Hlen. unfold total_rows, fresh_k.
      cbn [size2 concat]. rewrite length_app. lia.
    + unfold allocations, KV_CACHE_ALLOC_BLOCK_LENGTH. cbn. lia.
    + unfold fresh_k. cbn [size2]. lia.
Qed.


(** *** What the cache holds after a pass *)

Lemma take_write_append r len (new : Storage) q :
  q = length new -> len + q <= length r ->
  take (len + q) (write_slots r len new) = take len r ++ new.
Proof.
  intros -> Hfit. unfold write_slots. rewrite app_assoc.
  apply take_app_length'. rewrite length_app, length_take. lia.
Qed.

Lemma take_grown_region r (new : list Row) len n q :
  q = length new -> len <= length r -> len + q <= n ->
  take (len + q)
       (write_slots (write_slots (replicate n None) 0 (take len r)) len (Some <$> new))
  = take len r ++ (Some <$> new).
Proof.
  intros -> Hold Hfit.
  assert (length (write_slots (replicate n None) 0 (take len r)) = n) as Hin.
  { rewrite length_write_slots; rewrite ?length_take, ?length_replicate; lia. }
  rewrite take_write_append by (rewrite ?Hin, ?length_fmap; lia).
  f_equal.
  rewrite write_slots_replicate_0 by (rewrite length_take; lia).
  rewrite take_app_le by (rewrite length_take; lia).
  rewrite take_take. f_equal. lia.
Qed.

(** The key append fits and the value append does not: the key region is
    already written when the pass raises. *)
Lemma forward_overflow_v which m cache_k cache_v use_cache (fused_qkv : list (Row * Row))
    rk rv :
  regions m !! data_ptr cache_k = Some rk ->
  regions m !! data_ptr cache_v = Some rv ->
  data_ptr cache_k <> data_ptr cache_v ->
  cache_is_full head_dim cache_k = false ->
  size2 cache_k + length fused_qkv <= length rk ->
  length rv < size2 cache_v + length fused_qkv ->
  exists m', attention_forward head_dim which (Some (cache_k, cache_v)) use_cache fused_qkv m
             = (Err CapacityExceeded, m').
Proof.
  intros Hk Hv Hne Hfull Hfit Hover.
  rewrite forward_unfold. unfold attention_forward_kv, split_heads.
  rewrite Hfull. eexists.
  erewrite bind_err; [done |].
  erewrite bind_ok by reflexivity. cbv beta iota.
  erewrite bind_err; [done |].
  unfold append_kv_cache.
  erewrite bind_ok by (eapply append_ok; [exact Hk | by rewrite length_fmap]).
  erewrite bind_err; [done |].
  eapply append_full; cbn [regions].
  - rewrite list_lookup_insert_ne by done. exact Hv.
  - by rewrite length_fmap.
Qed.

(** A pass on a readable past that returns: the views it returns are
    readable again and show the past rows followed by the new ones. *)
Lemma forward_cached_content which m k v use_cache (fused_qkv : list (Row * Row))
    kl vl present m' :
  valid_cache m k v ->
  attention_forward head_dim which (Some (k, v)) use_cache fused_qkv m
    = (OK (kl, vl, present), m') ->
  exists k' v' past_k past_v,
    kl = View k' /\ vl = View v' /\ present = present_of use_cache k' v' /\
    valid_cache m' k' v' /\
    size2 k' = size2 k + length fused_qkv /\
    read m k = Some past_k /\ read m v = Some past_v /\
    read m' k' = Some (past_k ++ (Some <$> fused_qkv.*1)) /\
    read m' v' = Some (past_v ++ (Some <$> fused_qkv.*2)).
Proof.
  intros ((rk & rv & Hk & Hv & Hlk & Hlv) & Hne & Hsv) Hrun.
  set (q := length fused_qkv) in *.
  assert (read m k = Some (take (size2 k) rk)) as Hrk by (unfold read; by rewrite Hk).
  assert (read m v = Some (take (size2 k) rv)) as Hrv by (unfold read; by rewrite Hv, Hsv).
  destruct (cache_is_full head_dim k) eqn:Hfull.
  - set (n := q + size2 k + KV_CACHE_ALLOC_BLOCK_LENGTH).
    destruct (le_lt_dec (2 * n) (free_slots m)) as [Hfree|Hno].
    2:{ destruct (forward_grow_oom which m k v use_cache fused_qkv Hfull Hno) as [m'' Hoom].
        rewrite Hoom in Hrun. discriminate. }
    rewrite (forward_grow which m k v use_cache fused_qkv rk rv) in Hrun
      by (done || lia).
    injection Hrun as <- <- <- <-. fold q n.
    destruct (grown_region rk fused_qkv.*1 (size2 k) n) as [Hnk _];
      [lia | rewrite length_fmap; fold q; unfold n; lia |].
    destruct (grown_region rv fused_qkv.*2 (size2 k) n) as [Hnv _];
      [lia | rewrite length_fmap; fold q; unfold n; lia |].
    eexists _, _, _, _. split_and!; try done.
    + unfold valid_cache, fresh_k, fresh_v. cbn [regions data_ptr size2].
      split_and!; try done; try lia.
      eexists _, _. rewrite lookup_fst_new, lookup_snd_new.
      split_and!; try done; rewrite ?Hnk, ?Hnv; unfold n; lia.
    + unfold read, fresh_k. cbn [regions data_ptr size2]. rewrite lookup_fst_new.
      cbn [fmap option_fmap option_map]. f_equal.
      apply take_grown_region; [by rewrite length_fmap | lia | unfold n; lia].
    + unfold read, fresh_v. cbn [regions data_ptr size2]. rewrite lookup_snd_new.
      cbn [fmap option_fmap option_map]. f_equal.
      apply take_grown_region; [by rewrite length_fmap | lia | unfold n; lia].
  - destruct (le_lt_dec (size2 k + q) (length rk)) as [Hfit|Hover].
    2:{ rewrite (forward_overflow which m k v use_cache fused_qkv rk) in Hrun
          by (done || lia). discriminate. }
    destruct (le_lt_dec (size2 v + q) (length rv)) as [Hfitv|Hoverv].
    2:{ destruct (forward_overflow_v which m k v use_cache fused_qkv rk rv)
          as [m'' Hov]; try done. rewrite Hov in Hrun. discriminate. }
    rewrite (forward_in_place which m k v use_cache fused_qkv rk rv) in Hrun by done.
    injection Hrun as <- <- <- <-. fold q.
    assert (data_ptr k < length (regions m)) as Hpk by (by eapply lookup_lt_Some).
    assert (data_ptr v < length (regions m)) as Hpv by (by eapply lookup_lt_Some).
    eexists _, _, _, _. split_and!; try done.
    + unfold valid_cache. cbn [regions data_ptr size2].
      split_and!; try done; try lia.
      eexists _, _. split_and!.
      * rewrite list_lookup_insert_ne by done. by apply list_lookup_insert_eq.
      * apply list_lookup_insert_eq. by rewrite length_insert.
      * rewrite length_write_slots; rewrite ?length_fmap; fold q; lia.
      * rewrite length_write_slots; rewrite ?length_fmap; fold q; lia.
    + unfold read. cbn [regions data_ptr size2].
      rewrite list_lookup_insert_ne by done.
      rewrite list_lookup_insert_eq by done.
      cbn [fmap option_fmap option_map]. f_equal.
      apply take_write_append; [by rewrite !length_fmap | lia].
    + unfold read. cbn [regions data_ptr size2].
      rewrite list_lookup_insert_eq by (by rewrite length_insert).
      cbn [fmap option_fmap option_map]. f_equal. rewrite Hsv.
      apply take_write_append; [by rewrite !length_fmap | lia].
Qed.

(** The first cached pass, when it returns, shows exactly the new rows. *)
Lemma forward_first_content which m (fused_qkv : list (Row * Row)) kl vl present m' :
  attention_forward head_dim which None true fused_qkv m = (OK (kl, vl, present), m') ->
  exists k v,
    kl = View k /\ vl = View v /\ present = Some (View k, View v) /\
    valid_cache m' k v /\
    size2 k = length fused_qkv /\
    shows m' k fused_qkv.*1 /\ shows m' v fused_qkv.*2.
Proof.
  intros Hrun.
  set (q := length fused_qkv) in *.
  set (n := q + KV_CACHE_ALLOC_BLOCK_LENGTH).
  destruct (le_lt_dec (2 * n) (free_slots m)) as [Hfree|Hno].
  2:{ destruct (forward_first_oom which m fused_qkv Hno) as [m'' Hoom].
      rewrite Hoom in Hrun. discriminate. }
  rewrite (forward_first_step which m fused_qkv Hfree) in Hrun.
  injection Hrun as <- <- <- <-. fold q n.
  assert (forall rows : Storage, length rows = q ->
            length (write_slots (replicate n None) 0 rows) = n) as Hlen.
  { intros rows Hrows. rewrite length_write_slots; rewrite ?length_replicate; lia. }
  eexists _, _. split_and!; try done.
  - unfold valid_cache, fresh_k, fresh_v. cbn [regions data_ptr size2].
    split_and!; try done; try lia.
    eexists _, _. rewrite lookup_fst_new, lookup_snd_new.
    split_and!; try done; rewrite Hlen by (by rewrite !length_fmap); unfold n; lia.
  - unfold shows, read, fresh_k. cbn [regions data_ptr size2]. rewrite lookup_fst_new.
    cbn [fmap option_fmap option_map]. f_equal.
    apply (take_write_append _ 0 _ q); [by rewrite !length_fmap |].
    rewrite length_replicate. unfold n. lia.
  - unfold shows, read, fresh_v. cbn [regions data_ptr size2]. rewrite lookup_snd_new.
    cbn [fmap option_fmap option_map]. f_equal.
    apply (take_write_append _ 0 _ q); [by rewrite !length_fmap |].
    rewrite length_replicate. unfold n. lia.
Qed.

Lemma view_heads_read num_kv m t : read m (view_heads head_dim num_kv t) = read m t.
Proof. unfold read. by rewrite view_heads_ptr, view_heads_size. Qed.

Lemma session_content which num_kv (steps : list (list (Row * Row))) :
  forall m k v ks vs k' v' m',
    valid_cache m k v -> shows m k ks -> shows m v vs ->
    decode_session head_dim which num_kv steps (Some (k, v)) m
      = (OK (Some (k', v')), m') ->
    shows m' k' (ks ++ (concat steps).*1) /\ shows m' v' (vs ++ (concat steps).*2).
Proof.
  induction steps as [|fused_qkv rest IH]; intros m k v ks vs k' v' m' Hvalid Hks Hvs Hrun.
  - injection Hrun as <- <- <-. cbn [concat fmap list_fmap]. by rewrite !app_nil_r.
  - cbn [decode_session] in Hrun.
    apply bind_inv in Hrun as [([[kl vl] present] & m1 & Hstep & Hrest) | (e & _ & [=])].
    destruct (forward_cached_content which m k v true fused_qkv kl vl present m1 Hvalid Hstep)
      as (k1 & v1 & past_k & past_v & -> & -> & -> & Hvalid1 & _ & Hpk & Hpv & Hk1 & Hv1).
    cbn [present_of as_layer_past] in Hrest.
    unfold shows in Hks, Hvs. rewrite Hks in Hpk. rewrite Hvs in Hpv.
    injection Hpk as <-. injection Hpv as <-.
    rewrite <- fmap_app in Hk1, Hv1.
    rewrite <- (view_heads_read num_kv) in Hk1, Hv1.
    destruct (IH m1 _ _ _ _ k' v' m' (view_heads_valid num_kv m1 k1 v1 Hvalid1)
                Hk1 Hv1 Hrest) as [Hk' Hv'].
    cbn [concat]. by rewrite !fmap_app, !app_assoc.
Qed.

(** X1. A pass that is handed a readable past and returns hands back views
    that show the rows of the past followed by the new rows, keys and
    values alike, whether the cache was extended or appended to in place,
    and whatever [use_cache] says. *)
Theorem cached_pass_appends_rows which m k v use_cache (fused_qkv : list (Row * Row))
    kl vl present m' :
  valid_cache m k v ->
  attention_forward head_dim which (Some (k, v)) use_cache fused_qkv m
    = (OK (kl, vl, present), m') ->
  exists k' v' past_k past_v,
    kl = View k' /\ vl = View v' /\
    read m k = Some past_k /\ read m v = Some past_v /\
    read m' k' = Some (past_k ++ (Some <$> fused_qkv.*1)) /\
    read m' v' = Some (past_v ++ (Some <$> fused_qkv.*2)) /\
    size2 k' = size2 k + length fused_qkv /\ size2 v' = size2 k'.
Proof.
  intros Hvalid Hrun.
  destruct (forward_cached_content which m k v use_cache fused_qkv kl vl present m' Hvalid Hrun)
    as (k' & v' & past_k & past_v & -> & -> & _ & Hvalid' & Hlen & Hpk & Hpv & Hk' & Hv').
  exists k', v', past_k, past_v. split_and!; try done.
  by destruct Hvalid' as (_ & _ & ->).
Qed.

(** X2. A session that starts without a cache and returns one: the key
    view shows the key rows of all steps in the order they were given, the
    value view the value rows, and nothing else. *)
Theorem session_cache_holds_all_rows which num_kv (steps : list (list (Row * Row)))
    m k v m' :
  decode_session head_dim which num_kv steps None m = (OK (Some (k, v)), m') ->
  shows m' k (concat steps).*1 /\ shows m' v (concat steps).*2.
Proof.
  intros Hrun. destruct steps as [|fused_qkv rest]; [discriminate |].
  cbn [decode_session] in Hrun.
  apply bind_inv in Hrun as [([[kl vl] present] & m1 & Hstep & Hrest) | (e & _ & [=])].
  destruct (forward_first_content which m fused_qkv kl vl present m1 Hstep)
    as (k1 & v1 & -> & -> & -> & Hvalid1 & _ & Hk1 & Hv1).
  cbn [as_layer_past] in Hrest.
  unfold shows in Hk1, Hv1. rewrite <- (view_heads_read num_kv) in Hk1, Hv1.
  destruct (session_content which num_kv rest m1 _ _ _ _ k v m'
              (view_heads_valid num_kv m1 k1 v1 Hvalid1) Hk1 Hv1 Hrest)
    as [Hk Hv].
  cbn [concat]. by rewrite !fmap_app.
Qed.

(** X3. After the first step, a session that is fed one position per step
    never overruns its cache: the only exception the cache code raises is
    the allocation failure of [torch.empty]. *)
Theorem single_token_session_never_overflows which num_kv (first : list (Row * Row))
    (rest : list (list (Row * Row))) m res m' :
  0 < head_dim ->
  Forall (fun fused_qkv => length fused_qkv = 1) rest ->
  decode_session head_dim which num_kv (first :: rest) None m = (res, m') ->
  res = Err AllocationFailure \/ exists k v, res = OK (Some (k, v)).
Proof.
  intros Hd Hone Hrun. cbn [decode_session] in Hrun.
  set (n := length first + KV_CACHE_ALLOC_BLOCK_LENGTH).
  destruct (le_lt_dec (2 * n) (free_slots m)) as [Hfree|Hno].
  - rewrite (bind_ok _ _ _ _ _ (forward_first_step which m first Hfree)) in Hrun.
    cbn [as_layer_past] in Hrun.
    eapply (session_single_tokens which num_kv rest Hd Hone); [|exact Hrun].
    apply view_heads_backed. eapply sound_backed. apply first_step_sound.
  - destruct (forward_first_oom which m first Hno) as [m'' Hoom].
    rewrite (bind_err _ _ _ _ _ Hoom) in Hrun. injection Hrun as <- <-. by left.
Qed.

Lemma session_completes_from which num_kv (steps : list (list (Row * Row))) :
  0 < head_dim ->
  Forall (fun fused_qkv => length fused_qkv = 1) steps ->
  forall m k v,
    backed_cache head_dim m k v ->
    2 * length steps * (size2 k + length steps + KV_CACHE_ALLOC_BLOCK_LENGTH) <= free_slots m ->
    exists k' v' m',
      decode_session head_dim which num_kv steps (Some (k, v)) m
        = (OK (Some (k', v')), m') /\
      size2 k' = size2 k + length steps.
Proof.
  intros Hd Hone. induction Hone as [|fused_qkv rest Hlen _ IH];
    intros m k v Hbacked Hfree.
  - eexists _, _, _. split; [reflexivity |]. cbn [length]. lia.
  - destruct fused_qkv as [|kv [|]]; try discriminate.
    cbn [decode_session length] in *.
    destruct (step_backed which m k v kv Hd Hbacked)
      as [(Hno & _) | (k1 & v1 & m1 & Hstep & Hbacked1 & Hlen1 & Hfree1)].
    { unfold KV_CACHE_ALLOC_BLOCK_LENGTH in *. nia. }
    rewrite (bind_ok _ _ _ _ _ Hstep). cbn [as_layer_past].
    destruct (IH m1 _ _ (view_heads_backed num_kv m1 k1 v1 Hbacked1))
      as (k' & v' & m' & Hrun & Hsize).
    { rewrite view_heads_size, Hlen1. unfold KV_CACHE_ALLOC_BLOCK_LENGTH in *. nia. }
    exists k', v', m'. split; [done |]. rewrite Hsize, view_heads_size. lia.
Qed.

(** X4. With enough memory such a session runs to its end: for a first
    step of [p] positions and [n] steps of one position each,
    [2 * (p + 256)] free slots for the first allocation and
    [2 * n * (p + n + 256)] for the extensions suffice, and the cache
    returned has length [p + n]. *)
Theorem single_token_session_completes which num_kv (first : list (Row * Row))
    (rest : list (list (Row * Row))) m :
  0 < head_dim ->
  Forall (fun fused_qkv => length fused_qkv = 1) rest ->
  2 * (length first + KV_CACHE_ALLOC_BLOCK_LENGTH)
    + 2 * length rest * (length first + length rest + KV_CACHE_ALLOC_BLOCK_LENGTH)
    <= free_slots m ->
  exists k v m',
    decode_session head_dim which num_kv (first :: rest) None m
      = (OK (Some (k, v)), m') /\
    size2 k = length first + length rest.
Proof.
  intros Hd Hone Hfree. cbn [decode_session].
  rewrite (bind_ok _ _ _ _ _ (forward_first_step which m first ltac:(lia))).
  cbn [as_layer_past].
  destruct (session_completes_from which num_kv rest Hd Hone _ _ _
              (view_heads_backed num_kv _ _ _ (sound_backed _ _ _ _ (first_step_sound m first))))
    as (k & v & m' & Hrun & Hsize).
  { rewrite view_heads_size. cbn [free_slots fresh_k size2]. lia. }
  exists k, v, m'. split; [done |]. rewrite Hsize, view_heads_size. done.
Qed.

Lemma session_from_none_sound which num_kv (steps : list (list (Row * Row))) m0 k v m :
  0 < head_dim -> 1 < num_kv ->
  decode_session head_dim which num_kv steps None m0 = (OK (Some (k, v)), m) ->
  exists cap, sound_cache head_dim m k v cap.
Proof.
  intros Hd Hheads Hrun. destruct steps as [|fused_qkv rest]; [discriminate |].
  cbn [decode_session] in Hrun.
  apply bind_inv in Hrun as [([[kl vl] present] & m1 & Hstep & Hrest) | (e & _ & [=])].
  set (n := length fused_qkv + KV_CACHE_ALLOC_BLOCK_LENGTH).
  destruct (le_lt_dec (2 * n) (free_slots m0)) as [Hfree|Hno].
  2:{ destruct (forward_first_oom which m0 fused_qkv Hno) as [m'' Hoom].
      rewrite Hoom in Hstep. discriminate. }
  rewrite (forward_first_step which m0 fused_qkv Hfree) in Hstep.
  injection Hstep as <- <- <- <-.
  cbn [as_layer_past] in Hrest. rewrite !view_heads_many in Hrest by lia.
  eapply (session_keeps_sound which num_kv rest Hd ltac:(lia)); [|exact Hrest].
  apply first_step_sound.
Qed.

Lemma in_place_on_sound which m k v cap use_cache (fused_qkv : list (Row * Row)) :
  0 < head_dim ->
  sound_cache head_dim m k v cap ->
  size2 k < cap ->
  size2 k + length fused_qkv <= cap ->
  exists k' v' m',
    attention_forward head_dim which (Some (k, v)) use_cache fused_qkv m
      = (OK (View k', View v', present_of use_cache k' v'), m') /\
    data_ptr k' = data_ptr k /\ data_ptr v' = data_ptr v /\
    size2 k' = size2 k + length fused_qkv /\
    length (regions m') = length (regions m) /\
    free_slots m' = free_slots m /\
    (forall p, p <> data_ptr k -> p <> data_ptr v -> same_region p m m') /\
    sound_cache head_dim m' k' v' cap.
Proof.
  intros Hd ((rk & rv & Hk & Hv & Hlk & Hlv) & Hne & Hst & Hsv & Hle) Hroom Hfit.
  assert (cache_is_full head_dim k = false) as Hfull.
  { destruct (cache_is_full head_dim k) eqn:Hfull; [|done].
    apply (cache_is_full_iff k cap Hd Hst) in Hfull. lia. }
  assert (data_ptr k < length (regions m)) as Hpk by (by eapply lookup_lt_Some).
  assert (data_ptr v < length (regions m)) as Hpv by (by eapply lookup_lt_Some).
  eexists _, _, _. split; [eapply forward_in_place; (done || lia) |].
  cbn [regions free_slots data_ptr size2 stride1].
  split_and!; try done.
  - by rewrite !length_insert.
  - intros p Hp1 Hp2. unfold same_region. cbn [regions].
    by rewrite !list_lookup_insert_ne by done.
  - unfold sound_cache. cbn [regions data_ptr size2 stride1].
    split_and!; try done; try lia.
    eexists _, _. split_and!.
    + rewrite list_lookup_insert_ne by done. by apply list_lookup_insert_eq.
    + apply list_lookup_insert_eq. by rewrite length_insert.
    + rewrite length_write_slots; rewrite ?length_fmap; lia.
    + rewrite length_write_slots; rewrite ?length_fmap; lia.
Qed.

Lemma sound_capacity m k v cap cap' :
  sound_cache head_dim m k v cap -> capacity m k = Some cap' ->
  cap' = cap /\ capacity m v = Some cap.
Proof.
  intros ((rk & rv & Hk & Hv & Hlk & Hlv) & _) Hcap. unfold capacity in *.
  rewrite Hk in Hcap. rewrite Hv. cbn in *. injection Hcap as <-. by rewrite Hlk, Hlv.
Qed.

(** X5. With two heads or more in the cache, a cache that a session
    handed back and that has room for the new rows is appended to in place:
    the pass returns views on the same two regions, allocates nothing,
    leaves every other region as it was, and the capacity stays. *)
Theorem append_in_place_reuses_storage which num_kv (steps : list (list (Row * Row)))
    m0 m k v cap use_cache (fused_qkv : list (Row * Row)) :
  0 < head_dim -> 1 < num_kv ->
  decode_session head_dim which num_kv steps None m0 = (OK (Some (k, v)), m) ->
  capacity m k = Some cap ->
  size2 k < cap ->
  size2 k + length fused_qkv <= cap ->
  exists k' v' m',
    attention_forward head_dim which (Some (k, v)) use_cache fused_qkv m
      = (OK (View k', View v', present_of use_cache k' v'), m') /\
    data_ptr k' = data_ptr k /\ data_ptr v' = data_ptr v /\
    size2 k' = size2 k + length fused_qkv /\
    length (regions m') = length (regions m) /\
    free_slots m' = free_slots m /\
    (forall p, p <> data_ptr k -> p <> data_ptr v -> same_region p m m') /\
    capacity m' k' = Some cap /\ capacity m' v' = Some cap.
Proof.
  intros Hd Hheads Hrun Hcap Hroom Hfit.
  destruct (session_from_none_sound which num_kv steps m0 k v m Hd Hheads Hrun)
    as [cap0 Hsound].
  destruct (sound_capacity m k v cap0 cap Hsound Hcap) as [-> _].
  destruct (in_place_on_sound which m k v cap0 use_cache fused_qkv Hd Hsound Hroom Hfit)
    as (k' & v' & m' & Hpass & Hpk & Hpv & Hlen & Hregions & Hfree & Hframe & Hsound').
  exists k', v', m'. split_and!; try done.
  all: destruct Hsound' as ((rk & rv & Hk & Hv & Hlk & Hlv) & _).
  all: unfold capacity; rewrite ?Hk, ?Hv; cbn; by rewrite ?Hlk, ?Hlv.
Qed.

(** X6. With two heads or more in the cache, a cache that a session
    handed back and that has room, but not enough for the rows of this
    step, is not extended: the probe looks at the current length only, the
    append overruns the region, and the pass raises with memory as it
    was. *)
Theorem multi_token_append_overflows which num_kv (steps : list (list (Row * Row)))
    m0 m k v cap use_cache (fused_qkv : list (Row * Row)) :
  0 < head_dim -> 1 < num_kv ->
  decode_session head_dim which num_kv steps None m0 = (OK (Some (k, v)), m) ->
  capacity m k = Some cap ->
  size2 k < cap ->
  cap < size2 k + length fused_qkv ->
  attention_forward head_dim which (Some (k, v)) use_cache fused_qkv m
    = (Err CapacityExceeded, m).
Proof.
  intros Hd Hheads Hrun Hcap Hroom Hover.
  destruct (session_from_none_sound which num_kv steps m0 k v m Hd Hheads Hrun)
    as [cap0 Hsound].
  destruct (sound_capacity m k v cap0 cap Hsound Hcap) as [-> _].
  destruct Hsound as ((rk & rv & Hk & Hv & Hlk & Hlv) & Hne & Hst & Hsv & Hle).
  assert (cache_is_full head_dim k = false) as Hfull.
  { destruct (cache_is_full head_dim k) eqn:Hfull; [|done].
    apply (cache_is_full_iff k cap0 Hd Hst) in Hfull. lia. }
  apply (forward_overflow which m k v use_cache fused_qkv rk); (done || lia).
Qed.

(** *** One head in the cache: every call allocates *)

Lemma forward_full_allocates which m k v use_cache (fused_qkv : list (Row * Row))
    kl vl present m' :
  valid_cache m k v ->
  cache_is_full head_dim k = true ->
  attention_forward head_dim which (Some (k, v)) use_cache fused_qkv m
    = (OK (kl, vl, present), m') ->
  length (regions m') = length (regions m) + 2.
Proof.
  intros ((rk & rv & Hk & Hv & Hlk & Hlv) & Hne & Hsv) Hfull Hrun.
  set (n := length fused_qkv + size2 k + KV_CACHE_ALLOC_BLOCK_LENGTH).
  destruct (le_lt_dec (2 * n) (free_slots m)) as [Hfree|Hno].
  2:{ destruct (forward_grow_oom which m k v use_cache fused_qkv Hfull Hno) as [m'' Hoom].
      rewrite Hoom in Hrun. discriminate. }
  rewrite (forward_grow which m k v use_cache fused_qkv rk rv) in Hrun by (done || lia).
  injection Hrun as <- <- <- <-. cbn [regions]. rewrite length_app. done.
Qed.

Lemma one_head_session_allocates which (steps : list (list (Row * Row))) :
  forall m k v k' v' m',
    valid_cache m k v ->
    cache_is_full head_dim k = true ->
    decode_session head_dim which 1 steps (Some (k, v)) m = (OK (Some (k', v')), m') ->
    length (regions m') = length (regions m) + 2 * length steps.
Proof.
  induction steps as [|fused_qkv rest IH]; intros m k v k' v' m' Hvalid Hfull Hrun.
  - injection Hrun as <- <- <-. cbn [length]. lia.
  - cbn [decode_session] in Hrun.
    apply bind_inv in Hrun as [([[kl vl] present] & m1 & Hstep & Hrest) | (e & _ & [=])].
    pose proof (forward_full_allocates which m k v true fused_qkv kl vl present m1
                  Hvalid Hfull Hstep) as Hgrown.
    destruct (forward_cached_content which m k v true fused_qkv kl vl present m1 Hvalid Hstep)
      as (k1 & v1 & past_k & past_v & -> & -> & -> & Hvalid1 & _).
    cbn [present_of as_layer_past] in Hrest.
    apply IH in Hrest; [| by apply view_heads_valid | apply view_heads_one_full].
    rewrite Hrest, Hgrown. cbn [length]. lia.
Qed.

(** X22. With one head in the cache, a session allocates at every call:
    the view of line 98 gives the cache that is handed back the stride
    [size(2) * size(3)], the probe of line 100 holds, and the cache is
    copied to two new regions, whatever room the old ones had. *)
Theorem one_kv_head_session_allocates_per_step which (steps : list (list (Row * Row)))
    m k v m' :
  decode_session head_dim which 1 steps None m = (OK (Some (k, v)), m') ->
  length (regions m') = length (regions m) + 2 * length steps /\
  cache_is_full head_dim k = true.
Proof.
  intros Hrun. destruct steps as [|fused_qkv rest]; [discriminate |].
  cbn [decode_session] in Hrun.
  apply bind_inv in Hrun as [([[kl vl] present] & m1 & Hstep & Hrest) | (e & _ & [=])].
  destruct (forward_first_content which m fused_qkv kl vl present m1 Hstep)
    as (k1 & v1 & -> & -> & -> & Hvalid1 & _).
  assert (length (regions m1) = length (regions m) + 2) as Hfirst.
  { set (n := length fused_qkv + KV_CACHE_ALLOC_BLOCK_LENGTH).
    destruct (le_lt_dec (2 * n) (free_slots m)) as [Hfree|Hno].
    2:{ destruct (forward_first_oom which m fused_qkv Hno) as [m'' Hoom].
        rewrite Hoom in Hstep. discriminate. }
    rewrite (forward_first_step which m fused_qkv Hfree) in Hstep.
    pose proof (f_equal snd Hstep) as Hm. cbn [snd] in Hm. rewrite <- Hm.
    cbn [regions]. by rewrite length_app. }
  cbn [as_layer_past] in Hrest. split.
  - apply one_head_session_allocates in Hrest;
      [| by apply view_heads_valid | apply view_heads_one_full].
    rewrite Hrest, Hfirst. cbn [length]. lia.
  - clear Hstep Hfirst Hvalid1.
    assert (forall (rest' : list (list (Row * Row))) ma ka va,
              cache_is_full head_dim ka = true ->
              decode_session head_dim which 1 rest' (Some (ka, va)) ma
                = (OK (Some (k, v)), m') ->
              cache_is_full head_dim k = true) as Hkeep.
    { induction rest' as [|step rest' IH]; intros ma ka va Hfull Hr.
      - by injection Hr as <- <- <-.
      - cbn [decode_session] in Hr.
        apply bind_inv in Hr as [([[kl' vl'] present'] & mb & Hs & Hr) | (e & _ & [=])].
        apply forward_cached_inv in Hs as (_ & _ & Hok).
        destruct (Hok _ _ _ eq_refl) as (kb & vb & _ & _ & -> & _).
        cbn [present_of as_layer_past] in Hr.
        eapply IH; [|exact Hr]. apply view_heads_one_full. }
    eapply Hkeep; [|exact Hrest]. apply view_heads_one_full.
Qed.

(** *** What a pass leaves alone *)

Lemma forward_cached_frame which cache_k cache_v use_cache (fused_qkv : list (Row * Row))
    m res m' :
  attention_forward head_dim which (Some (cache_k, cache_v)) use_cache fused_qkv m
    = (res, m') ->
  length (regions m) <= length (regions m') /\
  forall p, p < length (regions m) -> p <> data_ptr cache_k -> p <> data_ptr cache_v ->
            same_region p m m'.
Proof.
  rewrite forward_unfold. unfold attention_forward_kv, split_heads. intros H.
  assert (forall ma mb : Mem Row,
            (length (regions m) <= length (regions ma) /\
             forall p, p < length (regions m) -> same_region p m ma) ->
            (length (regions mb) = length (regions ma) /\
             forall p, p < length (regions m) -> p <> data_ptr cache_k ->
                       p <> data_ptr cache_v -> same_region p ma mb) ->
            length (regions m) <= length (regions mb) /\
            forall p, p < length (regions m) -> p <> data_ptr cache_k ->
                      p <> data_ptr cache_v -> same_region p m mb) as Htrans.
  { intros ma mb [Hla Ha] [Hlb Hb]. split; [lia |]. intros p Hp Hk Hv.
    unfold same_region in *. rewrite Hb by done. by apply Ha. }
  assert (forall (res1 : Result (Tensor * Tensor)) m1,
            (if cache_is_full head_dim cache_k
             then bind (extend_kv_cache head_dim (size2 cache_k)
                          (length fused_qkv.*1 + size2 cache_k + KV_CACHE_ALLOC_BLOCK_LENGTH))
                       (fun '(new_cache_k, new_cache_v) =>
                          bind (copy_view new_cache_k cache_k)
                               (fun _ => bind (copy_view new_cache_v cache_v)
                                              (fun _ => ret (new_cache_k, new_cache_v))))
             else ret (cache_k, cache_v)) m = (res1, m1) ->
            length (regions m) <= length (regions m1) /\
            forall p, p < length (regions m) -> same_region p m m1) as Hgrow.
  { intros res1 m1 Hg. destruct (cache_is_full head_dim cache_k).
    - apply extend_and_copy_inv in Hg as (Hf & Hl & _). by split.
    - injection Hg as <- <-. by split. }
  apply bind_inv in H as [([kl0 vl0] & m3 & H & Hret) | (e & H & ->)].
  - injection Hret as <- <-.
    apply bind_inv in H as [([k1 v1] & m1 & Hg & H) | (e & Hg & [=])].
    apply bind_inv in H as [([k2 v2] & m2 & Ha & H) | (e & Ha & [=])].
    injection H as <- <- <-.
    apply append_kv_cache_inv in Ha as (Hfa & Hla & _ & _).
    apply (Htrans m1); [by eapply Hgrow |]. split; [done |].
    intros p Hp Hk Hv. apply Hfa.
    + destruct (cache_is_full head_dim cache_k).
      * apply extend_and_copy_inv in Hg as (_ & _ & Hog).
        destruct (Hog k1 v1 eq_refl) as (-> & _). lia.
      * by injection Hg as <- <- <-.
    + destruct (cache_is_full head_dim cache_k).
      * apply extend_and_copy_inv in Hg as (_ & _ & Hog).
        destruct (Hog k1 v1 eq_refl) as (_ & -> & _). lia.
      * by injection Hg as <- <- <-.
  - apply bind_inv in H as [([k1 v1] & m1 & Hg & H) | (e1 & Hg & [= ->])].
    + apply bind_inv in H as [([k2 v2] & m2 & Ha & [=]) | (e2 & Ha & [= ->])].
      apply append_kv_cache_inv in Ha as (Hfa & Hla & _ & _).
      apply (Htrans m1); [by eapply Hgrow |]. split; [done |].
      intros p Hp Hk Hv. apply Hfa.
      * destruct (cache_is_full head_dim cache_k).
        -- apply extend_and_copy_inv in Hg as (_ & _ & Hog).
           destruct (Hog k1 v1 eq_refl) as (-> & _). lia.
        -- by injection Hg as <- <- <-.
      * destruct (cache_is_full head_dim cache_k).
        -- apply extend_and_copy_inv in Hg as (_ & _ & Hog).
           destruct (Hog k1 v1 eq_refl) as (_ & -> & _). lia.
        -- by injection Hg as <- <- <-.
    + destruct (Hgrow _ _ Hg) as [Hl Hf]. split; [done |]. intros p Hp _ _. by apply Hf.
Qed.

Lemma forward_first_frame which use_cache (fused_qkv : list (Row * Row)) m res m' :
  attention_forward head_dim which None use_cache fused_qkv m = (res, m') ->
  length (regions m) <= length (regions m') /\
  forall p, p < length (regions m) -> same_region p m m'.
Proof.
  rewrite forward_unfold. unfold attention_forward_kv, split_heads. intros H.
  destruct use_cache.
  2:{ injection H as <- <-. by split. }
  assert (forall (res1 : Result (Layer Row * Layer Row)) m1,
            bind (init_kv_cache head_dim (length fused_qkv.*1)
                    (length fused_qkv.*1 + KV_CACHE_ALLOC_BLOCK_LENGTH))
                 (fun '(new_key_states, new_value_states) =>
                    bind (setitem_all new_key_states (Some <$> fused_qkv.*1))
                         (fun _ => bind (setitem_all new_value_states (Some <$> fused_qkv.*2))
                                        (fun _ => ret (View new_key_states,
                                                       View new_value_states)))) m
              = (res1, m1) ->
            length (regions m) <= length (regions m1) /\
            forall p, p < length (regions m) -> same_region p m m1) as Hinit.
  { intros res1 m1 Hi.
    apply bind_inv in Hi as [([k1 v1] & ma & Hi & Hs) | (e & Hi & ->)].
    2:{ apply init_kv_cache_inv in Hi as (Hf & Hl & _). by split. }
    apply init_kv_cache_inv in Hi as (Hf & Hl & Hok).
    destruct (Hok k1 v1 eq_refl) as (Hpk & Hpv & _).
    apply bind_inv in Hs as [([] & mb & Hs1 & Hs) | (e & Hs1 & ->)].
    2:{ apply setitem_all_inv in Hs1 as (Hf1 & Hl1). split; [lia |].
        intros p Hp. unfold same_region in *. rewrite Hf1 by lia. by apply Hf. }
    apply setitem_all_inv in Hs1 as (Hf1 & Hl1).
    apply bind_inv in Hs as [([] & mc & Hs2 & Hs) | (e & Hs2 & ->)].
    2:{ apply setitem_all_inv in Hs2 as (Hf2 & Hl2). split; [lia |].
        intros p Hp. unfold same_region in *. rewrite Hf2, Hf1 by lia. by apply Hf. }
    apply setitem_all_inv in Hs2 as (Hf2 & Hl2).
    injection Hs as <- <-. split; [lia |].
    intros p Hp. unfold same_region in *. rewrite Hf2, Hf1 by lia. by apply Hf. }
  apply bind_inv in H as [([kl0 vl0] & m3 & H & Hret) | (e & H & ->)].
  - injection Hret as <- <-. by eapply Hinit.
  - by eapply Hinit.
Qed.

(** X20. A pass leaves the caches of all other layers alone. Whatever
    its outcome, a forward pass removes no region, and a view on a region
    that existed before the call and is not one of the two regions of its
    own [layer_past] shows afterwards what it showed before, with the
    capacity it had. *)
Theorem pass_leaves_other_caches_alone which layer_past use_cache
    (fused_qkv : list (Row * Row)) m res m' t :
  attention_forward head_dim which layer_past use_cache fused_qkv m = (res, m') ->
  data_ptr t < length (regions m) ->
  (forall cache_k cache_v, layer_past = Some (cache_k, cache_v) ->
     data_ptr t <> data_ptr cache_k /\ data_ptr t <> data_ptr cache_v) ->
  length (regions m) <= length (regions m') /\
  read m' t = read m t /\
  capacity m' t = capacity m t.
Proof.
  intros Hrun Hold Hother.
  assert (length (regions m) <= length (regions m') /\
          same_region (data_ptr t) m m') as [Hlen Hsame].
  { destruct layer_past as [[cache_k cache_v]|].
    - destruct (Hother cache_k cache_v eq_refl) as [Hk Hv].
      apply forward_cached_frame in Hrun as [Hl Hf]. split; [done |]. by apply Hf.
    - apply forward_first_frame in Hrun as [Hl Hf]. split; [done |]. by apply Hf. }
  split_and!; [done | by apply (same_region_read (data_ptr t)) |].
  unfold capacity. by rewrite Hsame.
Qed.

End FalconProofs.

(** *** Concrete runs *)

Section FalconRuns.

Import Falcon Demo.

(** C2, the code at an input where it departs from the claim. A first
    step of one token leaves a cache of capacity 257 and length 1. A second
    step of 257 tokens needs 258 slots: the capacity is below the required
    length, yet the probe does not fire, no region is allocated, and the
    append raises. *)
Theorem growth_probe_misses_multi_token_append (which : variant) :
  exists k v m1,
    attention_forward 64 which None true (demo_rows 1) (mkMem [] 2000)
      = (OK (View k, View v, Some (View k, View v)), m1) /\
    capacity m1 k = Some 257 /\ size2 k = 1 /\
    cache_is_full 64 k = false /\
    attention_forward 64 which (Some (k, v)) true (demo_rows 257) m1
      = (Err CapacityExceeded, m1).
Proof.
  destruct which; eexists _, _, _; (split; [vm_compute; reflexivity |]);
    split_and!; vm_compute; reflexivity.
Qed.

Lemma growth_preserves_data_witness :
  exists k' v' m',
    attention_forward 1 FALCON (Some (full_k, full_v)) true (demo_rows 1) (full_mem 600)
      = (OK (View k', View v', Some (View k', View v')), m') /\
    take 2 <$> read m' k' = read (full_mem 600) full_k /\
    take 2 <$> read m' v' = read (full_mem 600) full_v /\
    capacity m' k' = Some 259 /\
    capacity m' v' = Some 259 /\
    size2 k' = 3 /\ size2 v' = 3.
Proof.
  apply (growth_preserves_data nat 1 FALCON (full_mem 600) full_k full_v true (demo_rows 1)
           [Some 1; Some 2] [Some 1001; Some 1002]);
    vm_compute; (reflexivity || lia).
Defined.

(** The second allocation of the extension runs out of memory. *)
Lemma growth_is_atomic_witness :
  let run := attention_forward 1 FALCON (Some (full_k, full_v)) true (demo_rows 1)
                               (full_mem 300) in
  (cache_is_full 1 full_k = true ->
     regions (snd run) !! data_ptr full_k = regions (full_mem 300) !! data_ptr full_k /\
     regions (snd run) !! data_ptr full_v = regions (full_mem 300) !! data_ptr full_v /\
     read (snd run) full_k = read (full_mem 300) full_k /\
     read (snd run) full_v = read (full_mem 300) full_v) /\
  (size2 full_v = size2 full_k ->
     read (snd run) full_k = read (full_mem 300) full_k /\
     read (snd run) full_v = read (full_mem 300) full_v).
Proof.
  intros run.
  apply (growth_is_atomic nat 1 FALCON (full_mem 300) full_k full_v true (demo_rows 1)
           (fst run) (snd run)).
  - vm_compute. lia.
  - vm_compute. lia.
  - apply surjective_pairing.
Defined.

Example growth_out_of_memory :
  fst (attention_forward 1 FALCON (Some (full_k, full_v)) true (demo_rows 1) (full_mem 300))
    = Err AllocationFailure /\
  length (regions (snd (attention_forward 1 FALCON (Some (full_k, full_v)) true
                                          (demo_rows 1) (full_mem 300)))) = 3.
Proof. split; vm_compute; reflexivity. Qed.

Lemma present_in_lockstep_witness :
  let run := attention_forward 1 RW_7B (Some (full_k, full_v)) true (demo_rows 2)
                               (full_mem 600) in
  exists k v,
    Some (@View nat (mkTensor 2 4 260), @View nat (mkTensor 3 4 260))
      = Some (View k, View v) /\
    @View nat (mkTensor 2 4 260) = View k /\ @View nat (mkTensor 3 4 260) = View v /\
    size2 k = past_length (Some (full_k, full_v)) + length (demo_rows 2) /\
    size2 v = past_length (Some (full_k, full_v)) + length (demo_rows 2).
Proof.
  intros run.
  apply (present_in_lockstep nat 1 RW_7B (Some (full_k, full_v)) (demo_rows 2) (full_mem 600)
           _ _ _ (snd run)).
  - by intros ? ? [= <- <-].
  - vm_compute. reflexivity.
Defined.

(** In [demo_steps] the cache is extended once, after 256 single steps. *)
Lemma cache_grows_by_blocks_witness :
  let run := decode_session 1 FALCON 2 demo_steps None (mkMem [] 2000) in
  size2 (mkTensor 2 303 516) = total_rows demo_steps /\
  KV_CACHE_ALLOC_BLOCK_LENGTH * allocations (snd run)
    <= size2 (mkTensor 2 303 516) + KV_CACHE_ALLOC_BLOCK_LENGTH.
Proof.
  intros run.
  apply (proj2 (proj2 (cache_grows_by_blocks nat 1 FALCON)) ltac:(lia)
           2 demo_steps 2000 (mkTensor 2 303 516) (mkTensor 3 303 516) (snd run)
           ltac:(lia)).
  vm_compute. reflexivity.
Defined.

Example demo_session_allocations :
  allocations (snd (decode_session 1 FALCON 2 demo_steps None (mkMem [] 2000))) = 2.
Proof. vm_compute. reflexivity. Qed.

(** C4, the code at an input where it departs from the claim. A session
    of four calls with one position each, on a model with one head in its
    cache ([self.num_kv = 1] in [rw_attention_forward_7b],
    [num_kv_heads = 1] in [falcon_attention_forward]). Every allocation has
    [kv_length + 256] slots, as the claim says, but every call makes one:
    four allocations for four positions, where the bound of the claim allows
    one. The same session with two heads makes one allocation. *)
Theorem one_kv_head_reallocates_every_step (which : variant) :
  let steps := replicate 4 (demo_rows 1) in
  exists k v m',
    decode_session 64 which 1 steps None (mkMem [] 3000) = (OK (Some (k, v)), m') /\
    size2 k = 4 /\
    capacity m' k = Some (4 + KV_CACHE_ALLOC_BLOCK_LENGTH) /\
    allocations m' = 4 /\
    ~ KV_CACHE_ALLOC_BLOCK_LENGTH * allocations m' <= size2 k + KV_CACHE_ALLOC_BLOCK_LENGTH /\
    allocations (decode_session 64 which 2 steps None (mkMem [] 3000)).2 = 1.
Proof.
  intros steps. destruct which; eexists _, _, _;
    (split; [vm_compute; reflexivity |]);
    (split_and!; [vm_compute; reflexivity | vm_compute; reflexivity
                 | vm_compute; reflexivity | vm_compute; lia | vm_compute; reflexivity]).
Qed.

Lemma roomy_valid free : valid_cache (roomy_mem free) roomy_k roomy_v.
Proof.
  split_and!; [| cbn; lia | reflexivity].
  eexists _, _. split_and!; [reflexivity | reflexivity | cbn; lia | cbn; lia].
Defined.

(** One row appended in place to the cache with room. *)
Lemma cached_pass_appends_rows_witness :
  let run := attention_forward 1 FALCON (Some (roomy_k, roomy_v)) false (demo_rows 1)
               (roomy_mem 10) in
  exists k' v' past_k past_v,
    (View (mkTensor 0 3 4) : Layer nat) = View k' /\
    (View (mkTensor 1 3 4) : Layer nat) = View v' /\
    read (roomy_mem 10) roomy_k = Some past_k /\ read (roomy_mem 10) roomy_v = Some past_v /\
    read (snd run) k' = Some (past_k ++ (Some <$> (demo_rows 1).*1)) /\
    read (snd run) v' = Some (past_v ++ (Some <$> (demo_rows 1).*2)) /\
    size2 k' = size2 roomy_k + length (demo_rows 1) /\ size2 v' = size2 k'.
Proof.
  intros run.
  apply (cached_pass_appends_rows nat 1 FALCON (roomy_mem 10) roomy_k roomy_v false
           (demo_rows 1) (View (mkTensor 0 3 4)) (View (mkTensor 1 3 4)) None (snd run)
           (roomy_valid 10)).
  vm_compute. reflexivity.
Defined.

(** The cache of [demo_steps] after its one extension. *)
Lemma session_cache_holds_all_rows_witness :
  let run := decode_session 1 FALCON 2 demo_steps None (mkMem [] 2000) in
  shows (snd run) (mkTensor 2 303 516) (concat demo_steps).*1 /\
  shows (snd run) (mkTensor 3 303 516) (concat demo_steps).*2.
Proof.
  intros run.
  apply (session_cache_holds_all_rows nat 1 FALCON 2 demo_steps (mkMem [] 2000)).
  vm_compute. reflexivity.
Defined.

(** [demo_steps] with memory for the first allocation only. *)
Lemma single_token_session_never_overflows_witness :
  let run := decode_session 1 FALCON 1 demo_steps None (mkMem [] 1000) in
  fst run = Err AllocationFailure \/ exists k v, fst run = OK (Some (k, v)).
Proof.
  intros run.
  apply (single_token_session_never_overflows nat 1 FALCON 1 (demo_rows 3)
           (replicate 300 (demo_rows 1)) (mkMem [] 1000) (fst run) (snd run)).
  - lia.
  - apply Forall_replicate. reflexivity.
  - vm_compute. reflexivity.
Defined.

Example demo_session_out_of_memory :
  fst (decode_session 1 FALCON 1 demo_steps None (mkMem [] 1000)) = Err AllocationFailure.
Proof. vm_compute. reflexivity. Qed.

Lemma single_token_session_completes_witness :
  exists k v m',
    decode_session 1 FALCON 1 (demo_rows 3 :: replicate 2 (demo_rows 1)) None
                   (mkMem [] 2000)
      = (OK (Some (k, v)), m') /\
    size2 k = length (demo_rows 3) + length (replicate 2 (demo_rows 1)).
Proof.
  apply (single_token_session_completes nat 1 FALCON 1 (demo_rows 3)
           (replicate 2 (demo_rows 1)) (mkMem [] 2000)).
  - lia.
  - apply Forall_replicate. reflexivity.
  - vm_compute. lia.
Defined.

(** A session of one call with two heads leaves a cache of length 1 and
    capacity 257; two more rows fit. *)
Lemma append_in_place_reuses_storage_witness :
  let run := decode_session 1 FALCON 2 [demo_rows 1] None (mkMem [] 2000) in
  let k := mkTensor 0 1 257 in
  let v := mkTensor 1 1 257 in
  exists k' v' m',
    attention_forward 1 FALCON (Some (k, v)) true (demo_rows 2) run.2
      = (OK (View k', View v', present_of true k' v'), m') /\
    data_ptr k' = data_ptr k /\ data_ptr v' = data_ptr v /\
    size2 k' = size2 k + length (demo_rows 2) /\
    length (regions m') = length (regions run.2) /\
    free_slots m' = free_slots run.2 /\
    (forall p, p <> data_ptr k -> p <> data_ptr v -> same_region p run.2 m') /\
    capacity m' k' = Some 257 /\ capacity m' v' = Some 257.
Proof.
  intros run k v.
  apply (append_in_place_reuses_storage nat 1 FALCON 2 [demo_rows 1] (mkMem [] 2000)
           run.2 k v 257 true (demo_rows 2)).
  - lia.
  - lia.
  - vm_compute. reflexivity.
  - vm_compute. reflexivity.
  - cbn. lia.
  - cbn. lia.
Defined.

(** The same cache, and 257 rows for the 256 slots that are left. *)
Lemma multi_token_append_overflows_witness :
  let run := decode_session 1 FALCON 2 [demo_rows 1] None (mkMem [] 2000) in
  attention_forward 1 FALCON (Some (mkTensor 0 1 257, mkTensor 1 1 257)) true
                    (demo_rows 257) run.2
    = (Err CapacityExceeded, run.2).
Proof.
  intros run.
  apply (multi_token_append_overflows nat 1 FALCON 2 [demo_rows 1] (mkMem [] 2000)
           run.2 (mkTensor 0 1 257) (mkTensor 1 1 257) 257 true (demo_rows 257)).
  - lia.
  - lia.
  - vm_compute. reflexivity.
  - vm_compute. reflexivity.
  - cbn. lia.
  - vm_compute. lia.
Defined.

(** Four calls with one head: eight regions. *)
Lemma one_kv_head_session_allocates_per_step_witness :
  let steps := replicate 4 (demo_rows 1) in
  let run := decode_session 1 RW_7B 1 steps None (mkMem [] 3000) in
  length (regions run.2) = length (regions (mkMem (Row:=nat) [] 3000)) + 2 * length steps /\
  cache_is_full 1 (mkTensor 6 4 4) = true.
Proof.
  intros steps run.
  apply (one_kv_head_session_allocates_per_step nat 1 RW_7B steps (mkMem [] 3000)
           (mkTensor 6 4 4) (mkTensor 7 4 4) run.2).
  vm_compute. reflexivity.
Defined.

(** A third region, as the cache of another layer would be, while the
    cache with room is appended to. *)
Lemma pass_leaves_other_caches_alone_witness :
  let m := mkMem (regions (roomy_mem 10) ++ [[Some 7]]) 10 in
  let run := attention_forward 1 FALCON (Some (roomy_k, roomy_v)) true (demo_rows 2) m in
  length (regions m) <= length (regions run.2) /\
  read run.2 (mkTensor 2 1 1) = read m (mkTensor 2 1 1) /\
  capacity run.2 (mkTensor 2 1 1) = capacity m (mkTensor 2 1 1).
Proof.
  intros m run.
  apply (pass_leaves_other_caches_alone nat 1 FALCON (Some (roomy_k, roomy_v)) true
           (demo_rows 2) m run.1 run.2 (mkTensor 2 1 1)).
  - vm_compute. reflexivity.
  - cbn. lia.
  - intros cache_k cache_v [= <- <-]. split; cbn; lia.
Defined.

End FalconRuns.

(** ** Proofs about eviction and truncation *)

Section PolicyProofs.

Import KVCache.

Variable Row : Type.

Implicit Types (b : CacheBuffer Row) (cs : CacheLayerSet Row).

Lemma truncate_length keep_front keep_back b :
  keep_front + keep_back <= buf_length b ->
  buf_length (truncate_front_and_back keep_front keep_back b) = keep_front + keep_back.
Proof.
  unfold truncate_front_and_back, buf_length. cbn [rows]. intros Hle.
  rewrite length_app, length_take, length_drop. lia.
Qed.

(** Position [i] of a compacted buffer is the original position [i] in the
    sink window, and the original position
    [length - keep_back + (i - keep_front)] after it. *)
Lemma truncate_positions keep_front keep_back b :
  keep_front + keep_back <= buf_length b ->
  let b' := truncate_front_and_back keep_front keep_back b in
  buf_length b' = keep_front + keep_back /\
  (forall i, i < keep_front -> rows b' !! i = rows b !! i) /\
  (forall i, keep_front <= i < keep_front + keep_back ->
             rows b' !! i = rows b !! (buf_length b - keep_back + (i - keep_front))).
Proof.
  intros Hle b'. split; [by apply truncate_length |].
  unfold b', truncate_front_and_back, buf_length in *. cbn [rows]. split.
  - intros i Hi. rewrite lookup_app_l by (rewrite length_take; lia).
    by apply lookup_take_lt.
  - intros i Hi. rewrite lookup_app_r by (rewrite length_take; lia).
    rewrite length_take, lookup_drop. f_equal. lia.
Qed.

Lemma compact_all_uniform keep_front keep_back n cs :
  keep_front + keep_back <= n ->
  uniform_length n cs ->
  uniform_length (keep_front + keep_back) (compact_all keep_front keep_back cs).
Proof.
  intros Hle Hu. unfold uniform_length, compact_all in *.
  apply Forall_fmap. eapply Forall_impl; [exact Hu |].
  intros [k v] [Hk Hv]. cbn in *. split; apply truncate_length; lia.
Qed.

Lemma evict_no_need (self : StartRecentKVCache) cs space_needed :
  current_length cs + space_needed <= max_cache_len self + start_size self ->
  evict_for_space self cs space_needed = OK cs.
Proof.
  intros Hroom. unfold evict_for_space.
  destruct (current_length cs <=? start_size self); [done |].
  by rewrite (proj2 (Nat.leb_le _ _) Hroom).
Qed.

Lemma evict_compacts (self : StartRecentKVCache) cs space_needed :
  max_cache_len self + start_size self < current_length cs + space_needed ->
  space_needed <= max_cache_len self ->
  evict_for_space self cs space_needed
    = OK (compact_all (start_size self) (max_cache_len self - space_needed) cs).
Proof.
  intros Hfull Hok. unfold evict_for_space.
  rewrite (proj2 (Nat.leb_gt (current_length cs) (start_size self))) by lia.
  rewrite (proj2 (Nat.leb_gt _ _) Hfull).
  by rewrite (proj2 (Nat.ltb_ge _ _) Hok).
Qed.

Lemma evict_inv (self : StartRecentKVCache) cs space_needed cs' :
  evict_for_space self cs space_needed = OK cs' ->
  cs' = cs \/
  (cs' = compact_all (start_size self) (max_cache_len self - space_needed) cs /\
   start_size self + (max_cache_len self - space_needed) < current_length cs).
Proof.
  unfold evict_for_space.
  destruct (current_length cs <=? start_size self) eqn:Hsink; [intros [= <-]; by left |].
  destruct (current_length cs + space_needed <=? max_cache_len self + start_size self)
    eqn:Hroom; [intros [= <-]; by left |].
  destruct (max_cache_len self <? space_needed) eqn:Hbad; [done |].
  intros [= <-]. right. split; [done |].
  apply Nat.leb_gt in Hsink, Hroom. apply Nat.ltb_ge in Hbad. lia.
Qed.

(** C3. The eviction threshold. With room for the request
    ([length + space_needed <= max_cache_len + start_size]) the cache set
    comes back unchanged; otherwise, for a request within the ceiling, every
    layer is compacted with [keep_front = start_size] and
    [keep_back = max_cache_len - space_needed]. For [start_size = 4] and
    [max_cache_len = 20]: a set of length 18 asked for 5 more comes back
    unchanged, and a set of length 22 asked for 5 more is compacted with
    [keep_back = 15] to length 19 in every buffer. *)
Theorem evict_for_space_threshold :
  (forall (self : StartRecentKVCache) cs space_needed,
     current_length cs + space_needed <= max_cache_len self + start_size self ->
     evict_for_space self cs space_needed = OK cs) /\
  (forall (self : StartRecentKVCache) cs space_needed,
     max_cache_len self + start_size self < current_length cs + space_needed ->
     space_needed <= max_cache_len self ->
     evict_for_space self cs space_needed
       = OK (compact_all (start_size self) (max_cache_len self - space_needed) cs)) /\
  (forall cs, current_length cs = 18 ->
     evict_for_space (mkPolicy 4 20) cs 5 = OK cs) /\
  (forall cs, current_length cs = 22 -> uniform_length 22 cs ->
     evict_for_space (mkPolicy 4 20) cs 5 = OK (compact_all 4 15 cs) /\
     uniform_length 19 (compact_all 4 15 cs) /\
     current_length (compact_all 4 15 cs) = 19).
Proof.
  split_and!.
  - apply evict_no_need.
  - apply evict_compacts.
  - intros cs Hlen. apply evict_no_need. cbn. lia.
  - intros cs Hlen Hu. split_and!.
    + rewrite (evict_compacts (mkPolicy 4 20) cs 5); cbn; [done | lia | lia].
    + apply (compact_all_uniform 4 15 22); [lia | done].
    + destruct cs as [|[k v] rest]; [done |]. cbn in *.
      apply (truncate_length 4 15 k). lia.
Qed.

End PolicyProofs.

(** ** Proofs about slices of strings *)

Section StringProofs.

Import Chat.

Lemma append_nil_l d : "" +:+ d = d.
Proof. reflexivity. Qed.

Lemma append_cons c s d : String c s +:+ d = String c (s +:+ d).
Proof. reflexivity. Qed.

Lemma substring_full s : String.substring 0 (String.length s) s = s.
Proof. induction s as [|c s IH]; cbn; [done | by rewrite IH]. Qed.

Lemma substring_nothing n s : String.substring n 0 s = "".
Proof.
  revert n. induction s as [|c s IH]; intros [|n]; cbn; auto.
Qed.

Lemma append_nil_r s : s +:+ "" = s.
Proof. induction s as [|c s IH]; [done | by rewrite append_cons, IH]. Qed.

Lemma append_assoc s1 s2 s3 : (s1 +:+ s2) +:+ s3 = s1 +:+ (s2 +:+ s3).
Proof. induction s1 as [|c s1 IH]; [done | by rewrite !append_cons, IH]. Qed.

Lemma length_append r d : String.length (r +:+ d) = String.length r + String.length d.
Proof. induction r as [|c r IH]; [done | rewrite append_cons; cbn; by rewrite IH]. Qed.

Lemma prefix_append r r' : String.prefix r r' = true -> exists d, r' = r +:+ d.
Proof.
  revert r'. induction r as [|c r IH]; intros r' Hpre; [by exists r' |].
  destruct r' as [|c' r']; cbn in Hpre; [done |].
  destruct (Ascii.ascii_dec c c') as [<-|]; [|done].
  destruct (IH r' Hpre) as [d ->]. by exists d.
Qed.

Lemma prefix_of_append r d : String.prefix r (r +:+ d) = true.
Proof.
  induction r as [|c r IH]; [by destruct d |].
  rewrite append_cons. cbn. by destruct (Ascii.ascii_dec c c).
Qed.

Lemma substring_prefix_app a r d :
  a <= String.length r -> String.substring 0 a (r +:+ d) = String.substring 0 a r.
Proof.
  revert a. induction r as [|c r IH]; intros a Ha; cbn in Ha.
  - replace a with 0 by lia. by rewrite !substring_nothing.
  - rewrite append_cons. destruct a as [|a]; cbn; [done |]. rewrite IH by lia. done.
Qed.

Lemma substring_split a b s :
  a <= b -> b <= String.length s ->
  String.substring 0 a s +:+ String.substring a (b - a) s = String.substring 0 b s.
Proof.
  revert a b. induction s as [|c s IH]; intros a b Hab Hb; cbn in Hb.
  - replace b with 0 by lia. replace a with 0 by lia. done.
  - destruct a as [|a].
    + cbn [String.substring]. by rewrite append_nil_l, Nat.sub_0_r.
    + destruct b as [|b]; [lia |]. cbn [String.substring Nat.sub].
      rewrite append_cons, IH by lia. done.
Qed.

Lemma py_from_app r d c :
  c <= String.length r -> py_from (r +:+ d) (Z.of_nat c) = py_from r (Z.of_nat c) +:+ d.
Proof.
  unfold py_from. rewrite Nat2Z.id. revert c.
  induction r as [|a r IH]; intros c Hc; cbn in Hc.
  - replace c with 0 by lia. rewrite append_nil_l.
    rewrite Nat.sub_0_r, substring_full, substring_nothing. done.
  - destruct c as [|c].
    + rewrite !Nat.sub_0_r, !substring_full. done.
    + rewrite append_cons. cbn [String.length Nat.sub String.substring]. apply IH. lia.
Qed.

Lemma py_from_past_end r c : String.length r <= c -> py_from r (Z.of_nat c) = "".
Proof.
  intros Hc. unfold py_from. rewrite Nat2Z.id.
  replace (String.length r - c) with 0 by lia. apply substring_nothing.
Qed.

Lemma py_from_length r d : py_from (r +:+ d) (Z.of_nat (String.length r)) = d.
Proof. rewrite py_from_app by done. by rewrite py_from_past_end. Qed.

Lemma concat_cons piece pieces :
  String.concat "" (piece :: pieces) = piece +:+ String.concat "" pieces.
Proof. destruct pieces; cbn; [by rewrite append_nil_r | done]. Qed.

Lemma concat_snoc pieces piece :
  String.concat "" (pieces ++ [piece]) = String.concat "" pieces +:+ piece.
Proof.
  induction pieces as [|p ps IH]; [done |].
  cbn [app]. by rewrite !concat_cons, IH, append_assoc.
Qed.

End StringProofs.

Section TruncationProofs.

Import KVCache.

Variable Row : Type.
Variable History : Type.

Implicit Types (val : list Row) (st : Chat.GLMState Row History).

Lemma py_last_length k val :
  0 < k -> length (Chat.py_last k val) = length val `min` k.
Proof.
  intros Hk. unfold Chat.py_last.
  rewrite (proj2 (Nat.eqb_neq k 0)) by lia.
  rewrite length_drop. lia.
Qed.

Lemma py_last_short k val :
  0 < k -> length val <= k -> Chat.py_last k val = val.
Proof.
  intros Hk Hle. unfold Chat.py_last.
  rewrite (proj2 (Nat.eqb_neq k 0)) by lia.
  by replace (length val - k) with 0 by lia.
Qed.

Lemma py_last_lookup k val i :
  0 < k -> k <= length val ->
  Chat.py_last k val !! i = val !! (length val - k + i).
Proof.
  intros Hk Hle. unfold Chat.py_last.
  rewrite (proj2 (Nat.eqb_neq k 0)) by lia.
  by rewrite lookup_drop.
Qed.

Lemma keep_recent_uniform n (past_key_values : list (list (list Row))) :
  Chat.uniform_rows n past_key_values ->
  Chat.uniform_rows (n `min` Chat.max_past_length) (Chat.keep_recent past_key_values).
Proof.
  unfold Chat.uniform_rows, Chat.keep_recent. intros Hu.
  apply Forall_fmap. eapply Forall_impl; [exact Hu |].
  intros layer Hlayer. apply Forall_fmap. eapply Forall_impl; [exact Hlayer |].
  intros val Hval. unfold compose.
  rewrite py_last_length by (unfold Chat.max_past_length; lia). by rewrite Hval.
Qed.

Lemma uniform_bounded n bound (past_key_values : list (list (list Row))) :
  n <= bound ->
  Chat.uniform_rows n past_key_values -> Chat.bounded_rows bound past_key_values.
Proof.
  intros Hle Hu. unfold Chat.uniform_rows, Chat.bounded_rows in *.
  eapply Forall_impl; [exact Hu |]. intros layer Hlayer.
  eapply Forall_impl; [exact Hlayer |]. intros val ->. exact Hle.
Qed.

Lemma glm_chunk_uniform st response (hist : History) val0 layer0 layers n :
  let past_key_values := (val0 :: layer0) :: layers in
  Chat.uniform_rows n past_key_values ->
  let kept := if Chat.max_past_length <? n
              then Chat.keep_recent past_key_values else past_key_values in
  Chat.glm_chunk st (response, hist, past_key_values)
    = OK (Chat.mkGLM hist (Some kept) (String.length response)
            (Chat.glm_printed st
               ++ [Chat.py_from response (Z.of_nat (Chat.current_length st))])) /\
  Chat.uniform_rows (n `min` Chat.max_past_length) kept.
Proof.
  intros past_key_values Hu kept.
  assert (length val0 = n) as Hval0.
  { unfold Chat.uniform_rows, past_key_values in Hu.
    apply Forall_cons_1 in Hu as [Hlayer _]. by apply Forall_cons_1 in Hlayer as [? _]. }
  split.
  - unfold Chat.glm_chunk, kept, past_key_values. by rewrite Hval0.
  - unfold kept. destruct (Chat.max_past_length <? n) eqn:Hlong.
    + by apply keep_recent_uniform.
    + apply Nat.ltb_ge in Hlong. by rewrite Nat.min_l.
Qed.

(** C8. The ChatGLM3 cache stays bounded. A chunk whose cached tensors
    all have [n] rows is processed without error; afterwards every cached
    tensor has [min n max_past_length] rows, hence at most
    [max_past_length = 2048] and the same number in every layer; when the
    truncation fires it is the one slice [val[-max_past_length:]] on every
    tensor of every layer. The same holds after any run of such chunks. *)
Theorem chatglm3_cache_bounded :
  (forall st response (hist : History) val0 layer0 layers n,
     let past_key_values := (val0 :: layer0) :: layers in
     Chat.uniform_rows n past_key_values ->
     exists st' kept,
       Chat.glm_chunk st (response, hist, past_key_values) = OK st' /\
       Chat.glm_past st' = Some kept /\
       kept = (if Chat.max_past_length <? n
               then Chat.keep_recent past_key_values else past_key_values) /\
       Chat.uniform_rows (n `min` Chat.max_past_length) kept /\
       Chat.bounded_rows Chat.max_past_length kept) /\
  (forall chunks st,
     Forall Chat.well_formed_chunk chunks ->
     exists st',
       Chat.glm_chunks st chunks = (st', OK tt) /\
       (chunks <> [] ->
        exists kept n, Chat.glm_past st' = Some kept /\
                       Chat.uniform_rows n kept /\
                       Chat.bounded_rows Chat.max_past_length kept)).
Proof.
  split.
  - intros st response hist val0 layer0 layers n past_key_values Hu.
    destruct (glm_chunk_uniform st response hist val0 layer0 layers n Hu) as [Hrun Hkept].
    eexists _, _. split; [exact Hrun |]. cbn [Chat.glm_past]. split_and!; try done.
    eapply uniform_bounded; [|exact Hkept]. lia.
  - induction chunks as [|[[response hist] past_key_values] rest IH]; intros st Hwf.
    + exists st. by split.
    + apply Forall_cons_1 in Hwf as [(n & val0 & layer0 & layers & Hshape & Hu) Hrest].
      cbn in Hshape, Hu. subst past_key_values.
      destruct (glm_chunk_uniform st response hist val0 layer0 layers n Hu) as [Hrun Hkept].
      match type of Hrun with _ = OK ?next =>
        destruct (IH next Hrest) as (st' & Hrun' & Hlast) end.
      exists st'. cbn [Chat.glm_chunks]. rewrite Hrun.
      split; [exact Hrun' |]. intros _.
      destruct rest as [|next rest'].
      * injection Hrun' as <-. cbn [Chat.glm_past]. eexists _, _.
        split_and!; [done | exact Hkept |].
        eapply uniform_bounded; [|exact Hkept]. lia.
      * by apply Hlast.
Qed.

Lemma keep_recent_lookup (past_key_values : list (list (list Row))) i j layer val :
  past_key_values !! i = Some layer -> layer !! j = Some val ->
  exists layer', Chat.keep_recent past_key_values !! i = Some layer' /\
                 layer' !! j = Some (Chat.py_last Chat.max_past_length val).
Proof.
  intros Hlayer Hval. unfold Chat.keep_recent.
  change (map ?f ?l) with (f <$> l). rewrite list_lookup_fmap, Hlayer.
  eexists. split; [reflexivity |].
  change (map ?f ?l) with (f <$> l). by rewrite list_lookup_fmap, Hval.
Qed.

(** C1, as amended. An eviction by [evict_for_space] either leaves the
    set alone or compacts every buffer to its first [start_size] rows
    followed by its last [keep_back] rows, position for position. The
    ChatGLM3 loop does not. Whenever the first tensor of a chunk has more
    than [max_past_length] rows the loop replaces the cache by its
    truncation, and by nothing else otherwise; the truncation replaces
    every tensor of every layer by its last [max_past_length] rows, and of
    a tensor that is longer it keeps nothing of the front. *)
Theorem compaction_retained_positions :
  (forall (self : StartRecentKVCache) (cs cs' : CacheLayerSet Row) space_needed,
     evict_for_space self cs space_needed = OK cs' ->
     cs' = cs \/
     (cs' = compact_all (start_size self) (max_cache_len self - space_needed) cs /\
      start_size self + (max_cache_len self - space_needed) < current_length cs)) /\
  (forall keep_front keep_back (b : CacheBuffer Row),
     keep_front + keep_back <= buf_length b ->
     let b' := truncate_front_and_back keep_front keep_back b in
     buf_length b' = keep_front + keep_back /\
     (forall i, i < keep_front -> rows b' !! i = rows b !! i) /\
     (forall i, keep_front <= i < keep_front + keep_back ->
                rows b' !! i = rows b !! (buf_length b - keep_back + (i - keep_front)))) /\
  (forall st response (hist : History) val0 layer0 layers,
     let past_key_values := (val0 :: layer0) :: layers in
     exists st',
       Chat.glm_chunk st (response, hist, past_key_values) = OK st' /\
       (Chat.max_past_length < length val0 ->
        Chat.glm_past st' = Some (Chat.keep_recent past_key_values)) /\
       (length val0 <= Chat.max_past_length ->
        Chat.glm_past st' = Some past_key_values)) /\
  (forall (past_key_values : list (list (list Row))) i j layer val,
     past_key_values !! i = Some layer -> layer !! j = Some val ->
     exists layer', Chat.keep_recent past_key_values !! i = Some layer' /\
                    layer' !! j = Some (Chat.py_last Chat.max_past_length val)) /\
  (forall val,
     Chat.max_past_length < length val ->
     length (Chat.py_last Chat.max_past_length val) = Chat.max_past_length /\
     forall i, Chat.py_last Chat.max_past_length val !! i
               = val !! (length val - Chat.max_past_length + i)).
Proof.
  split_and!.
  - intros self cs cs' space_needed. apply evict_inv.
  - apply truncate_positions.
  - intros st response hist val0 layer0 layers past_key_values.
    unfold Chat.glm_chunk, past_key_values.
    destruct (Chat.max_past_length <? length val0) eqn:Hlong.
    + apply Nat.ltb_lt in Hlong. eexists. split; [reflexivity |].
      cbn [Chat.glm_past]. split; [done | lia].
    + apply Nat.ltb_ge in Hlong. eexists. split; [reflexivity |].
      cbn [Chat.glm_past]. split; [lia | done].
  - apply keep_recent_lookup.
  - intros val Hlong. split.
    + rewrite py_last_length by (unfold Chat.max_past_length; lia). lia.
    + intros i. apply py_last_lookup; unfold Chat.max_past_length in *; lia.
Qed.


(** *** What the ChatGLM3 loop prints, and what it keeps between turns *)

Lemma glm_chunk_inv st response (hist : History) (past_key_values : list (list (list Row)))
    st' :
  Chat.glm_chunk st (response, hist, past_key_values) = OK st' ->
  Chat.glm_printed st'
    = Chat.glm_printed st ++ [Chat.py_from response (Z.of_nat (Chat.current_length st))] /\
  Chat.current_length st' = String.length response /\
  Chat.chat_history st' = hist.
Proof.
  unfold Chat.glm_chunk. destruct past_key_values as [|[|val0 layer0] layers]; try done.
  by intros [= <-].
Qed.

Lemma glm_chunks_printed (chunks : list (string * History * list (list (list Row)))) :
  forall st st' first last_response,
    Chat.growing chunks.*1.*1 ->
    Chat.glm_chunks st chunks = (st', OK tt) ->
    head chunks.*1.*1 = Some first ->
    last chunks.*1.*1 = Some last_response ->
    exists pieces grown,
      Chat.glm_printed st' = Chat.glm_printed st ++ pieces /\
      length pieces = length chunks /\
      last_response = first +:+ grown /\
      String.concat "" pieces
        = Chat.py_from last_response
            (Z.of_nat (Chat.current_length st `min` String.length first)) /\
      Chat.current_length st' = String.length last_response.
Proof.
  induction chunks as [|[[response hist] past_key_values] rest IH];
    intros st st' first last_response Hgrow Hrun Hfirst Hlast; [done |].
  cbn [fmap list_fmap fst head] in Hfirst. injection Hfirst as <-.
  cbn [Chat.glm_chunks] in Hrun.
  destruct (Chat.glm_chunk st (response, hist, past_key_values)) as [st1|e] eqn:Hchunk;
    [|done].
  apply glm_chunk_inv in Hchunk as (Hprinted & Hlen & _).
  assert (Chat.py_from response (Z.of_nat (Chat.current_length st))
          = Chat.py_from response
              (Z.of_nat (Chat.current_length st `min` String.length response))) as Hpiece.
  { destruct (le_lt_dec (Chat.current_length st) (String.length response)).
    - by rewrite Nat.min_l.
    - rewrite Nat.min_r by lia. by rewrite !py_from_past_end by lia. }
  destruct rest as [|[[response' hist'] past'] rest'].
  - injection Hrun as <-. cbn in Hlast. injection Hlast as <-.
    exists [Chat.py_from response (Z.of_nat (Chat.current_length st))], "".
    split_and!; try done. by rewrite append_nil_r.
  - cbn [fmap list_fmap fst Chat.growing] in Hgrow. destruct Hgrow as [Hpre Hgrow].
    destruct (prefix_append _ _ Hpre) as [step Hstep].
    destruct (IH st1 st' response' last_response Hgrow Hrun eq_refl Hlast)
      as (pieces & grown & Hpr & Hn & Hext & Hcat & Hcur).
    exists (Chat.py_from response (Z.of_nat (Chat.current_length st)) :: pieces),
           (step +:+ grown).
    assert (last_response = response +:+ step +:+ grown) as Hall
      by (by rewrite <- append_assoc, <- Hstep).
    split_and!.
    + rewrite Hpr, Hprinted, <- app_assoc. done.
    + cbn [length]. by rewrite Hn.
    + done.
    + rewrite concat_cons, Hcat, Hlen.
      rewrite Nat.min_l by (rewrite Hstep, length_append; lia).
      rewrite Hall at 1. rewrite py_from_length.
      rewrite Hpiece, Hall.
      by rewrite py_from_app by lia.
    + done.
Qed.

(** X15. What one turn of the ChatGLM3 loop prints. When every response
    of the turn starts with the one before, the pieces printed, one per
    chunk, add up to the last response from the offset at which the turn
    began, which is [current_length] as the turn before left it, cut down to
    the length of the first response: line 142 sets [current_length] to 0
    once, outside the [while] loop, so from the second turn on that many
    leading characters of the response are not printed. The turn leaves
    [current_length] at the length of its last response. *)
Theorem chatglm3_turn_prints_from_offset
    (chunks : list (string * History * list (list (list Row)))) st st' first last_response :
  Chat.growing chunks.*1.*1 ->
  Chat.glm_chunks st chunks = (st', OK tt) ->
  head chunks.*1.*1 = Some first ->
  last chunks.*1.*1 = Some last_response ->
  exists pieces,
    Chat.glm_printed st' = Chat.glm_printed st ++ pieces /\
    length pieces = length chunks /\
    String.concat "" pieces
      = Chat.py_from last_response
          (Z.of_nat (Chat.current_length st `min` String.length first)) /\
    Chat.current_length st' = String.length last_response.
Proof.
  intros Hgrow Hrun Hfirst Hlast.
  destruct (glm_chunks_printed chunks st st' first last_response Hgrow Hrun Hfirst Hlast)
    as (pieces & grown & Hpr & Hn & _ & Hcat & Hcur).
  by exists pieces.
Qed.

(** A cache as the loop holds it between chunks. *)
Lemma glm_chunks_keep_bound (chunks : list (string * History * list (list (list Row)))) :
  forall st,
    Forall Chat.well_formed_chunk chunks ->
    (Chat.glm_past st = None \/
     exists kept n, Chat.glm_past st = Some kept /\ Chat.uniform_rows n kept /\
                    Chat.bounded_rows Chat.max_past_length kept) ->
    exists st',
      Chat.glm_chunks st chunks = (st', OK tt) /\
      (Chat.glm_past st' = None \/
       exists kept n, Chat.glm_past st' = Some kept /\ Chat.uniform_rows n kept /\
                      Chat.bounded_rows Chat.max_past_length kept).
Proof.
  induction chunks as [|[[response hist] past_key_values] rest IH]; intros st Hwf Hinv.
  - by exists st.
  - apply Forall_cons_1 in Hwf as [(n & val0 & layer0 & layers & Hshape & Hu) Hrest].
    cbn in Hshape, Hu. subst past_key_values.
    destruct (glm_chunk_uniform st response hist val0 layer0 layers n Hu) as [Hrun Hkept].
    cbn [Chat.glm_chunks]. rewrite Hrun. apply IH; [done |].
    right. eexists _, _. cbn [Chat.glm_past]. split_and!; [done | exact Hkept |].
    eapply uniform_bounded; [|exact Hkept]. lia.
Qed.

Lemma chatglm3_loop_keeps_bound
    (model_stream_chat : string -> History -> option (list (list (list Row)))
                         -> list (string * History * list (list (list Row)))) inputs :
  (forall prompt hist past, Forall Chat.well_formed_chunk (model_stream_chat prompt hist past)) ->
  forall st,
    (Chat.glm_past st = None \/
     exists kept n, Chat.glm_past st = Some kept /\ Chat.uniform_rows n kept /\
                    Chat.bounded_rows Chat.max_past_length kept) ->
    let run := Chat.chatglm3_loop model_stream_chat inputs st in
    (Chat.glm_past run.1 = None \/
     exists kept n, Chat.glm_past run.1 = Some kept /\ Chat.uniform_rows n kept /\
                    Chat.bounded_rows Chat.max_past_length kept) /\
    ("stop" ∈ inputs -> run.2 = OK tt) /\
    ("stop" ∉ inputs -> run.2 = Err EOFError).
Proof.
  intros Hwf. induction inputs as [|user_input rest IH]; intros st Hinv run.
  - unfold run. cbn. split_and!; [done | by intros ?%elem_of_nil | done].
  - unfold run. cbn [Chat.chatglm3_loop]. case_bool_decide as Hstop.
    { subst user_input. cbn [fst snd]. split_and!; [done | done |].
      intros Hno. destruct Hno. by left. }
    cbn [Chat.chat_history Chat.glm_past Chat.current_length Chat.glm_printed].
    destruct (glm_chunks_keep_bound
                (model_stream_chat (Chat.chatglm3_prompt user_input)
                   (Chat.chat_history st) (Chat.glm_past st))
                (Chat.mkGLM (Chat.chat_history st) (Chat.glm_past st)
                   (Chat.current_length st) (Chat.glm_printed st ++ ["BigDL-LLM: "]))
                (Hwf _ _ _) Hinv) as (st1 & Hrun & Hinv1).
    rewrite Hrun. destruct (IH st1 Hinv1) as (Hbound & Hstopped & Heof).
    split_and!; [done | |].
    + intros [Heq | Hin]%elem_of_cons; [done | by apply Hstopped].
    + intros Hno. apply Heof. intros Hin. apply Hno. by right.
Qed.

(** X16. The ChatGLM3 cache stays bounded over the whole conversation.
    When every chunk the generator yields is well formed, the loop raises
    nothing of its own: it ends on ["stop"] if the user types it and on the
    end of the input otherwise, and the cache it holds at the end is still
    [None] or has one length in every tensor, at most
    [max_past_length = 2048]. *)
Theorem chatglm3_loop_cache_bounded (no_history : History)
    (model_stream_chat : string -> History -> option (list (list (list Row)))
                         -> list (string * History * list (list (list Row)))) inputs :
  (forall prompt hist past, Forall Chat.well_formed_chunk (model_stream_chat prompt hist past)) ->
  let run := Chat.chatglm3_stream_chat no_history model_stream_chat inputs in
  (Chat.glm_past run.1 = None \/
   exists kept n, Chat.glm_past run.1 = Some kept /\ Chat.uniform_rows n kept /\
                  Chat.bounded_rows Chat.max_past_length kept) /\
  ("stop" ∈ inputs -> run.2 = OK tt) /\
  ("stop" ∉ inputs -> run.2 = Err EOFError).
Proof.
  intros Hwf. apply chatglm3_loop_keeps_bound; [done |]. by left.
Qed.

(** X17. The ChatGLM3 loop reads no line after ["stop"]. *)
Theorem chatglm3_lines_after_stop_are_not_read
    (model_stream_chat : string -> History -> option (list (list (list Row)))
                         -> list (string * History * list (list (list Row)))) pre post :
  forall st,
    Chat.chatglm3_loop model_stream_chat (pre ++ "stop" :: post) st
    = Chat.chatglm3_loop model_stream_chat (pre ++ ["stop"]) st.
Proof.
  induction pre as [|user_input pre IH]; intros st; cbn [app Chat.chatglm3_loop].
  - by rewrite !bool_decide_eq_true_2 by done.
  - case_bool_decide; [done |].
    destruct (Chat.glm_chunks _ _) as [st1 [[]|e]]; [|done].
    by rewrite IH.
Qed.

Lemma py_last_idempotent k val :
  0 < k -> Chat.py_last k (Chat.py_last k val) = Chat.py_last k val.
Proof.
  intros Hk. apply py_last_short; [done |]. rewrite py_last_length by done. lia.
Qed.

(** X18. The truncation of lines 170-177 keeps what is already short
    enough: on a cache none of whose tensors exceeds [max_past_length] it
    changes nothing, and done twice it does what it does once. *)
Theorem keep_recent_idempotent (past_key_values : list (list (list Row))) :
  Chat.keep_recent (Chat.keep_recent past_key_values) = Chat.keep_recent past_key_values /\
  (Chat.bounded_rows Chat.max_past_length past_key_values ->
   Chat.keep_recent past_key_values = past_key_values).
Proof.
  unfold Chat.keep_recent. split.
  - rewrite map_map. apply map_ext. intros layer.
    rewrite map_map. apply map_ext. intros val.
    apply py_last_idempotent. unfold Chat.max_past_length. lia.
  - intros Hb. induction Hb as [|layer rest Hlayer _ IH]; [done |].
    cbn [map]. f_equal; [|exact IH].
    induction Hlayer as [|val others Hval _ IHl]; [done |].
    cbn [map]. f_equal; [|exact IHl].
    apply py_last_short; [unfold Chat.max_past_length; lia | exact Hval].
Qed.

End TruncationProofs.

(** ** Proofs about generation and the chat loops *)

Section GenerationProofs.

Import Chat.

Variable PKV : Type.
Variable model : list Z -> option PKV -> Z * PKV.
Variable tokenizer : string -> list Z.
Variable decode : list Z -> string.
Variable eos_token_id : option Z.

Implicit Types (st : GenState PKV) (stop_words : option (list (list Z))).

(** *** How much one call of [greedy_generate] produces *)

Variable cache_len : PKV -> nat.
Hypothesis model_appends :
  forall input_ids past,
    cache_len (model input_ids past).2 = past_len cache_len past + length input_ids.

Lemma generate_step_counts stop_words st :
  let st' := (generate_step model decode eos_token_id stop_words st).1 in
  length (generated_ids st') = S (length (generated_ids st)) /\
  cache_len (past_key_values st') = cache_len (past_key_values st) + 1.
Proof.
  unfold generate_step.
  pose proof (model_appends [pred_token_idx st] (Some (past_key_values st))) as Hm.
  destruct (model [pred_token_idx st] (Some (past_key_values st))) as [tok past'].
  cbn in Hm.
  repeat case_match; cbn [fst generated_ids past_key_values];
    rewrite length_app; cbn [length]; split; lia.
Qed.

Lemma generate_loop_counts stop_words n :
  forall st,
    let st' := generate_loop model decode eos_token_id stop_words n st in
    exists passes, passes <= n /\
      length (generated_ids st') = length (generated_ids st) + passes /\
      cache_len (past_key_values st') = cache_len (past_key_values st) + passes.
Proof.
  induction n as [|n IH]; intros st st'.
  - exists 0. unfold st'. cbn. lia.
  - unfold st'. cbn [generate_loop].
    pose proof (generate_step_counts stop_words st) as [Hids Hlen]. cbn zeta in *.
    destruct (generate_step model decode eos_token_id stop_words st) as [st1 flow].
    cbn [fst] in *. destruct flow.
    + destruct (IH st1) as (passes & Hle & Hids' & Hlen'). exists (S passes). lia.
    + exists 1. lia.
Qed.

Lemma greedy_generate_counts input_ids past max_gen_len stop_words :
  let run := greedy_generate model decode eos_token_id input_ids past
                             max_gen_len stop_words in
  exists passes, passes <= Z.to_nat (max_gen_len - 1) /\
    length (generated_ids run.1) = 1 + passes /\
    cache_len (past_key_values run.1)
      = past_len cache_len past + length input_ids + passes /\
    (forall p, run.2 = OK p -> p = past_key_values run.1).
Proof.
  intros run. unfold run, greedy_generate.
  pose proof (model_appends input_ids past) as Hm.
  destruct (model input_ids past) as [tok past0]. cbn [snd] in Hm.
  destruct (generate_loop_counts stop_words (Z.to_nat (max_gen_len - 1))
              (mkGen past0 tok [tok] 0%Z None ["BigDL-LLM: "]))
    as (passes & Hle & Hids & Hlen).
  cbn zeta in *. cbn [generated_ids past_key_values length] in Hids, Hlen.
  exists passes.
  destruct (generated_text _); cbn [fst snd generated_ids past_key_values];
    split_and!; try lia; congruence.
Qed.

(** Without a pass through the loop, line 116 finds [generated_text]
    unbound. *)
Lemma greedy_generate_unbound input_ids past max_gen_len stop_words :
  (max_gen_len <= 1)%Z ->
  (greedy_generate model decode eos_token_id input_ids past max_gen_len stop_words).2
    = Err UnboundLocalError.
Proof.
  intros Hle. unfold greedy_generate.
  destruct (model input_ids past) as [tok past0].
  replace (Z.to_nat (max_gen_len - 1)) with 0 by lia. reflexivity.
Qed.

(** C9. One call generates at most [max_gen_len] tokens. For
    [max_gen_len >= 1]: one token comes from the first forward pass and at
    most [max_gen_len - 1] from the loop; each of the latter is one more
    cached position, so the cache grows by the prompt length plus the tokens
    after the first, which stays below the [space_needed] the turn reserved.
    The model is assumed to append its input to the cache. *)
Theorem greedy_generate_bounded input_ids past max_gen_len stop_words :
  (1 <= max_gen_len)%Z ->
  let run := greedy_generate model decode eos_token_id input_ids past
                             max_gen_len stop_words in
  let produced := length (generated_ids run.1) in
  1 <= produced /\
  (Z.of_nat produced <= max_gen_len)%Z /\
  cache_len (past_key_values run.1) + 1
    = past_len cache_len past + length input_ids + produced /\
  (Z.of_nat (cache_len (past_key_values run.1))
     < Z.of_nat (past_len cache_len past) + space_needed (length input_ids) max_gen_len)%Z /\
  (forall p, run.2 = OK p -> p = past_key_values run.1).
Proof.
  intros Hpos run produced.
  destruct (greedy_generate_counts input_ids past max_gen_len stop_words)
    as (passes & Hle & Hids & Hlen & Hret).
  fold run in Hids, Hlen, Hret. unfold produced, space_needed.
  split_and!; try lia. exact Hret.
Qed.


(** *** Which passes of the loop end it *)

Lemma generate_step_inv stop_words st :
  let out := model [pred_token_idx st] (Some (past_key_values st)) in
  let ids := generated_ids st ++ [out.1] in
  let step := generate_step model decode eos_token_id stop_words st in
  generated_ids step.1 = ids /\
  pred_token_idx step.1 = out.1 /\
  past_key_values step.1 = out.2 /\
  generated_text step.1
    = (if hits_stop_word stop_words ids then generated_text st else Some (decode ids)) /\
  (step.2 = Continue ->
     hits_stop_word stop_words ids = false /\ Some out.1 <> eos_token_id) /\
  (step.2 = Break ->
     hits_stop_word stop_words ids = true \/
     contains (nl +:+ "<") (decode ids) = true \/
     Some out.1 = eos_token_id).
Proof.
  intros out ids step. unfold step, generate_step, ids, out.
  destruct (model [pred_token_idx st] (Some (past_key_values st))) as [tok past'].
  cbn [fst snd].
  destruct (hits_stop_word stop_words (generated_ids st ++ [tok])) eqn:Hhit;
    [cbn; split_and!; auto; done |].
  destruct (_ >? _)%Z; [destruct (contains _ _) eqn:Hc |];
    repeat case_bool_decide; cbn [fst snd generated_ids pred_token_idx past_key_values
                                   generated_text];
    split_and!; auto; done.
Qed.

Lemma generate_loop_text stop_words n :
  forall st text,
    generated_text st = Some text ->
    exists text', generated_text (generate_loop model decode eos_token_id stop_words n st)
                  = Some text'.
Proof.
  induction n as [|n IH]; intros st text Htext; [by exists text |].
  cbn [generate_loop].
  pose proof (generate_step_inv stop_words st) as (_ & _ & _ & Ht & _). cbn zeta in Ht.
  destruct (generate_step model decode eos_token_id stop_words st) as [st1 flow].
  cbn [fst] in Ht.
  assert (exists text1, generated_text st1 = Some text1) as [text1 Htext1].
  { rewrite Ht. destruct (hits_stop_word _ _); eauto. }
  destruct flow; eauto.
Qed.

(** X7. Which calls of [greedy_generate] raise. The call ends in the
    [UnboundLocalError] of line 116 exactly when the loop makes no pass
    ([max_gen_len <= 1]) or its first pass ends on a stop word; in every
    other case it returns the cache of the last forward pass. *)
Theorem greedy_generate_raises_iff input_ids past max_gen_len stop_words :
  let first := model input_ids past in
  let second := model [first.1] (Some first.2) in
  let run := greedy_generate model decode eos_token_id input_ids past
                             max_gen_len stop_words in
  (run.2 = Err UnboundLocalError <->
     (max_gen_len <= 1)%Z \/ hits_stop_word stop_words [first.1; second.1] = true) /\
  (run.2 = Err UnboundLocalError \/ run.2 = OK (past_key_values run.1)).
Proof.
  intros first second run. unfold run, greedy_generate, second, first.
  destruct (model input_ids past) as [tok past0]. cbn [fst snd].
  destruct (Z.to_nat (max_gen_len - 1)) as [|n] eqn:Hn.
  { cbn. split; [|by left]. split; [intros _; left; lia | done]. }
  cbn [generate_loop].
  pose proof (generate_step_inv stop_words (mkGen past0 tok [tok] 0%Z None ["BigDL-LLM: "]))
    as (_ & _ & _ & Ht & Hcont & _).
  cbn zeta in Ht, Hcont. cbn [generated_ids pred_token_idx past_key_values generated_text app]
    in Ht, Hcont.
  destruct (generate_step model decode eos_token_id stop_words _) as [st1 flow].
  cbn [fst snd] in Ht, Hcont.
  destruct (hits_stop_word stop_words [tok; (model [tok] (Some past0)).1]) eqn:Hhit.
  - destruct flow; [by destruct Hcont |].
    rewrite Ht. cbn. split; [|by left]. split; [by right | done].
  - assert (exists text, generated_text
              (match flow with
               | Continue => generate_loop model decode eos_token_id stop_words n st1
               | Break => st1
               end) = Some text) as [text Htext].
    { destruct flow; [by eapply generate_loop_text | eauto]. }
    assert ((let (st', f) := (st1, flow) in
             match f with
             | Continue => generate_loop model decode eos_token_id stop_words n st'
             | Break => st'
             end) =
            match flow with
            | Continue => generate_loop model decode eos_token_id stop_words n st1
            | Break => st1
            end) as Heq by (by destruct flow).
    cbv beta iota in Heq |- *.
    destruct flow; rewrite Htext; cbn [fst snd past_key_values];
      (split; [split; [done | intros [? | ?]; [lia | done]] | by right]).
Qed.

Lemma generate_loop_triggers stop_words n :
  forall st,
    let st' := generate_loop model decode eos_token_id stop_words n st in
    let ids := generated_ids st' in
    (forall k tok, length (generated_ids st) < k < length ids ->
       ids !! (k - 1) = Some tok ->
       hits_stop_word stop_words (take k ids) = false /\ Some tok <> eos_token_id) /\
    (length ids < length (generated_ids st) + n ->
       hits_stop_word stop_words ids = true \/
       contains (nl +:+ "<") (decode ids) = true \/
       Some (pred_token_idx st') = eos_token_id) /\
    ids `prefix_of`
      generated_ids st ++ greedy_stream model n (pred_token_idx st) (past_key_values st) /\
    length (generated_ids st) + (if n is O then 0 else 1) <= length ids.
Proof.
  induction n as [|n IH]; intros st st' ids.
  { unfold ids, st'. cbn. split_and!; [lia | lia | by rewrite app_nil_r | lia]. }
  unfold ids, st'. clear ids st'. cbn [generate_loop greedy_stream].
  pose proof (generate_step_inv stop_words st) as (Hids & Hpred & Hpast & _ & Hcont & Hbreak).
  cbn zeta in *.
  destruct (model [pred_token_idx st] (Some (past_key_values st))) as [tok past'].
  destruct (generate_step model decode eos_token_id stop_words st) as [st1 flow].
  cbn [fst snd] in *.
  destruct flow.
  - destruct (Hcont eq_refl) as [Hnohit Hnoeos]. clear Hcont Hbreak.
    destruct (IH st1) as (Hbefore & Hearly & Hpre & Hlen). cbn zeta in *.
    rewrite Hids, Hpred, Hpast in *. rewrite length_app in *. cbn [length] in *.
    set (ids' := generated_ids (generate_loop model decode eos_token_id stop_words n st1)) in *.
    assert (take (length (generated_ids st) + 1) ids' = generated_ids st ++ [tok]) as Hhead.
    { destruct Hpre as [more Hmore].
      apply (f_equal (take (length (generated_ids st) + 1))) in Hmore.
      rewrite (take_app_le ids') in Hmore by lia.
      rewrite <- Hmore. apply take_app_length'. rewrite length_app. cbn [length]. lia. }
    split_and!.
    + intros k t Hk Hlook.
      destruct (decide (k = length (generated_ids st) + 1)) as [-> | Hne].
      * rewrite Hhead. split; [done |].
        assert (ids' !! (length (generated_ids st) + 1 - 1) = Some tok) as Htok.
        { rewrite <- (lookup_take_lt _ (length (generated_ids st) + 1)) by lia.
          rewrite Hhead. replace (length (generated_ids st) + 1 - 1)
            with (length (generated_ids st)) by lia.
          by rewrite list_lookup_middle. }
        rewrite Htok in Hlook. by injection Hlook as <-.
      * apply Hbefore; [lia | done].
    + intros Hshort. apply Hearly. lia.
    + rewrite <- app_assoc in Hpre. exact Hpre.
    + lia.
  - clear Hcont. rewrite Hids, Hpred. rewrite length_app. cbn [length].
    split_and!.
    + intros k t Hk. lia.
    + intros _. by apply Hbreak.
    + apply prefix_app, prefix_cons, prefix_nil.
    + lia.
Qed.

Lemma greedy_generate_ids input_ids past max_gen_len stop_words :
  let first := model input_ids past in
  let st0 := mkGen first.2 first.1 [first.1] 0%Z None ["BigDL-LLM: "] in
  let st := generate_loop model decode eos_token_id stop_words
                          (Z.to_nat (max_gen_len - 1)) st0 in
  let run := greedy_generate model decode eos_token_id input_ids past
                             max_gen_len stop_words in
  generated_ids run.1 = generated_ids st /\
  pred_token_idx run.1 = pred_token_idx st /\
  generated_text run.1 = generated_text st /\
  pos run.1 = pos st.
Proof.
  intros first st0 st run. unfold run, greedy_generate, st, st0, first.
  destruct (model input_ids past) as [tok past0]. cbn [fst snd].
  destruct (generated_text (generate_loop _ _ _ _ _ _)) eqn:Htext;
    cbn [fst generated_ids pred_token_idx generated_text pos]; by rewrite ?Htext.
Qed.

(** X8. The loop stops at the first pass that gives it a reason. No
    token strictly between the first and the last one generated is the
    end-of-sequence token, and no list of tokens the call held before its
    last pass ended in a stop word. The first token is tested for
    neither. *)
Theorem greedy_generate_stops_at_first_trigger input_ids past max_gen_len stop_words k tok :
  let run := greedy_generate model decode eos_token_id input_ids past
                             max_gen_len stop_words in
  let ids := generated_ids run.1 in
  1 < k < length ids ->
  ids !! (k - 1) = Some tok ->
  hits_stop_word stop_words (take k ids) = false /\ Some tok <> eos_token_id.
Proof.
  intros run ids Hk Hlook. unfold ids, run in *.
  destruct (greedy_generate_ids input_ids past max_gen_len stop_words) as (Hids & _).
  cbn zeta in Hids. rewrite Hids in *.
  destruct (generate_loop_triggers stop_words (Z.to_nat (max_gen_len - 1))
              (mkGen (model input_ids past).2 (model input_ids past).1
                     [(model input_ids past).1] 0%Z None ["BigDL-LLM: "]))
    as (Hbefore & _).
  by apply (Hbefore k tok).
Qed.

(** X9. The loop never stops short without a reason. A call that ends
    with fewer than [max_gen_len] tokens made a last pass whose tokens end
    in a stop word, or whose text contains a newline followed by [<], or
    whose token is the end-of-sequence token. *)
Theorem greedy_generate_early_stop_has_reason input_ids past max_gen_len stop_words :
  let run := greedy_generate model decode eos_token_id input_ids past
                             max_gen_len stop_words in
  let ids := generated_ids run.1 in
  (Z.of_nat (length ids) < max_gen_len)%Z ->
  hits_stop_word stop_words ids = true \/
  contains (nl +:+ "<") (decode ids) = true \/
  Some (pred_token_idx run.1) = eos_token_id.
Proof.
  intros run ids Hshort. unfold ids, run in *.
  destruct (greedy_generate_ids input_ids past max_gen_len stop_words) as (Hids & Hpred & _).
  cbn zeta in Hids, Hpred. rewrite Hids, Hpred in *.
  destruct (generate_loop_triggers stop_words (Z.to_nat (max_gen_len - 1))
              (mkGen (model input_ids past).2 (model input_ids past).1
                     [(model input_ids past).1] 0%Z None ["BigDL-LLM: "]))
    as (_ & Hearly & _).
  apply Hearly. cbn [generated_ids length]. lia.
Qed.

(** X10. Stop words, the end-of-sequence token and the text only cut the
    greedy token stream, they never change it: the tokens of a call are the
    first token followed by a prefix of what [max_gen_len - 1] unbroken
    passes append, and for [max_gen_len >= 2] there are at least two of
    them, whatever the first token is. *)
Theorem generated_ids_prefix_of_greedy_stream input_ids past max_gen_len stop_words :
  let first := model input_ids past in
  let run := greedy_generate model decode eos_token_id input_ids past
                             max_gen_len stop_words in
  generated_ids run.1 `prefix_of`
    first.1 :: greedy_stream model (Z.to_nat (max_gen_len - 1)) first.1 first.2 /\
  ((2 <= max_gen_len)%Z -> 2 <= length (generated_ids run.1)).
Proof.
  intros first run. unfold run, first.
  destruct (greedy_generate_ids input_ids past max_gen_len stop_words) as (Hids & _).
  cbn zeta in Hids. rewrite Hids.
  destruct (generate_loop_triggers stop_words (Z.to_nat (max_gen_len - 1))
              (mkGen (model input_ids past).2 (model input_ids past).1
                     [(model input_ids past).1] 0%Z None ["BigDL-LLM: "]))
    as (_ & _ & Hpre & Hlen).
  cbn zeta in Hpre, Hlen. cbn [generated_ids pred_token_idx past_key_values length app]
    in Hpre, Hlen.
  split; [exact Hpre |]. intros Hmax.
  destruct (Z.to_nat (max_gen_len - 1)) eqn:Hn; lia.
Qed.


(** *** Stop words *)

Lemma py_last_suffix (w ids : list Z) :
  w <> [] -> py_last (length w) ids = w <-> w `suffix_of` ids.
Proof.
  intros Hw. unfold py_last. destruct w as [|a w]; [done |]. cbn [length Nat.eqb].
  split.
  - intros Hdrop. exists (take (length ids - S (length w)) ids).
    rewrite <- Hdrop. symmetry. apply take_drop.
  - intros [pre ->]. rewrite length_app. cbn [length].
    replace (length pre + S (length w) - S (length w)) with (length pre) by lia.
    apply drop_app_length.
Qed.

Lemma hits_stop_word_spec (ws : list (list Z)) ids tok :
  hits_stop_word (Some ws) (ids ++ [tok]) = true <->
  exists w, w ∈ ws /\ w <> [] /\ w `suffix_of` ids ++ [tok].
Proof.
  unfold hits_stop_word. rewrite existsb_exists. split.
  - intros (w & Hin & Hw). apply bool_decide_eq_true in Hw.
    assert (w <> []) as Hne.
    { intros ->. cbn in Hw. by destruct ids. }
    exists w. split_and!; [by apply list_elem_of_In | done | by apply py_last_suffix].
  - intros (w & Hin & Hne & Hsuf). exists w. split; [by apply list_elem_of_In |].
    apply bool_decide_eq_true. by apply py_last_suffix.
Qed.

(** X11. What the stop-word test of the loop tests. The tokens
    generated so far, which are never empty, end in a stop word exactly when
    some stop word that is not empty is a suffix of them; an empty stop word
    never matches, and [stop_words = None] switches the test off. *)
Theorem stop_word_hit_iff_suffix (ws : list (list Z)) ids tok :
  (hits_stop_word (Some ws) (ids ++ [tok]) = true <->
   exists w, w ∈ ws /\ w <> [] /\ w `suffix_of` ids ++ [tok]) /\
  hits_stop_word (Some ([] :: ws)) (ids ++ [tok]) = hits_stop_word (Some ws) (ids ++ [tok]) /\
  hits_stop_word None (ids ++ [tok]) = false.
Proof.
  split_and!; [apply hits_stop_word_spec | | done].
  cbn [hits_stop_word existsb length]. unfold py_last at 1. cbn [Nat.eqb].
  rewrite bool_decide_eq_false_2; [done |]. by destruct ids.
Qed.

Lemma singleton_suffix (x tok : Z) ids : [x] `suffix_of` ids ++ [tok] <-> x = tok.
Proof.
  split.
  - intros [pre Heq]. by apply app_inj_tail in Heq as [_ ->].
  - intros ->. by exists ids.
Qed.

(** X12. The stop words by chat format. For ["Qwen"] a pass of the loop
    ends on a stop word exactly when its token is [im_end_id],
    [im_start_id] or [eod_id]; for ["Yi"] exactly when the tokens end in
    the encoding of ["<|im_end|>"], provided that is not empty; any other
    format raises [NotImplementedError]. *)
Theorem stop_words_by_format (tokenizer' : StopTokenizer) ids tok :
  (exists ws, get_stop_words_ids "Qwen" tokenizer' = StopWordsIds ws /\
     (hits_stop_word (Some ws) (ids ++ [tok]) = true <->
      tok = im_end_id tokenizer' \/ tok = im_start_id tokenizer' \/
      tok = eod_id tokenizer')) /\
  (exists ws, get_stop_words_ids "Yi" tokenizer' = StopWordsIds ws /\
     (hits_stop_word (Some ws) (ids ++ [tok]) = true <->
      encode tokenizer' "<|im_end|>" <> [] /\
      encode tokenizer' "<|im_end|>" `suffix_of` ids ++ [tok])) /\
  (forall chat_format, chat_format <> "Qwen" -> chat_format <> "Yi" ->
     get_stop_words_ids chat_format tokenizer' = NotImplementedError chat_format).
Proof.
  split_and!.
  - eexists. split; [reflexivity |]. rewrite hits_stop_word_spec. split.
    + intros (w & Hin & _ & Hsuf).
      repeat (apply elem_of_cons in Hin as [-> | Hin];
              [apply singleton_suffix in Hsuf; auto |]).
      by apply elem_of_nil in Hin.
    + intros [-> | [-> | ->]];
        [exists [im_end_id tokenizer'] | exists [im_start_id tokenizer']
        | exists [eod_id tokenizer']];
        (split_and!; [repeat constructor | done | by apply singleton_suffix]).
  - eexists. split; [reflexivity |]. rewrite hits_stop_word_spec. split.
    + intros (w & Hin & Hne & Hsuf). apply list_elem_of_singleton in Hin as ->. done.
    + intros [Hne Hsuf]. eexists. split_and!; [by apply list_elem_of_singleton | done..].
  - intros chat_format Hq Hy. unfold get_stop_words_ids.
    by rewrite !bool_decide_eq_false_2 by done.
Qed.

(** *** The loops over the user's lines *)


Lemma chat_loop_after_stop prompt_of kv_cache max_gen_len stop_words pre post :
  forall past,
    chat_loop model tokenizer decode eos_token_id prompt_of kv_cache max_gen_len stop_words
              (pre ++ "stop" :: post) past
    = chat_loop model tokenizer decode eos_token_id prompt_of kv_cache max_gen_len stop_words
                (pre ++ ["stop"]) past.
Proof.
  induction pre as [|user_input pre IH]; intros past; cbn [app chat_loop].
  - by rewrite !bool_decide_eq_true_2 by done.
  - case_bool_decide; [done |].
    destruct (chat_turn _ _ _ _ _ _ _ _ _ _) as [events [past'|e]]; [|done].
    by rewrite IH.
Qed.

(** X13. The loops read no line after ["stop"]: what the user would
    have typed after it changes nothing, neither in what the loop does nor
    in how it ends. *)
Theorem lines_after_stop_are_not_read (which : chat_variant) kv_cache max_gen_len
    stop_words pre post :
  kv_stream_chat model tokenizer decode eos_token_id which kv_cache max_gen_len stop_words
                 (pre ++ "stop" :: post)
  = kv_stream_chat model tokenizer decode eos_token_id which kv_cache max_gen_len stop_words
                   (pre ++ ["stop"]).
Proof.
  destruct which; apply chat_loop_after_stop.
Qed.





(** *** What [greedy_generate] prints *)

Section Printing.

Hypothesis decode_grows :
  forall ids tok, String.prefix (decode ids) (decode (ids ++ [tok])) = true.

Lemma streamed_next st pieces tok :
  printed st = "BigDL-LLM: " :: pieces ->
  (0 <= pos st)%Z ->
  match generated_text st with
  | Some text =>
      String.concat "" pieces = py_slice text 0 (pos st) /\
      (pos st <= Z.of_nat (String.length text))%Z /\
      String.prefix text (decode (generated_ids st)) = true
  | None => pieces = [] /\ pos st = 0%Z
  end ->
  let text' := decode (generated_ids st ++ [tok]) in
  String.concat "" pieces = py_slice text' 0 (pos st) /\
  (pos st <= Z.of_nat (String.length text'))%Z /\
  match generated_text st with
  | Some text => String.prefix text text' = true
  | None => True
  end.
Proof.
  intros Hprinted Hpos Htext text'.
  destruct (generated_text st) as [text|].
  - destruct Htext as (Hcat & Hle & Hpre).
    destruct (prefix_append _ _ Hpre) as [d Hd].
    destruct (prefix_append _ _ (decode_grows (generated_ids st) tok)) as [d' Hd'].
    assert (text' = text +:+ (d +:+ d')) as Hall
      by (unfold text'; by rewrite Hd', Hd, append_assoc).
    split_and!.
    + rewrite Hcat, Hall. unfold py_slice.
      by rewrite substring_prefix_app by lia.
    + rewrite Hall, length_append. lia.
    + rewrite Hall. apply prefix_of_append.
  - destruct Htext as [-> ->]. split_and!; [|lia | done].
    unfold py_slice. cbn. by rewrite substring_nothing.
Qed.

Lemma prefix_refl s : String.prefix s s = true.
Proof. rewrite <- (append_nil_r s) at 2. apply prefix_of_append. Qed.

Lemma generate_step_streamed stop_words st :
  streamed decode st ->
  streamed decode (generate_step model decode eos_token_id stop_words st).1.
Proof.
  intros (pieces & Hprinted & Hpos & Htext). unfold generate_step.
  destruct (model [pred_token_idx st] (Some (past_key_values st))) as [tok past'].
  destruct (streamed_next st pieces tok Hprinted Hpos Htext) as (Hcat & Hle & Hpre).
  cbn zeta in Hcat, Hle, Hpre.
  set (text' := decode (generated_ids st ++ [tok])) in *.
  destruct (hits_stop_word stop_words (generated_ids st ++ [tok])).
  { exists pieces. cbn [fst printed pos generated_text generated_ids].
    split_and!; [done | done |].
    destruct (generated_text st) as [text|]; [|done].
    destruct Htext as (? & ? & _). done. }
  destruct (Z.of_nat (String.length text') - 1 >? pos st)%Z eqn:Hnow.
  - apply Z.gtb_lt in Hnow.
    destruct (contains (nl +:+ "<") text').
    + exists pieces. cbn [fst printed pos generated_text generated_ids].
      split_and!; try done. apply prefix_refl.
    + exists (pieces ++ [py_slice text' (pos st) (Z.of_nat (String.length text') - 1)]).
      cbn [fst printed pos generated_text generated_ids].
      split_and!; [by rewrite Hprinted | lia | | lia | apply prefix_refl].
      rewrite concat_snoc, Hcat. unfold py_slice.
      rewrite !Z.sub_0_r. change (Z.to_nat 0) with 0.
      rewrite Z2Nat.inj_sub by lia.
      apply substring_split; lia.
  - exists pieces.
    destruct (bool_decide _); cbn [fst printed pos generated_text generated_ids];
      (split_and!; try done; apply prefix_refl).
Qed.

Lemma generate_loop_streamed stop_words n :
  forall st, streamed decode st ->
             streamed decode (generate_loop model decode eos_token_id stop_words n st).
Proof.
  induction n as [|n IH]; intros st Hst; [done |].
  cbn [generate_loop].
  pose proof (generate_step_streamed stop_words st Hst) as Hstep.
  destruct (generate_step model decode eos_token_id stop_words st) as [st1 flow].
  destruct flow; [by apply IH | done].
Qed.

(** X19. What a call that returns has printed, for a tokenizer whose
    decoded text only grows as tokens are appended: after the banner, the
    pieces streamed during the loop add up to the text before [pos], each
    character once, and the last line is the rest of the text from [pos],
    its characters joined by blanks and stripped of newlines and [<]. *)
Theorem greedy_generate_prints_text_once input_ids past max_gen_len stop_words p :
  let run := greedy_generate model decode eos_token_id input_ids past
                             max_gen_len stop_words in
  run.2 = OK p ->
  exists text pieces,
    generated_text run.1 = Some text /\
    printed run.1
      = "BigDL-LLM: " :: pieces
          ++ [strip (String.list_ascii_of_string (nl +:+ "<"))
                    (join_chars " " (py_from text (pos run.1)))] /\
    String.concat "" pieces = py_slice text 0 (pos run.1) /\
    (0 <= pos run.1 <= Z.of_nat (String.length text))%Z.
Proof.
  intros run. unfold run, greedy_generate.
  destruct (model input_ids past) as [tok past0].
  assert (streamed decode (mkGen past0 tok [tok] 0%Z None ["BigDL-LLM: "])) as Hinit.
  { exists []. cbn. split_and!; (done || lia). }
  destruct (generate_loop_streamed stop_words (Z.to_nat (max_gen_len - 1)) _ Hinit)
    as (pieces & Hprinted & Hpos & Htext).
  destruct (generated_text (generate_loop _ _ _ _ _ _)) as [text|] eqn:Hgen; [|done].
  intros _. destruct Htext as (Hcat & Hle & _).
  exists text, pieces. cbn [fst generated_text printed pos].
  split_and!; [done | by rewrite Hprinted | done | lia | lia].
Qed.

End Printing.

End GenerationProofs.

(** ** Concrete runs of the policy and the chat loops *)

Section ChatRuns.

Import Demo.

(** Two layers of 22 rows each, asked to make room for 5 more. *)
Lemma evict_for_space_threshold_witness :
  let cs := [(KVCache.mkBuffer 30 (seq 0 22), KVCache.mkBuffer 30 (seq 100 22));
             (KVCache.mkBuffer 30 (seq 200 22), KVCache.mkBuffer 30 (seq 300 22))] in
  KVCache.evict_for_space (KVCache.mkPolicy 4 20) cs 5 = OK (KVCache.compact_all 4 15 cs) /\
  KVCache.uniform_length 19 (KVCache.compact_all 4 15 cs) /\
  KVCache.current_length (KVCache.compact_all 4 15 cs) = 19.
Proof.
  intros cs.
  apply (proj2 (proj2 (proj2 (evict_for_space_threshold nat))) cs).
  - reflexivity.
  - repeat constructor.
Defined.

Example evicted_rows :
  KVCache.rows (KVCache.truncate_front_and_back 4 15 (KVCache.mkBuffer 30 (seq 0 22)))
    = [0; 1; 2; 3] ++ seq 7 15.
Proof. reflexivity. Qed.

(** C1, where the claim fails. A chunk whose cached tensors have 2049
    rows, the earliest one marked: the ChatGLM3 loop keeps the last 2048
    rows of each and drops the marked row, the earliest position; what it
    keeps is not a leading window followed by a trailing window, whatever
    the sizes, as soon as the leading window is not empty. *)
Lemma chatglm3_keeps_recent_only :
  let val := marked_rows 2048 in
  (exists st',
     Chat.glm_chunk (Chat.mkGLM tt None 0 []) ("ok", tt, [[val; val]]) = OK st' /\
     Chat.glm_past st' = Some [[replicate 2048 false; replicate 2048 false]]) /\
  ~ (exists start_size keep_back,
       0 < start_size /\
       Chat.py_last Chat.max_past_length val
         = take start_size val ++ drop (length val - keep_back) val).
Proof.
  intros val. split.
  - eexists. split; [reflexivity |]. vm_compute. reflexivity.
  - intros (start_size & keep_back & Hpos & Heq).
    assert (Chat.py_last Chat.max_past_length val = false :: replicate 2047 false) as Hrecent
      by (vm_compute; reflexivity).
    rewrite Hrecent in Heq.
    destruct start_size as [|s]; [lia |].
    unfold val, marked_rows in Heq. cbn [take app] in Heq.
    discriminate.
Qed.

(** A chunk of 2049 rows is truncated, and position 0 is not among the
    rows that are kept. *)
Lemma compaction_retained_positions_witness :
  let val := marked_rows 2048 in
  (exists st',
     Chat.glm_chunk (Chat.mkGLM tt None 0 []) ("ok", tt, [[val; val]]) = OK st' /\
     Chat.glm_past st' = Some (Chat.keep_recent [[val; val]])) /\
  (exists layer',
     Chat.keep_recent [[val; val]] !! 0 = Some layer' /\
     layer' !! 1 = Some (Chat.py_last Chat.max_past_length val)) /\
  (length (Chat.py_last Chat.max_past_length (seq 0 2049)) = Chat.max_past_length /\
   forall i, Chat.py_last Chat.max_past_length (seq 0 2049) !! i
             = seq 0 2049 !! (length (seq 0 2049) - Chat.max_past_length + i)).
Proof.
  intros val. split_and!.
  - destruct (proj1 (proj2 (proj2 (compaction_retained_positions bool unit)))
                (Chat.mkGLM tt None 0 []) "ok" tt val [val] [])
      as (st' & Hrun & Hlong & _).
    exists st'. split; [exact Hrun |]. apply Hlong.
    unfold val, marked_rows, Chat.max_past_length. cbn [length].
    rewrite length_replicate. lia.
  - apply (proj1 (proj2 (proj2 (proj2 (compaction_retained_positions bool unit))))
             [[val; val]] 0 1 [val; val] val); reflexivity.
  - apply (proj2 (proj2 (proj2 (proj2 (compaction_retained_positions nat unit))))
             (seq 0 2049)).
    rewrite length_seq. unfold Chat.max_past_length. lia.
  - apply (proj2 (proj2 (proj2 (proj2 (compaction_retained_positions nat unit))))
             (seq 0 2049)).
    rewrite length_seq. unfold Chat.max_past_length. lia.
Defined.

Lemma chatglm3_cache_bounded_witness :
  exists st' kept,
    Chat.glm_chunk (Chat.mkGLM tt None 0 []) ("ok", tt, glm_past_of 2050) = OK st' /\
    Chat.glm_past st' = Some kept /\
    kept = (if Chat.max_past_length <? 2050
            then Chat.keep_recent (glm_past_of 2050) else glm_past_of 2050) /\
    Chat.uniform_rows (2050 `min` Chat.max_past_length) kept /\
    Chat.bounded_rows Chat.max_past_length kept.
Proof.
  apply (proj1 (chatglm3_cache_bounded nat unit) (Chat.mkGLM tt None 0 []) "ok" tt
           (seq 0 2050) [seq 1 2050] [[seq 2 2050; seq 3 2050]] 2050).
  repeat constructor; apply length_seq.
Defined.

(** Two turns with the generic prompt, then "stop". *)
Example stream_chat_run :
  Chat.stream_chat counting_model char_tokenizer letter_decode None
                   (Some no_eviction) 4 (Some []) ["hi"; "ok"; "stop"; "more"]
  = ([[Chat.EvEvict 21; Chat.EvGenerate (char_tokenizer (Chat.stream_chat_prompt "hi")) 4];
      [Chat.EvEvict 21; Chat.EvGenerate (char_tokenizer (Chat.stream_chat_prompt "ok")) 4]],
     OK tt).
Proof. vm_compute. reflexivity. Qed.

Lemma greedy_generate_bounded_witness :
  let run := Chat.greedy_generate counting_model letter_decode None [5; 6; 7]%Z (Some 10)
                                  4 (Some []) in
  let produced := length (Chat.generated_ids run.1) in
  1 <= produced /\
  (Z.of_nat produced <= 4)%Z /\
  id (Chat.past_key_values run.1) + 1 = Chat.past_len id (Some 10) + 3 + produced /\
  (Z.of_nat (id (Chat.past_key_values run.1))
     < Z.of_nat (Chat.past_len id (Some 10%nat)) + Chat.space_needed 3 4)%Z /\
  (forall p, run.2 = OK p -> p = Chat.past_key_values run.1).
Proof.
  apply (greedy_generate_bounded nat counting_model letter_decode None id).
  - intros input_ids past. reflexivity.
  - lia.
Defined.

Example greedy_generate_run :
  let run := Chat.greedy_generate counting_model letter_decode None [5; 6; 7]%Z (Some 10)
                                  4 (Some []) in
  Chat.generated_ids run.1 = [13; 14; 15; 16]%Z /\ run.2 = OK 16.
Proof. vm_compute. split; reflexivity. Qed.


(** Tokens 13, 14, 15, the last of which is the end-of-sequence token. *)
Lemma greedy_generate_stops_at_first_trigger_witness :
  let run := Chat.greedy_generate counting_model letter_decode (Some 15%Z) [5; 6; 7]%Z
                                  (Some 10) 10 (Some [[99%Z]]) in
  Chat.hits_stop_word (Some [[99%Z]]) (take 2 (Chat.generated_ids run.1)) = false /\
  Some 14%Z <> Some 15%Z.
Proof.
  apply (greedy_generate_stops_at_first_trigger nat counting_model letter_decode
           (Some 15%Z) [5; 6; 7]%Z (Some 10) 10 (Some [[99%Z]]) 2 14%Z).
  - vm_compute. lia.
  - vm_compute. reflexivity.
Defined.

Lemma greedy_generate_early_stop_has_reason_witness :
  let run := Chat.greedy_generate counting_model letter_decode (Some 15%Z) [5; 6; 7]%Z
                                  (Some 10) 10 (Some [[99%Z]]) in
  Chat.hits_stop_word (Some [[99%Z]]) (Chat.generated_ids run.1) = true \/
  Chat.contains (Chat.nl +:+ "<") (letter_decode (Chat.generated_ids run.1)) = true \/
  Some (Chat.pred_token_idx run.1) = Some 15%Z.
Proof.
  apply (greedy_generate_early_stop_has_reason nat counting_model letter_decode
           (Some 15%Z) [5; 6; 7]%Z (Some 10) 10 (Some [[99%Z]])).
  vm_compute. reflexivity.
Defined.

(** A first pass that ends on a stop word: line 116 raises. *)
Example greedy_generate_raises_run :
  (Chat.greedy_generate counting_model letter_decode None [5; 6; 7]%Z (Some 10) 4
                        (Some [[14%Z]])).2 = Err UnboundLocalError.
Proof. vm_compute. reflexivity. Qed.

Lemma letter_decode_grows ids tok :
  String.prefix (letter_decode ids) (letter_decode (ids ++ [tok])) = true.
Proof.
  induction ids as [|i ids IH]; [reflexivity |].
  change (letter_decode (i :: ids)) with (String "a" (letter_decode ids)).
  change (letter_decode ((i :: ids) ++ [tok]))
    with (String "a" (letter_decode (ids ++ [tok]))).
  cbn [String.prefix]. by destruct (Ascii.ascii_dec "a" "a").
Defined.

Lemma greedy_generate_prints_text_once_witness :
  let run := Chat.greedy_generate counting_model letter_decode None [5; 6; 7]%Z
                                  (Some 10) 4 (Some []) in
  exists text pieces,
    Chat.generated_text run.1 = Some text /\
    Chat.printed run.1
      = "BigDL-LLM: " :: pieces
          ++ [Chat.strip (String.list_ascii_of_string (Chat.nl +:+ "<"))
                (Chat.join_chars " " (Chat.py_from text (Chat.pos run.1)))] /\
    String.concat "" pieces = Chat.py_slice text 0 (Chat.pos run.1) /\
    (0 <= Chat.pos run.1 <= Z.of_nat (String.length text))%Z.
Proof.
  apply (greedy_generate_prints_text_once nat counting_model letter_decode None
           letter_decode_grows [5; 6; 7]%Z (Some 10) 4 (Some []) 16).
  vm_compute. reflexivity.
Defined.

Example greedy_generate_printed :
  Chat.printed (Chat.greedy_generate counting_model letter_decode None [5; 6; 7]%Z
                                     (Some 10) 4 (Some [])).1
  = ["BigDL-LLM: "; "a"; "a"; "a"; "a"].
Proof. vm_compute. reflexivity. Qed.

(** A turn that starts with [current_length = 1]. *)
Lemma chatglm3_turn_prints_from_offset_witness :
  let st := Chat.mkGLM tt None 1 [] in
  let chunks := two_chunk_model "" tt None in
  exists pieces,
    Chat.glm_printed (Chat.glm_chunks st chunks).1 = Chat.glm_printed st ++ pieces /\
    length pieces = length chunks /\
    String.concat "" pieces = Chat.py_from "hello" (Z.of_nat (1 `min` String.length "he")) /\
    Chat.current_length (Chat.glm_chunks st chunks).1 = String.length "hello".
Proof.
  intros st chunks.
  apply (chatglm3_turn_prints_from_offset nat unit chunks st (Chat.glm_chunks st chunks).1
           "he" "hello").
  - split; reflexivity.
  - vm_compute. reflexivity.
  - reflexivity.
  - reflexivity.
Defined.

(** Two turns: the second prints its response from where the first one
    ended. *)
Example chatglm3_second_turn_offset :
  Chat.glm_printed (Chat.chatglm3_stream_chat tt two_chunk_model ["a"; "b"; "stop"]).1
  = ["BigDL-LLM: "; "he"; "llo"; "BigDL-LLM: "; ""; "llo"].
Proof. vm_compute. reflexivity. Qed.

Lemma two_chunk_model_well_formed prompt hist past :
  Forall Chat.well_formed_chunk (two_chunk_model prompt hist past).
Proof.
  repeat constructor; eexists _, _, _, _; (split; [reflexivity | repeat constructor]).
Defined.

Lemma chatglm3_loop_cache_bounded_witness :
  let run := Chat.chatglm3_stream_chat tt two_chunk_model ["hi"; "stop"] in
  (Chat.glm_past run.1 = None \/
   exists kept n, Chat.glm_past run.1 = Some kept /\ Chat.uniform_rows n kept /\
                  Chat.bounded_rows Chat.max_past_length kept) /\
  ("stop" ∈ ["hi"; "stop"] -> run.2 = OK tt) /\
  ("stop" ∉ ["hi"; "stop"] -> run.2 = Err EOFError).
Proof.
  apply (chatglm3_loop_cache_bounded nat unit tt two_chunk_model ["hi"; "stop"]
           two_chunk_model_well_formed).
Defined.

End ChatRuns.
